(** * Clazzy: a classical interface over prototypes

    A verification development for [src/Clazzy.js].  The library is a
    single factory, [create], with its helpers
    ([createAnUnconstructedInstanceOfClass], [getPropertyDescriptor],
    [copyProperty], [copyProperties], [wrapMethodToHaveSuper]) and the
    two closures it hands out (the constructor [Class] and the wrapper
    that rebinds [this.super]).

    The library code is embedded shallowly, as Rocq functions in a
    state-and-exception monad over a heap of JavaScript objects.  The
    host operations it relies on (property lookup along the prototype
    chain, strict-mode assignment, [Object.defineProperty],
    [Object.create], [for-in]) are modelled after ECMAScript 2015.  The
    functions a caller puts in a definition are arbitrary code; they are
    given as terms of a small statement language and run by an
    interpreter with fuel.  Host behaviour that is not modelled (property
    access on primitive strings and numbers, writes to array indices)
    stops the run with [Abort Unmodelled] instead of being guessed.

    The file has three parts: the model (values, the host, the
    interpreter and the library); the properties of [create] and of the
    closures it hands out, proved on heaps whose properties are all data
    properties, where [create] runs no user code; and programs that use
    the library, on which the model and the theorems are run. *)

From Stdlib Require Import ZArith Ascii String List Bool Lia.
From stdpp Require Import base list strings.

Local Open Scope Z_scope.
Local Open Scope nat_scope.

(** ** Values, code and objects *)

Abbreviation loc := nat.

Inductive value :=
| VUndef
| VNull
| VBool (b : bool)
| VNum (n : Z)
| VStr (s : string)
| VRef (l : loc).

#[global] Instance value_eq_dec : EqDecision value.
Proof. solve_decision. Defined.

(** Bodies of the functions written by the user of the library. *)
Inductive expr :=
| EConst (v : value)
| EThis
| EArg (i : nat)                              (* arguments[i] *)
| EArgc                                       (* arguments.length *)
| EGet (e : expr) (k : string)                (* e.k *)
| ECall (e : expr) (k : string) (args : exprs) (* e.k(args), this = e *)
| EAdd (e1 e2 : expr)                         (* e1 + e2 *)
with exprs :=
| ENil
| ECons (e : expr) (es : exprs).

Inductive stmt :=
| SSkip
| SExpr (e : expr)
| SSet (e : expr) (k : string) (v : expr)     (* e.k = v *)
| SSeq (s1 s2 : stmt)
| SReturn (e : expr)
| SThrow (e : expr)
| STry (s1 s2 : stmt).                        (* try { s1 } catch (_) { s2 } *)

Scheme expr_mut_ind := Induction for expr Sort Prop
  with exprs_mut_ind := Induction for exprs Sort Prop.

(** Built-in functions of the host that a class can meet through
    [Object.prototype]. *)
Inductive native :=
| NObject
| NToString
| NValueOf
| NHasOwnProperty
| NIsPrototypeOf
| NPropertyIsEnumerable
| NOther.

(** The callable part of a function object.  [FWrapped] is the closure
    returned by [wrapMethodToHaveSuper], with the three variables it
    captures; [FClass] is the closure [Class] of [create], with the two
    captured variables it reads ([initialize] and [includes], both
    assigned by [create] after the closure exists). *)
Inductive func :=
| FUser (body : stmt)
| FNative (n : native)
| FNoSuper
| FWrapped (method : value) (signature : string) (base : value)
| FClass (initialize includes : value).

Inductive slot :=
| Data (v : value) (writable : bool)
| Accessor (getter setter : value).

Record prop := Prop_ { p_slot : slot; p_enum : bool; p_conf : bool }.

#[global] Instance slot_eq_dec : EqDecision slot.
Proof. solve_decision. Defined.
#[global] Instance prop_eq_dec : EqDecision prop.
Proof. solve_decision. Defined.

(** Own properties are kept in creation order, which [for-in] follows. *)
Record obj := Obj {
  o_proto : option loc;
  o_props : list (string * prop);
  o_call  : option func;
  o_array : bool
}.

Abbreviation heap := (list obj).

Inductive exn :=
| TypeError
| Error (msg : string)
| Thrown (v : value).

Inductive reason := OutOfFuel | Unmodelled.

Inductive outcome (A : Type) :=
| Ret (a : A) (h : heap)
| Throw (e : exn) (h : heap)
| Abort (r : reason).
Arguments Ret {A} a h.
Arguments Throw {A} e h.
Arguments Abort {A} r.

Definition M (A : Type) := heap -> outcome A.

Definition ret {A} (a : A) : M A := fun h => Ret a h.
Definition throw {A} (e : exn) : M A := fun h => Throw e h.
Definition abort {A} (r : reason) : M A := fun _ => Abort r.
Definition bind {A B} (m : M A) (k : A -> M B) : M B :=
  fun h => match m h with
           | Ret a h' => k a h'
           | Throw e h' => Throw e h'
           | Abort r => Abort r
           end.

(** [try { m } finally { c }]: [c] runs on both exits of [m]; a failure
    of [c] replaces the completion of [m]. *)
Definition finally {A} (m : M A) (c : M unit) : M A :=
  fun h => match m h with
           | Ret a h' => match c h' with
                         | Ret _ h'' => Ret a h''
                         | Throw e h'' => Throw e h''
                         | Abort r => Abort r
                         end
           | Throw e h' => match c h' with
                           | Ret _ h'' => Throw e h''
                           | Throw e' h'' => Throw e' h''
                           | Abort r => Abort r
                           end
           | Abort r => Abort r
           end.

Notation "x <- m ;; k" := (bind m (fun x => k))
  (at level 100, m at next level, right associativity).
Notation "m ;;; k" := (bind m (fun _ => k))
  (at level 100, right associativity).

(** ** Keywords (lines 22-28) *)

Definition SUPER : string := "super".
Definition INITIALIZE : string := "initialize".
Definition EXTEND : string := "extend".
Definition STATIC : string := "static".
Definition INCLUDE : string := "include".
Definition CONSTRUCTOR : string := "constructor".
Definition PROTOTYPE : string := "prototype".
Definition LENGTH : string := "length".

(** ** Property tables *)

Fixpoint own (ps : list (string * prop)) (k : string) : option prop :=
  match ps with
  | [] => None
  | (k', p) :: r => if String.eqb k' k then Some p else own r k
  end.

(** Replace in place, or append: a new property goes last. *)
Fixpoint put (ps : list (string * prop)) (k : string) (p : prop)
  : list (string * prop) :=
  match ps with
  | [] => [(k, p)]
  | (k', p') :: r =>
      if String.eqb k' k then (k, p) :: r else (k', p') :: put r k p
  end.

Definition plain (v : value) : prop := Prop_ (Data v true) true true.
Definition hidden (v : value) : prop := Prop_ (Data v true) false true.

Definition own_prop (h : heap) (l : loc) (k : string) : option prop :=
  match h !! l with
  | Some o => own (o_props o) k
  | None => None
  end.

(** The first object along the prototype chain of [l] that has [k]. *)
Fixpoint find_prop (n : nat) (h : heap) (l : loc) (k : string)
  : option prop :=
  match n with
  | 0 => None
  | S n' =>
      match h !! l with
      | None => None
      | Some o =>
          match own (o_props o) k with
          | Some p => Some p
          | None => match o_proto o with
                    | Some l' => find_prop n' h l' k
                    | None => None
                    end
          end
      end
  end.

Definition lookup_prop (h : heap) (l : loc) (k : string) : option prop :=
  find_prop (length h) h l k.

Definition set_props (o : obj) (ps : list (string * prop)) : obj :=
  Obj (o_proto o) ps (o_call o) (o_array o).

Definition set_call (o : obj) (f : func) : obj :=
  Obj (o_proto o) (o_props o) (Some f) (o_array o).

Definition write_prop (h : heap) (l : loc) (k : string) (p : prop) : heap :=
  match h !! l with
  | Some o => <[l := set_props o (put (o_props o) k p)]> h
  | None => h
  end.

Definition alloc (o : obj) : M loc :=
  fun h => Ret (length h) (h ++ [o]).

Definition is_callable (h : heap) (v : value) : bool :=
  match v with
  | VRef l => match h !! l with
              | Some o => match o_call o with Some _ => true | None => false end
              | None => false
              end
  | _ => false
  end.

(** ToBoolean. *)
Definition truthy (v : value) : bool :=
  match v with
  | VUndef | VNull => false
  | VBool b => b
  | VNum n => negb (Z.eqb n 0)
  | VStr s => negb (String.eqb s EmptyString)
  | VRef _ => true
  end.

(** ** Array indices and the order of [for-in] *)

Definition digit_of (c : Ascii.ascii) : option N :=
  let n := Ascii.N_of_ascii c in
  if (N.leb 48 n && N.leb n 57)%bool then Some (n - 48)%N else None.

Fixpoint digits (s : string) (acc : N) : option N :=
  match s with
  | EmptyString => Some acc
  | String c r => match digit_of c with
                  | Some d => digits r (acc * 10 + d)%N
                  | None => None
                  end
  end.

(** A canonical numeric string below 2^32 - 1 is an array index. *)
Definition array_index (s : string) : option N :=
  match s with
  | EmptyString => None
  | String c r =>
      if (Ascii.eqb c "0"%char && negb (String.eqb r EmptyString))%bool then None
      else match digits s 0%N with
           | Some n => if (N.ltb n 4294967295)%N then Some n else None
           | None => None
           end
  end.

Fixpoint digits_of (fuel : nat) (n : N) (acc : string) : string :=
  match fuel with
  | 0 => acc
  | S f =>
      let d := Ascii.ascii_of_N (48 + N.modulo n 10)%N in
      let q := N.div n 10 in
      if N.eqb q 0 then String d acc else digits_of f q (String d acc)
  end.

(** [String(i)] for a natural number. *)
Definition index_key (i : nat) : string :=
  digits_of (S i) (N.of_nat i) EmptyString.

Fixpoint insert_index (x : N * string) (l : list (N * string))
  : list (N * string) :=
  match l with
  | [] => [x]
  | y :: r => if (N.leb (fst x) (fst y))%N then x :: l
              else y :: insert_index x r
  end.

Fixpoint mem (k : string) (l : list string) : bool :=
  match l with
  | [] => false
  | k' :: r => if String.eqb k' k then true else mem k r
  end.

Fixpoint dedup (l : list string) (seen : list string) : list string :=
  match l with
  | [] => []
  | k :: r => if mem k seen then dedup r seen else k :: dedup r (k :: seen)
  end.

(** OrdinaryOwnPropertyKeys: array indices in ascending order, then the
    other names in creation order. *)
Definition own_keys (o : obj) : list string :=
  let ks := dedup (map fst (o_props o)) [] in
  let idx := fold_right
               (fun k acc => match array_index k with
                             | Some n => insert_index (n, k) acc
                             | None => acc
                             end) [] ks in
  map snd idx ++
  List.filter
    (fun k => match array_index k with Some _ => false | None => true end) ks.

Definition enumerable_own (o : obj) (k : string) : bool :=
  match own (o_props o) k with
  | Some p => p_enum p
  | None => false
  end.

(** The names [for (k in l)] visits: own names first, then those of the
    prototype chain; a name is visited once, and not at all when the
    first object that has it does not make it enumerable. *)
Fixpoint forin_chain (n : nat) (h : heap) (l : loc) (seen : list string)
  : list string :=
  match n with
  | 0 => []
  | S n' =>
      match h !! l with
      | None => []
      | Some o =>
          let fresh := List.filter (fun k => negb (mem k seen)) (own_keys o) in
          List.filter (enumerable_own o) fresh ++
          match o_proto o with
          | Some l' => forin_chain n' h l' (seen ++ fresh)
          | None => []
          end
      end
  end.

Definition forin_keys (h : heap) (l : loc) : list string :=
  forin_chain (length h) h l [].

(** ** The realm: built-in objects at fixed addresses *)

Definition ObjectPrototype : loc := 0.
Definition FunctionPrototype : loc := 1.
Definition Object_ : loc := 2.
Definition noSuper_ : loc := 9.
Definition ArrayPrototype : loc := 15.

Definition readonly (v : value) : prop := Prop_ (Data v false) false true.

Definition native_object (n : native) (name : string) : obj :=
  Obj (Some FunctionPrototype)
      [(LENGTH, readonly (VNum 0)); ("name"%string, readonly (VStr name))]
      (Some (FNative n)) false.

(** A function object as a [function] expression creates it: own
    [prototype] (writable, not enumerable, not configurable), [length]
    and [name], and a fresh prototype object at [proto_obj]. *)
Definition function_object (f : func) (name : string) (proto_obj : loc) : obj :=
  Obj (Some FunctionPrototype)
      [(LENGTH, readonly (VNum 0));
       ("name"%string, readonly (VStr name));
       (PROTOTYPE, Prop_ (Data (VRef proto_obj) true) false false)]
      (Some f) false.

Definition prototype_object (fn : loc) : obj :=
  Obj (Some ObjectPrototype) [(CONSTRUCTOR, hidden (VRef fn))] None false.

Definition empty_object : obj := Obj (Some ObjectPrototype) [] None false.

Definition realm : heap :=
  [ (* 0 *) Obj None
      [(CONSTRUCTOR, hidden (VRef Object_));
       ("toString"%string, hidden (VRef 3));
       ("toLocaleString"%string, hidden (VRef 4));
       ("valueOf"%string, hidden (VRef 5));
       ("hasOwnProperty"%string, hidden (VRef 6));
       ("isPrototypeOf"%string, hidden (VRef 7));
       ("propertyIsEnumerable"%string, hidden (VRef 8))] None false;
    (* 1 *) Obj (Some ObjectPrototype)
      [(LENGTH, readonly (VNum 0));
       ("name"%string, readonly (VStr EmptyString));
       ("apply"%string, hidden (VRef 11));
       ("bind"%string, hidden (VRef 12));
       ("call"%string, hidden (VRef 13));
       ("toString"%string, hidden (VRef 14))] (Some (FNative NOther)) false;
    (* 2 *) Obj (Some FunctionPrototype)
      [(LENGTH, readonly (VNum 1));
       ("name"%string, readonly (VStr "Object"));
       (PROTOTYPE, Prop_ (Data (VRef ObjectPrototype) false) false false)]
      (Some (FNative NObject)) false;
    (* 3 *) native_object NToString "toString";
    (* 4 *) native_object NOther "toLocaleString";
    (* 5 *) native_object NValueOf "valueOf";
    (* 6 *) native_object NHasOwnProperty "hasOwnProperty";
    (* 7 *) native_object NIsPrototypeOf "isPrototypeOf";
    (* 8 *) native_object NPropertyIsEnumerable "propertyIsEnumerable";
    (* 9: [noSuper], created once when the module is loaded *)
            function_object FNoSuper "noSuper" 10;
    (* 10 *) prototype_object noSuper_;
    (* 11 *) native_object NOther "apply";
    (* 12 *) native_object NOther "bind";
    (* 13 *) native_object NOther "call";
    (* 14 *) native_object NOther "toString";
    (* 15 *) Obj (Some ObjectPrototype)
      [(LENGTH, Prop_ (Data (VNum 0) true) false false)] None true ].

(** ** Host operations that run no code *)

Fixpoint all_digits (s : string) : bool :=
  match s with
  | EmptyString => true
  | String c r => match digit_of c with
                  | Some _ => all_digits r
                  | None => false
                  end
  end.

(** The names an array treats specially: its indices and [length].
    Every name made of digits is counted here, so that a write the model
    lets through is never a write to an element. *)
Definition index_or_length (k : string) : bool :=
  match k with
  | EmptyString => false
  | _ => all_digits k
  end || String.eqb k LENGTH.

(** ValidateAndApplyPropertyDescriptor for a complete descriptor on an
    extensible object. *)
Definition compatible (cur new : prop) : bool :=
  if p_conf cur then true
  else if bool_decide (cur = new) then true
  else negb (p_conf new) && Bool.eqb (p_enum cur) (p_enum new) &&
       match p_slot cur, p_slot new with
       | Data v w, Data v' w' => w || (negb w' && bool_decide (v = v'))
       | Accessor g s, Accessor g' s' =>
           bool_decide (g = g') && bool_decide (s = s')
       | _, _ => false
       end.

(** [Object.defineProperty(target, k, d)]. *)
Definition defineProperty (target : value) (k : string) (d : prop) : M unit :=
  fun h =>
    match target with
    | VRef l =>
        match h !! l with
        | None => Abort Unmodelled
        | Some o =>
            if o_array o && index_or_length k then Abort Unmodelled
            else match own (o_props o) k with
                 | Some cur =>
                     if compatible cur d then Ret tt (write_prop h l k d)
                     else Throw TypeError h
                 | None => Ret tt (write_prop h l k d)
                 end
        end
    | _ => Throw TypeError h
    end.

(** [Object.getOwnPropertyDescriptor(o, k)]; the descriptor object is
    rendered by the property record, [None] standing for [undefined]. *)
Definition getOwnPropertyDescriptor (o : value) (k : string)
  : M (option prop) :=
  fun h =>
    match o with
    | VRef l => match h !! l with
                | Some ob => Ret (own (o_props ob) k) h
                | None => Abort Unmodelled
                end
    | VUndef | VNull => Throw TypeError h
    | _ => Abort Unmodelled
    end.

(** [Object.getPrototypeOf(o)]. *)
Definition getPrototypeOf (o : value) : M value :=
  fun h =>
    match o with
    | VRef l => match h !! l with
                | Some ob => Ret (match o_proto ob with
                                  | Some l' => VRef l'
                                  | None => VNull
                                  end) h
                | None => Abort Unmodelled
                end
    | VUndef | VNull => Throw TypeError h
    | _ => Abort Unmodelled
    end.

(** [Object.create(p)]. *)
Definition object_create (p : value) : M value :=
  match p with
  | VRef l => l' <- alloc (Obj (Some l) [] None false) ;; ret (VRef l')
  | VNull => l' <- alloc (Obj None [] None false) ;; ret (VRef l')
  | _ => throw TypeError
  end.

(** [hasOwnProperty.call(o, k)]. *)
Definition hasOwnProperty (o : value) (k : string) : M bool :=
  fun h =>
    match o with
    | VRef l => match h !! l with
                | Some ob => Ret (match own (o_props ob) k with
                                  | Some _ => true
                                  | None => false
                                  end) h
                | None => Abort Unmodelled
                end
    | VUndef | VNull => Throw TypeError h
    | _ => Abort Unmodelled
    end.

(** The names visited by [for (k in o)], taken when the loop starts. *)
Definition for_in (o : value) : M (list string) :=
  fun h =>
    match o with
    | VRef l => match h !! l with
                | Some _ => Ret (forin_keys h l) h
                | None => Abort Unmodelled
                end
    | VUndef | VNull => Ret [] h
    | _ => Abort Unmodelled
    end.

(** [typeof v === 'function']. *)
Definition typeof_function (v : value) : M bool :=
  fun h => Ret (is_callable h v) h.

Fixpoint each {A} (f : A -> M unit) (l : list A) : M unit :=
  match l with
  | [] => ret tt
  | x :: r => f x ;;; each f r
  end.

(** The bound of [for (i = 0; i < l; ++i)]. *)
Definition loop_bound (l : value) : M nat :=
  match l with
  | VNum n => ret (Z.to_nat n)
  | VUndef | VNull => ret 0
  | VBool b => ret (if b then 1 else 0)
  | _ => abort Unmodelled
  end.

(** [slice.call(arguments)]: a fresh array with the same elements, which
    [apply] spreads again; the argument list itself stands for it. *)
Definition slice (arguments : list value) : list value := arguments.

(** ** Native functions *)

Fixpoint in_chain (n : nat) (h : heap) (l target : loc) : bool :=
  match n with
  | 0 => false
  | S n' => match h !! l with
            | Some o => match o_proto o with
                        | Some l' => Nat.eqb l' target || in_chain n' h l' target
                        | None => false
                        end
            | None => false
            end
  end.

Definition native_call (n : native) (this : value) (args : list value)
  : M value :=
  match n with
  | NObject =>
      match nth 0 args VUndef with
      | VUndef | VNull => l <- alloc empty_object ;; ret (VRef l)
      | VRef l => ret (VRef l)
      | _ => abort Unmodelled
      end
  | NToString =>
      fun h =>
        match this with
        | VUndef => Ret (VStr "[object Undefined]") h
        | VNull => Ret (VStr "[object Null]") h
        | VBool _ => Ret (VStr "[object Boolean]") h
        | VNum _ => Ret (VStr "[object Number]") h
        | VStr _ => Ret (VStr "[object String]") h
        | VRef l =>
            match h !! l with
            | Some o =>
                if o_array o then Ret (VStr "[object Array]") h
                else match o_call o with
                     | Some _ => Ret (VStr "[object Function]") h
                     | None => Ret (VStr "[object Object]") h
                     end
            | None => Abort Unmodelled
            end
        end
  | NValueOf =>
      match this with
      | VRef l => ret (VRef l)
      | VUndef | VNull => throw TypeError
      | _ => abort Unmodelled
      end
  | NHasOwnProperty =>
      match nth 0 args VUndef with
      | VStr k => b <- hasOwnProperty this k ;; ret (VBool b)
      | _ => abort Unmodelled
      end
  | NIsPrototypeOf =>
      fun h =>
        match nth 0 args VUndef, this with
        | VRef v, VRef l => Ret (VBool (in_chain (length h) h v l)) h
        | VRef _, (VUndef | VNull) => Throw TypeError h
        | VRef _, _ => Abort Unmodelled
        | _, _ => Ret (VBool false) h
        end
  | NPropertyIsEnumerable =>
      fun h =>
        match nth 0 args VUndef, this with
        | VStr k, VRef l =>
            match h !! l with
            | Some o => Ret (VBool (enumerable_own o k)) h
            | None => Abort Unmodelled
            end
        | VStr _, (VUndef | VNull) => Throw TypeError h
        | _, _ => Abort Unmodelled
        end
  | NOther => abort Unmodelled
  end.

(** ** Host operations that may run code, user code, and the closures
    of the library *)

Definition catch {A} (m : M A) (c : M A) : M A :=
  fun h => match m h with
           | Throw _ h' => c h'
           | r => r
           end.

Definition add (a b : value) : M value :=
  match a, b with
  | VStr x, VStr y => ret (VStr (String.append x y))
  | VNum x, VNum y => ret (VNum (x + y))
  | _, _ => abort Unmodelled
  end.

Section Code.

(** [call f this args]: the application of a function value, given
    with one unit of fuel less by the interpreter below. *)
Variable call : value -> value -> list value -> M value.

(** [o[k]] as a value: the Get of an object along its chain. *)
Definition js_get (o : value) (k : string) : M value :=
  fun h =>
    match o with
    | VRef l =>
        match h !! l with
        | None => Abort Unmodelled
        | Some _ =>
            match lookup_prop h l k with
            | None => Ret VUndef h
            | Some p =>
                match p_slot p with
                | Data v _ => Ret v h
                | Accessor VUndef _ => Ret VUndef h
                | Accessor g _ => call g o [] h
                end
            end
        end
    | VUndef | VNull => Throw TypeError h
    | _ => Abort Unmodelled
    end.

(** [o[k] = v] in strict code. *)
Definition js_set (o : value) (k : string) (v : value) : M unit :=
  fun h =>
    match o with
    | VRef l =>
        match h !! l with
        | None => Abort Unmodelled
        | Some ob =>
            if o_array ob && index_or_length k then Abort Unmodelled
            else
              match lookup_prop h l k with
              | Some (Prop_ (Accessor _ VUndef) _ _) => Throw TypeError h
              | Some (Prop_ (Accessor _ s) _ _) =>
                  (call s o [v] ;;; ret tt) h
              | Some (Prop_ (Data _ false) _ _) => Throw TypeError h
              | Some (Prop_ (Data _ true) _ _) | None =>
                  match own (o_props ob) k with
                  | Some p =>
                      Ret tt (write_prop h l k
                                (Prop_ (Data v true) (p_enum p) (p_conf p)))
                  | None => Ret tt (write_prop h l k (plain v))
                  end
              end
        end
    | VUndef | VNull => Throw TypeError h
    | _ => Abort Unmodelled
    end.

Fixpoint eval (this : value) (args : list value) (e : expr) : M value :=
  match e with
  | EConst v => ret v
  | EThis => ret this
  | EArg i => ret (nth i args VUndef)
  | EArgc => ret (VNum (Z.of_nat (length args)))
  | EGet e k => o <- eval this args e ;; js_get o k
  | ECall e k es =>
      o <- eval this args e ;;
      f <- js_get o k ;;
      vs <- evals this args es ;;
      call f o vs
  | EAdd e1 e2 =>
      a <- eval this args e1 ;; b <- eval this args e2 ;; add a b
  end
with evals (this : value) (args : list value) (es : exprs)
  : M (list value) :=
  match es with
  | ENil => ret []
  | ECons e r =>
      v <- eval this args e ;; vs <- evals this args r ;; ret (v :: vs)
  end.

(** [Some v] when the statement returned [v]. *)
Fixpoint exec (this : value) (args : list value) (s : stmt)
  : M (option value) :=
  match s with
  | SSkip => ret None
  | SExpr e => eval this args e ;;; ret None
  | SSet e k v =>
      o <- eval this args e ;; x <- eval this args v ;;
      js_set o k x ;;; ret None
  | SSeq s1 s2 =>
      r <- exec this args s1 ;;
      match r with
      | Some v => ret (Some v)
      | None => exec this args s2
      end
  | SReturn e => v <- eval this args e ;; ret (Some v)
  | SThrow e => v <- eval this args e ;; throw (Thrown v)
  | STry s1 s2 => catch (exec this args s1) (exec this args s2)
  end.

Definition user_function (body : stmt) (this : value) (args : list value)
  : M value :=
  r <- exec this args body ;;
  ret (match r with Some v => v | None => VUndef end).

(** [noSuper] (lines 136-139). *)
Definition noSuper : M value :=
  throw (Error "Cannot call super, this method does not override a parent method").

(** The function returned by [wrapMethodToHaveSuper(method, signature,
    base)] (lines 143-163), applied to [this] and its arguments. *)
Definition super_wrapper (method : value) (signature : string)
    (base : value) (this : value) (arguments : list value) : M value :=
  tmp <- js_get this SUPER ;;
  proto <- js_get base PROTOTYPE ;;
  m <- js_get proto signature ;;
  js_set this SUPER (if truthy m then m else VRef noSuper_) ;;;
  finally (call method this (slice arguments))
          (js_set this SUPER tmp).

Fixpoint call_includes (n i : nat) (includes this : value) : M unit :=
  match n with
  | 0 => ret tt
  | S n' =>
      f <- js_get includes (index_key i) ;;
      call f this [] ;;;
      call_includes n' (S i) includes this
  end.

(** [Class] (lines 183-199), applied to [this] and its arguments;
    [initialize] and [includes] are the variables of [create] it
    closes over. *)
Definition Class_constructor (initialize includes : value)
    (this : value) (arguments : list value) : M value :=
  match includes with
  | VUndef => ret tt
  | _ =>
      l <- js_get includes LENGTH ;;
      n <- loop_bound l ;;
      call_includes n 0 includes this
  end ;;;
  match initialize with
  | VUndef => ret tt
  | _ => call initialize this (slice arguments) ;;; ret tt
  end ;;;
  ret VUndef.

End Code.

(** Function application.  A value that is not callable makes the host
    raise a TypeError. *)
Fixpoint call (fuel : nat) (f this : value) (args : list value) : M value :=
  match fuel with
  | 0 => abort OutOfFuel
  | S n =>
      fun h =>
        match f with
        | VRef l =>
            match h !! l with
            | None => Abort Unmodelled
            | Some o =>
                match o_call o with
                | None => Throw TypeError h
                | Some (FUser body) => user_function (call n) body this args h
                | Some (FNative nf) => native_call nf this args h
                | Some FNoSuper => noSuper h
                | Some (FWrapped method signature base) =>
                    super_wrapper (call n) method signature base this args h
                | Some (FClass initialize includes) =>
                    Class_constructor (call n) initialize includes this args h
                end
            end
        | _ => Throw TypeError h
        end
  end.

(** [new C(args)]. *)
Definition construct (fuel : nat) (C : value) (args : list value) : M value :=
  p <- js_get (call fuel) C PROTOTYPE ;;
  this <- alloc (Obj (Some (match p with
                            | VRef l => l
                            | _ => ObjectPrototype
                            end)) [] None false) ;;
  r <- call fuel C (VRef this) args ;;
  ret (match r with VRef _ => r | _ => VRef this end).

(** ** The library (src/Clazzy.js) *)

Definition make_function (f : func) (name : string) : M loc :=
  fun h =>
    let l := length h in
    Ret l (h ++ [function_object f name (S l); prototype_object l]).

(** The assignments to the variables [initialize] and [includes] of
    [create], which the closure [Class] at [cl] shares. *)
Definition assign_initialize (cl : loc) (v : value) : M unit :=
  fun h =>
    match h !! cl with
    | Some o => match o_call o with
                | Some (FClass _ inc) => Ret tt (<[cl := set_call o (FClass v inc)]> h)
                | _ => Abort Unmodelled
                end
    | None => Abort Unmodelled
    end.

Definition assign_includes (cl : loc) (v : value) : M unit :=
  fun h =>
    match h !! cl with
    | Some o => match o_call o with
                | Some (FClass ini _) => Ret tt (<[cl := set_call o (FClass ini v)]> h)
                | _ => Abort Unmodelled
                end
    | None => Abort Unmodelled
    end.

Section Library.

Variable call : value -> value -> list value -> M value.

(** [createAnUnconstructedInstanceOfClass] (lines 33-58), on a host
    that has [Object.create]. *)
Definition createAnUnconstructedInstanceOfClass (clazz : value) : M value :=
  p <- js_get call clazz PROTOTYPE ;;
  object_create p.

(** The [do ... while] of [getPropertyDescriptor] (lines 73-82); [n]
    bounds the length of a prototype chain. *)
Fixpoint climb (n : nat) (prototype : value) (property : string)
  : M (option prop) :=
  match n with
  | 0 => abort Unmodelled
  | S n' =>
      prototype <- getPrototypeOf prototype ;;
      descriptor <- getOwnPropertyDescriptor prototype property ;;
      match prototype, descriptor with
      | VUndef, _ => ret descriptor
      | _, Some _ => ret descriptor
      | _, None => climb n' prototype property
      end
  end.

(** [getPropertyDescriptor] (lines 60-86). *)
Definition getPropertyDescriptor (object : value) (property : string)
    (deep : bool) : M (option prop) :=
  descriptor <- getOwnPropertyDescriptor object property ;;
  match descriptor with
  | Some d => ret (Some d)
  | None =>
      if deep then fun h => climb (length h) object property h
      else ret None
  end.

(** [copyProperty] (lines 102-117), on a host that has
    [Object.defineProperties]. *)
Definition copyProperty (source target : value) (property : string)
    (deep : bool) : M unit :=
  descriptor <- getPropertyDescriptor source property deep ;;
  match descriptor with
  | Some d => defineProperty target property d
  | None => ret tt
  end.

(** [copyProperties] (lines 121-130). *)
Definition copyProperties (source target : value) (deep : bool) : M unit :=
  keys <- for_in source ;;
  each (fun property =>
          b <- (if deep then ret true else hasOwnProperty source property) ;;
          if b then copyProperty source target property deep else ret tt)
       keys.

(** [wrapMethodToHaveSuper] (lines 141-164): a new function object
    closing over the three arguments. *)
Definition wrapMethodToHaveSuper (method : value) (signature : string)
    (base : value) : M value :=
  l <- make_function (FWrapped method signature base) EmptyString ;;
  ret (VRef l).

(** Step 3 of [create], the body of the loop over [includes]
    (lines 224-231). *)
Fixpoint mixin (n i : nat) (cl : loc) (includes : value) : M unit :=
  match n with
  | 0 => ret tt
  | S n' =>
      inc <- js_get call includes (index_key i) ;;
      include <- createAnUnconstructedInstanceOfClass inc ;;
      proto <- js_get call (VRef cl) PROTOTYPE ;;
      copyProperties include proto true ;;;
      mixin n' (S i) cl includes
  end.

(** Step 4 of [create], the body of the loop over the definition
    (lines 238-282). *)
Definition define (cl : loc) (base definition : value) (property : string)
  : M unit :=
  b <- hasOwnProperty definition property ;;
  if b then
    member <- js_get call definition property ;;
    if String.eqb property INITIALIZE then
      w <- wrapMethodToHaveSuper member CONSTRUCTOR base ;;
      assign_initialize cl w
    else if String.eqb property EXTEND || String.eqb property INCLUDE then
      ret tt
    else if String.eqb property STATIC then
      copyProperties member (VRef cl) false
    else if String.eqb property SUPER then
      throw (Error "Cannot create class, `super` is a reserved method name.")
    else
      f <- typeof_function member ;;
      if f then
        proto <- js_get call (VRef cl) PROTOTYPE ;;
        w <- wrapMethodToHaveSuper member property base ;;
        js_set call proto property w
      else
        proto <- js_get call (VRef cl) PROTOTYPE ;;
        copyProperty definition proto property false
  else ret tt.

(** [create] (lines 172-288). *)
Definition create (definition : value) : M value :=
  definition <- match definition with
                | VUndef => l <- alloc empty_object ;; ret (VRef l)
                | _ => ret definition
                end ;;
  (* 1) Constructor *)
  cl <- make_function (FClass VUndef VUndef) "Class" ;;
  (* 2) Inherit *)
  base <- js_get call definition EXTEND ;;
  base <- match base with
          | VUndef => ret (VRef Object_)
          | _ =>
              inst <- createAnUnconstructedInstanceOfClass base ;;
              js_set call (VRef cl) PROTOTYPE inst ;;;
              proto <- js_get call base PROTOTYPE ;;
              c <- js_get call proto CONSTRUCTOR ;;
              assign_initialize cl c ;;;
              ret base
          end ;;
  (* 3) Mixin *)
  includes <- js_get call definition INCLUDE ;;
  assign_includes cl includes ;;;
  match includes with
  | VUndef => ret tt
  | _ =>
      l <- js_get call includes LENGTH ;;
      n <- loop_bound l ;;
      mixin n 0 cl includes
  end ;;;
  (* 4) Define *)
  keys <- for_in definition ;;
  each (define cl base definition) keys ;;;
  proto <- js_get call (VRef cl) PROTOTYPE ;;
  js_set call proto CONSTRUCTOR (VRef cl) ;;;
  ret (VRef cl).

End Library.

(** [Clazzy.create(definition)] with the fuel [fuel] for the user code
    (accessors of the definition) it may run. *)
Definition Clazzy_create (fuel : nat) (definition : value) : M value :=
  create (call fuel) definition.

(** ** Literals of the caller's program *)

(** [{k1: v1, ...}]. *)
Definition object_literal (ps : list (string * value)) : M value :=
  l <- alloc (Obj (Some ObjectPrototype)
                  (fold_left (fun acc kv => put acc (fst kv) (plain (snd kv)))
                             ps [])
                  None false) ;;
  ret (VRef l).

(** [function () { body }]. *)
Definition function_expr (body : stmt) : M value :=
  l <- make_function (FUser body) EmptyString ;;
  ret (VRef l).

Fixpoint index_props (i : nat) (vs : list value) : list (string * prop) :=
  match vs with
  | [] => []
  | v :: r => (index_key i, plain v) :: index_props (S i) r
  end.

(** [[v0, v1, ...]]. *)
Definition array_literal (vs : list value) : M value :=
  l <- alloc (Obj (Some ArrayPrototype)
                  (index_props 0 vs ++
                   [(LENGTH, Prop_ (Data (VNum (Z.of_nat (length vs))) true)
                                   false false)])
                  None true) ;;
  ret (VRef l).

(** [o.k(args)] at top level. *)
Definition invoke (fuel : nat) (o : value) (k : string) (args : list value)
  : M value :=
  f <- js_get (call fuel) o k ;;
  call fuel f o args.

(** * Properties *)

(** ** Property tables and heaps *)

Lemma own_put_eq ps k p : own (put ps k p) k = Some p.
Proof.
  induction ps as [|[k' p'] r IH]; simpl.
  - by rewrite String.eqb_refl.
  - destruct (String.eqb k' k) eqn:E; simpl.
    + by rewrite String.eqb_refl.
    + by rewrite E.
Qed.

Lemma own_put_ne ps k k' p : k ≠ k' → own (put ps k p) k' = own ps k'.
Proof.
  intros Hne. induction ps as [|[k0 p0] r IH]; simpl.
  - destruct (String.eqb k k') eqn:E; [|done].
    apply String.eqb_eq in E. done.
  - destruct (String.eqb k0 k) eqn:E; simpl.
    + apply String.eqb_eq in E. subst k0.
      destruct (String.eqb k k') eqn:E'; [|done].
      apply String.eqb_eq in E'. done.
    + by rewrite IH.
Qed.

Lemma write_prop_length h l k p : length (write_prop h l k p) = length h.
Proof.
  unfold write_prop. destruct (h !! l); [|done]. by rewrite length_insert.
Qed.

Lemma write_prop_lookup h l k p o :
  h !! l = Some o →
  write_prop h l k p !! l = Some (set_props o (put (o_props o) k p)).
Proof.
  intros H. unfold write_prop. rewrite H.
  apply list_lookup_insert_eq. by eapply lookup_lt_Some.
Qed.

Lemma write_prop_lookup_ne h l l' k p :
  l ≠ l' → write_prop h l k p !! l' = h !! l'.
Proof.
  intros H. unfold write_prop. destruct (h !! l); [|done].
  by apply list_lookup_insert_ne.
Qed.

Lemma find_prop_own n h l k o p :
  h !! l = Some o → own (o_props o) k = Some p →
  find_prop (S n) h l k = Some p.
Proof. intros H1 H2. simpl. by rewrite H1, H2. Qed.

Lemma lookup_prop_own h l k o p :
  h !! l = Some o → own (o_props o) k = Some p →
  lookup_prop h l k = Some p.
Proof.
  intros H1 H2. unfold lookup_prop.
  destruct (length h) eqn:E.
  - apply lookup_lt_Some in H1. lia.
  - by eapply find_prop_own.
Qed.

(** ** What running code can do to the objects that exist *)

(** A property keeps its attributes and its kind; only the value of a
    writable data property can change. *)
Definition same_kind (p p' : prop) : Prop :=
  p_enum p' = p_enum p ∧ p_conf p' = p_conf p ∧
  match p_slot p, p_slot p' with
  | Data v w, Data v' w' => w' = w ∧ (w = false → v' = v)
  | Accessor g s, Accessor g' s' => g' = g ∧ s' = s
  | _, _ => False
  end.

Record obj_evolves (o o' : obj) : Prop := {
  ev_proto : o_proto o' = o_proto o;
  ev_call : o_call o' = o_call o;
  ev_array : o_array o' = o_array o;
  ev_props : ∀ k p, own (o_props o) k = Some p →
             ∃ p', own (o_props o') k = Some p' ∧ same_kind p p';
  ev_index : o_array o = true → ∀ k, index_or_length k = true →
             own (o_props o') k = own (o_props o) k
}.

Definition evolves (h h' : heap) : Prop :=
  ∀ l o, h !! l = Some o → ∃ o', h' !! l = Some o' ∧ obj_evolves o o'.

Lemma same_kind_refl p : same_kind p p.
Proof. unfold same_kind. destruct (p_slot p); auto. Qed.

Lemma same_kind_trans p q r : same_kind p q → same_kind q r → same_kind p r.
Proof.
  unfold same_kind. intros (E1 & C1 & S1) (E2 & C2 & S2).
  repeat split; try congruence.
  destruct (p_slot p), (p_slot q), (p_slot r); try done.
  - destruct S1 as [-> V1], S2 as [-> V2]. split; [done|].
    intros Hw. rewrite V2, V1; auto.
  - destruct S1 as [-> ->], S2 as [-> ->]. done.
Qed.

Lemma obj_evolves_refl o : obj_evolves o o.
Proof.
  split; auto. intros k p H. exists p. split; [done|apply same_kind_refl].
Qed.

Lemma obj_evolves_trans a b c :
  obj_evolves a b → obj_evolves b c → obj_evolves a c.
Proof.
  intros [P1 C1 A1 R1 I1] [P2 C2 A2 R2 I2]. split; try congruence.
  - intros k p H. destruct (R1 k p H) as (p' & H' & K1).
    destruct (R2 k p' H') as (p'' & H'' & K2).
    exists p''. split; [done|]. by eapply same_kind_trans.
  - intros Ha k Hk. rewrite I2; [by apply I1|congruence|done].
Qed.

Lemma evolves_refl h : evolves h h.
Proof. intros l o H. exists o. split; [done|apply obj_evolves_refl]. Qed.

Lemma evolves_trans h1 h2 h3 : evolves h1 h2 → evolves h2 h3 → evolves h1 h3.
Proof.
  intros H12 H23 l o H. destruct (H12 l o H) as (o2 & H2 & E2).
  destruct (H23 l o2 H2) as (o3 & H3 & E3).
  exists o3. split; [done|]. by eapply obj_evolves_trans.
Qed.

Lemma evolves_app h t : evolves h (h ++ t).
Proof.
  intros l o H. exists o. split; [|apply obj_evolves_refl].
  by apply lookup_app_l_Some.
Qed.

(** Writing a value into a writable slot, or adding a property that is
    not an index of an array, is such a step. *)
Lemma evolves_write h l k p o :
  h !! l = Some o →
  (∀ q, own (o_props o) k = Some q → same_kind q p) →
  (o_array o = true → index_or_length k = false) →
  evolves h (write_prop h l k p).
Proof.
  intros Hl Hq Ha l' o' H'. destruct (decide (l = l')) as [E|Hne].
  - subst l'. rewrite Hl in H'. injection H' as <-.
    eexists. split; [by apply write_prop_lookup|].
    split; simpl; auto.
    + intros k' q Hk'. destruct (decide (k = k')) as [<-|Hk].
      * exists p. rewrite own_put_eq. auto.
      * exists q. rewrite own_put_ne by done. split; [done|apply same_kind_refl].
    + intros Harr k' Hk'. apply own_put_ne. intros ->.
      rewrite Ha in Hk'; done.
  - exists o'. split; [|apply obj_evolves_refl].
    by rewrite write_prop_lookup_ne.
Qed.

Definition preserves {A} (m : M A) : Prop :=
  ∀ h, match m h with
       | Ret _ h' | Throw _ h' => evolves h h'
       | Abort _ => True
       end.

Lemma preserves_ret {A} (a : A) : preserves (ret a).
Proof. intros h. apply evolves_refl. Qed.

Lemma preserves_throw {A} e : preserves (@throw A e).
Proof. intros h. apply evolves_refl. Qed.

Lemma preserves_abort {A} r : preserves (@abort A r).
Proof. by intros h. Qed.

Lemma preserves_bind {A B} (m : M A) (k : A → M B) :
  preserves m → (∀ a, preserves (k a)) → preserves (bind m k).
Proof.
  intros Hm Hk h. unfold bind. specialize (Hm h).
  destruct (m h) as [a h'| |]; [|done..].
  specialize (Hk a h'). destruct (k a h'); [..|done]; by eapply evolves_trans.
Qed.

Lemma preserves_finally {A} (m : M A) c :
  preserves m → preserves c → preserves (finally m c).
Proof.
  intros Hm Hc h. unfold finally. specialize (Hm h).
  destruct (m h) as [a h'|e h'|]; [| |done];
    specialize (Hc h'); destruct (c h'); [..|done| | |done];
    by eapply evolves_trans.
Qed.

Lemma preserves_catch {A} (m c : M A) :
  preserves m → preserves c → preserves (catch m c).
Proof.
  intros Hm Hc h. unfold catch. specialize (Hm h).
  destruct (m h) as [a h'|e h'|]; [done| |done].
  specialize (Hc h'). destruct (c h'); [..|done]; by eapply evolves_trans.
Qed.

Lemma preserves_alloc o : preserves (alloc o).
Proof. intros h. apply evolves_app. Qed.

Lemma preserves_pure {A} (m : M A) :
  (∀ h, match m h with
        | Ret _ h' | Throw _ h' => h' = h
        | Abort _ => True
        end) → preserves m.
Proof.
  intros H h. specialize (H h).
  destruct (m h); [subst; apply evolves_refl..|done].
Qed.

Lemma preserves_native n this args : preserves (native_call n this args).
Proof.
  destruct n; simpl.
  - destruct (nth 0 args VUndef);
      first [apply preserves_abort | apply preserves_ret
            | apply preserves_bind; [apply preserves_alloc|intros; apply preserves_ret]].
  - apply preserves_pure. intros h. destruct this; try done.
    destruct (h !! l); [|done]. destruct (o_array o); [done|].
    by destruct (o_call o).
  - destruct this; first [apply preserves_abort | apply preserves_ret | apply preserves_throw].
  - destruct (nth 0 args VUndef); try apply preserves_abort.
    apply preserves_bind; [|intros; apply preserves_ret].
    apply preserves_pure. intros h. unfold hasOwnProperty.
    destruct this; try done. by destruct (h !! l).
  - apply preserves_pure. intros h.
    destruct (nth 0 args VUndef); try done; by destruct this.
  - apply preserves_pure. intros h.
    destruct (nth 0 args VUndef); try done. destruct this; try done.
    by destruct (h !! l).
  - apply preserves_abort.
Qed.

Section CodePreserves.

Variable call : value → value → list value → M value.
Hypothesis call_preserves : ∀ f this args, preserves (call f this args).

Lemma preserves_get o k : preserves (js_get call o k).
Proof.
  intros h. unfold js_get. destruct o; try done; try apply evolves_refl.
  destruct (h !! l); [|done].
  destruct (lookup_prop h l k) as [p|]; [|apply evolves_refl].
  destruct (p_slot p) as [v w|g s]; [apply evolves_refl|].
  destruct g; try apply evolves_refl; apply call_preserves.
Qed.

Lemma preserves_set o k v : preserves (js_set call o k v).
Proof.
  intros h. unfold js_set. destruct o; try done; try apply evolves_refl.
  destruct (h !! l) as [ob|] eqn:Hl; [|done].
  destruct (o_array ob && index_or_length k) eqn:Harr; [done|].
  assert (Hw : (∀ q', own (o_props ob) k = Some q' →
                      ∃ v', p_slot q' = Data v' true) →
            match
              match own (o_props ob) k with
              | Some p => Ret tt (write_prop h l k
                                    (Prop_ (Data v true) (p_enum p) (p_conf p)))
              | None => Ret tt (write_prop h l k (plain v))
              end
            with
            | Ret _ h' | Throw _ h' => evolves h h'
            | Abort _ => True
            end).
  { intros Hq.
    destruct (own (o_props ob) k) as [p|] eqn:Hown.
    - eapply evolves_write; [done| |].
      + intros q' Hq'. rewrite Hown in Hq'. injection Hq' as <-.
        destruct (Hq p eq_refl) as [v' Hv'].
        unfold same_kind. simpl. rewrite Hv'. repeat split; done.
      + intros Ha. rewrite Ha in Harr. done.
    - eapply evolves_write; [done| |].
      + intros q' Hq'. rewrite Hq' in Hown. done.
      + intros Ha. rewrite Ha in Harr. done. }
  destruct (lookup_prop h l k) as [[sl e c]|] eqn:Hlk.
  - destruct sl as [v0 [|]|g s].
    + apply Hw.
      intros q' Hq'. erewrite lookup_prop_own in Hlk by done.
      injection Hlk as ->. by eexists.
    + apply evolves_refl.
    + assert (preserves (call s (VRef l) [v];;; ret tt)) as Hp.
      { apply preserves_bind; [apply call_preserves|intros; apply preserves_ret]. }
      destruct s; try apply evolves_refl; apply Hp.
  - apply Hw.
    intros q' Hq'. erewrite lookup_prop_own in Hlk by done. done.
Qed.

Lemma preserves_add a b : preserves (add a b).
Proof.
  destruct a, b; first [apply preserves_abort | apply preserves_ret].
Qed.

Lemma preserves_eval this args e : preserves (eval call this args e).
Proof.
  revert e.
  apply (expr_mut_ind
           (fun e => preserves (eval call this args e))
           (fun es => preserves (evals call this args es))); simpl; intros.
  - apply preserves_ret.
  - apply preserves_ret.
  - apply preserves_ret.
  - apply preserves_ret.
  - apply preserves_bind; [done|]. intros. apply preserves_get.
  - apply preserves_bind; [done|]. intros.
    apply preserves_bind; [apply preserves_get|]. intros.
    apply preserves_bind; [done|]. intros. apply call_preserves.
  - apply preserves_bind; [done|]. intros.
    apply preserves_bind; [done|]. intros. apply preserves_add.
  - apply preserves_ret.
  - apply preserves_bind; [done|]. intros.
    apply preserves_bind; [done|]. intros. apply preserves_ret.
Qed.

Lemma preserves_exec this args s : preserves (exec call this args s).
Proof.
  induction s; simpl.
  - apply preserves_ret.
  - apply preserves_bind; [apply preserves_eval|]. intros. apply preserves_ret.
  - apply preserves_bind; [apply preserves_eval|]. intros.
    apply preserves_bind; [apply preserves_eval|]. intros.
    apply preserves_bind; [apply preserves_set|]. intros. apply preserves_ret.
  - apply preserves_bind; [done|]. intros [v|]; [apply preserves_ret|done].
  - apply preserves_bind; [apply preserves_eval|]. intros. apply preserves_ret.
  - apply preserves_bind; [apply preserves_eval|]. intros. apply preserves_throw.
  - by apply preserves_catch.
Qed.

Lemma preserves_user_function body this args :
  preserves (user_function call body this args).
Proof.
  apply preserves_bind; [apply preserves_exec|]. intros. apply preserves_ret.
Qed.

Lemma preserves_super_wrapper method signature base this args :
  preserves (super_wrapper call method signature base this args).
Proof.
  unfold super_wrapper.
  apply preserves_bind; [apply preserves_get|]. intros tmp.
  apply preserves_bind; [apply preserves_get|]. intros proto.
  apply preserves_bind; [apply preserves_get|]. intros m.
  apply preserves_bind; [apply preserves_set|]. intros _.
  apply preserves_finally; [apply call_preserves|apply preserves_set].
Qed.

Lemma preserves_call_includes n i includes this :
  preserves (call_includes call n i includes this).
Proof.
  revert i. induction n; intros i; simpl; [apply preserves_ret|].
  apply preserves_bind; [apply preserves_get|]. intros f.
  apply preserves_bind; [apply call_preserves|]. intros _. apply IHn.
Qed.

Lemma preserves_Class_constructor initialize includes this args :
  preserves (Class_constructor call initialize includes this args).
Proof.
  unfold Class_constructor.
  apply preserves_bind.
  - assert (preserves (l <- js_get call includes LENGTH;;
                       n <- loop_bound l;; call_includes call n 0 includes this)).
    { apply preserves_bind; [apply preserves_get|]. intros l.
      apply preserves_bind; [|intros; apply preserves_call_includes].
      destruct l; first [apply preserves_ret | apply preserves_abort]. }
    destruct includes; first [done | apply preserves_ret].
  - intros _. apply preserves_bind; [|intros; apply preserves_ret].
    assert (preserves (call initialize this (slice args);;; ret tt)).
    { apply preserves_bind; [apply call_preserves|intros; apply preserves_ret]. }
    destruct initialize; first [done | apply preserves_ret].
Qed.

End CodePreserves.

(** Whatever a function does, the objects that existed before the call
    evolve: none disappears, none changes its prototype, its code or a
    read-only property, and no array changes its elements. *)
Lemma call_preserves fuel : ∀ f this args, preserves (call fuel f this args).
Proof.
  induction fuel as [|n IH]; intros f this args; simpl.
  - apply preserves_abort.
  - intros h. destruct f; try apply evolves_refl.
    destruct (h !! l) as [o|]; [|done].
    destruct (o_call o) as [[body|nf| |m s b|ini inc]|]; [..|apply evolves_refl].
    + by apply preserves_user_function.
    + apply preserves_native.
    + apply evolves_refl.
    + by apply preserves_super_wrapper.
    + by apply preserves_Class_constructor.
Qed.

(** ** Plain reads and writes *)

(** The value of [o[k]] when the lookup runs no code: the property is a
    data property, or there is none. *)
Definition read (h : heap) (o : value) (k : string) : option value :=
  match o with
  | VRef l =>
      match h !! l with
      | Some _ =>
          match lookup_prop h l k with
          | None => Some VUndef
          | Some p => match p_slot p with
                      | Data v _ => Some v
                      | Accessor _ _ => None
                      end
          end
      | None => None
      end
  | _ => None
  end.

(** [o[k] = v] is a plain write: no setter, no read-only property. *)
Definition assignable (h : heap) (l : loc) (k : string) : bool :=
  match h !! l with
  | Some o =>
      negb (o_array o && index_or_length k) &&
      match lookup_prop h l k with
      | None => true
      | Some p => match p_slot p with Data _ w => w | Accessor _ _ => false end
      end
  | None => false
  end.

Lemma js_get_read call h o k v :
  read h o k = Some v → js_get call o k h = Ret v h.
Proof.
  unfold read, js_get. destruct o; try done.
  destruct (h !! l); [|done].
  destruct (lookup_prop h l k) as [p|]; [|by intros [= ->]].
  destruct (p_slot p); [by intros [= ->]|done].
Qed.

Lemma js_set_assignable call h l k v :
  assignable h l k = true →
  ∃ e c, js_set call (VRef l) k v h
         = Ret tt (write_prop h l k (Prop_ (Data v true) e c)).
Proof.
  unfold assignable, js_set. destruct (h !! l) as [o|] eqn:Hl; [|done].
  destruct (o_array o && index_or_length k); [done|]. simpl.
  destruct (lookup_prop h l k) as [[[v0 w|g s] e c]|] eqn:Hlk; simpl;
    [intros ->| done |intros _];
    (destruct (own (o_props o) k) as [p|]; [by exists (p_enum p), (p_conf p)|by exists true, true]).
Qed.

Lemma read_assignable h l k :
  assignable h l k = true → ∃ tmp, read h (VRef l) k = Some tmp.
Proof.
  unfold assignable, read. destruct (h !! l); [|done].
  intros [_ H]%andb_prop. destruct (lookup_prop h l k) as [p|]; [|by eexists].
  destruct (p_slot p); [by eexists|done].
Qed.

Lemma read_own h l k o p v w :
  h !! l = Some o → own (o_props o) k = Some p → p_slot p = Data v w →
  read h (VRef l) k = Some v.
Proof.
  intros Hl Ho Hp. unfold read. rewrite Hl.
  erewrite lookup_prop_own by done. by rewrite Hp.
Qed.

Lemma assignable_own h l k o p v :
  h !! l = Some o → own (o_props o) k = Some p → p_slot p = Data v true →
  index_or_length k = false →
  assignable h l k = true.
Proof.
  intros Hl Ho Hp Hk. unfold assignable. rewrite Hl, Hk, andb_false_r. simpl.
  erewrite lookup_prop_own by done. by rewrite Hp.
Qed.

Lemma read_write_prop h l k v w e c :
  is_Some (h !! l) →
  read (write_prop h l k (Prop_ (Data v w) e c)) (VRef l) k = Some v.
Proof.
  intros [o Hl]. eapply read_own.
  - by apply write_prop_lookup.
  - simpl. apply own_put_eq.
  - done.
Qed.

(** A wrapped method, run on an object whose [super] slot is an ordinary
    one: the handle is saved, rebound to [base.prototype[signature] ||
    noSuper] while the body runs, and has its saved value again on both
    exits of the body. *)
Lemma super_wrapper_run call method signature base t args h proto m :
  assignable h t SUPER = true →
  read h base PROTOTYPE = Some proto →
  read h proto signature = Some m →
  ∃ tmp e c,
    read h (VRef t) SUPER = Some tmp ∧
    super_wrapper call method signature base (VRef t) args h =
    finally (call method (VRef t) (slice args))
            (js_set call (VRef t) SUPER tmp)
            (write_prop h t SUPER
               (Prop_ (Data (if truthy m then m else VRef noSuper_) true) e c)).
Proof.
  intros Ha Hp Hm. destruct (read_assignable _ _ _ Ha) as [tmp Htmp].
  destruct (js_set_assignable call h t SUPER
              (if truthy m then m else VRef noSuper_) Ha) as (e & c & Hset).
  exists tmp, e, c. split; [done|].
  unfold super_wrapper, bind.
  rewrite (js_get_read _ _ _ _ _ Htmp), (js_get_read _ _ _ _ _ Hp),
    (js_get_read _ _ _ _ _ Hm), Hset. done.
Qed.

Lemma restore_after call t tmp h1 hb v e c :
  is_Some (h1 !! t) →
  own_prop h1 t SUPER = Some (Prop_ (Data v true) e c) →
  evolves h1 hb →
  ∃ h', js_set call (VRef t) SUPER tmp hb = Ret tt h' ∧
        read h' (VRef t) SUPER = Some tmp.
Proof.
  intros [o Hl] Hown Hev. unfold own_prop in Hown. rewrite Hl in Hown.
  destruct (Hev t o Hl) as (o' & Hl' & Ho').
  destruct (ev_props _ _ Ho' _ _ Hown) as (p' & Hown' & _ & _ & Hk).
  simpl in Hk. destruct (p_slot p') as [v' w'|] eqn:Hs; [|done].
  destruct Hk as [-> _].
  destruct (js_set_assignable call hb t SUPER tmp) as (e' & c' & Hset).
  { eapply assignable_own; done. }
  eexists. split; [done|]. apply read_write_prop. by eexists.
Qed.

Definition closure (h : heap) (l : loc) : option func :=
  match h !! l with
  | Some o => o_call o
  | None => None
  end.

Lemma call_wrapped fuel w method signature base this args h :
  closure h w = Some (FWrapped method signature base) →
  call (S fuel) (VRef w) this args h
  = super_wrapper (call fuel) method signature base this args h.
Proof.
  unfold closure. simpl. destruct (h !! w) as [o|]; [|done]. by intros ->.
Qed.

Lemma call_Class fuel cl initialize includes this args h :
  closure h cl = Some (FClass initialize includes) →
  call (S fuel) (VRef cl) this args h
  = Class_constructor (call fuel) initialize includes this args h.
Proof.
  unfold closure. simpl. destruct (h !! cl) as [o|]; [|done]. by intros ->.
Qed.

Lemma closure_evolves h h' l f :
  evolves h h' → closure h l = Some f → closure h' l = Some f.
Proof.
  unfold closure. intros Hev. destruct (h !! l) as [o|] eqn:Hl; [|done].
  destruct (Hev l o Hl) as (o' & -> & Ho'). intros <-. apply Ho'.
Qed.

(** ** Ordinary heaps *)

Definition is_data (p : prop) : bool :=
  match p_slot p with Data _ _ => true | Accessor _ _ => false end.

Definition ref_below (n : nat) (p : prop) : bool :=
  match p_slot p with
  | Data (VRef l) _ => Nat.ltb l n
  | _ => true
  end.

Fixpoint protos_below (i : nat) (h : list obj) : bool :=
  match h with
  | [] => true
  | o :: r =>
      match o_proto o with Some l => Nat.ltb l i | None => true end
      && protos_below (S i) r
  end.

(** A heap as allocation builds it when no accessor is ever defined:
    every prototype link points to an older object, every property is a
    data property, and no property holds a dangling reference. *)
Definition ordinary (h : heap) : bool :=
  protos_below 0 h &&
  forallb (fun o => forallb (fun kp => is_data (snd kp) && ref_below (length h) (snd kp))
                            (o_props o)) h.

Definition wf_heap (h : heap) : Prop :=
  ∀ l o l', h !! l = Some o → o_proto o = Some l' → l' < l.

Definition data_heap (h : heap) : Prop :=
  ∀ l o k p, h !! l = Some o → own (o_props o) k = Some p → is_data p = true.

Definition refs_valid (h : heap) : Prop :=
  ∀ l o k v w e c, h !! l = Some o →
    own (o_props o) k = Some (Prop_ (Data (VRef v) w) e c) → v < length h.

Lemma own_In ps k p : own ps k = Some p → In (k, p) ps.
Proof.
  induction ps as [|[k' p'] r IH]; simpl; [done|].
  destruct (String.eqb k' k) eqn:E.
  - apply String.eqb_eq in E. intros [= ->]. left. by subst.
  - intros H. right. auto.
Qed.

Lemma protos_below_lookup i h l o l' :
  protos_below i h = true → h !! l = Some o → o_proto o = Some l' → l' < i + l.
Proof.
  revert i l. induction h as [|o0 r IH]; intros i l; simpl; [done|].
  intros [H1 H2]%andb_prop. destruct l as [|l]; simpl.
  - intros [= ->] Hp. rewrite Hp in H1. apply Nat.ltb_lt in H1. lia.
  - intros Hl Hp. specialize (IH (S i) l H2 Hl Hp). lia.
Qed.

Lemma ordinary_wf h : ordinary h = true → wf_heap h.
Proof.
  intros [H _]%andb_prop l o l' Hl Hp.
  by apply (protos_below_lookup 0 h l o l').
Qed.

Lemma ordinary_data h : ordinary h = true → data_heap h.
Proof.
  intros [_ H]%andb_prop l o k p Hl Ho.
  rewrite forallb_forall in H.
  assert (In o h) as Hin by (apply list_elem_of_In, list_elem_of_lookup; eauto).
  specialize (H o Hin). rewrite forallb_forall in H.
  specialize (H _ (own_In _ _ _ Ho)). simpl in H.
  by apply andb_prop in H as [H _].
Qed.

Lemma ordinary_refs h : ordinary h = true → refs_valid h.
Proof.
  intros [_ H]%andb_prop l o k v w e c Hl Ho.
  rewrite forallb_forall in H.
  assert (In o h) as Hin by (apply list_elem_of_In, list_elem_of_lookup; eauto).
  specialize (H o Hin). rewrite forallb_forall in H.
  specialize (H _ (own_In _ _ _ Ho)). simpl in H.
  unfold ref_below in H. simpl in H. by apply Nat.ltb_lt.
Qed.

(** ** Lookups in a heap that has grown *)

Lemma find_prop_app n h t l k :
  wf_heap h → l < length h → l < n →
  find_prop n (h ++ t) l k = find_prop (S l) h l k.
Proof.
  intros Hwf. revert t n. induction l as [l IH] using lt_wf_ind.
  intros t n Hl Hn. destruct n as [|n]; [lia|]. simpl.
  destruct (lookup_lt_is_Some_2 h l Hl) as [o Ho].
  rewrite (lookup_app_l_Some _ _ _ _ Ho), Ho.
  destruct (own (o_props o) k); [done|].
  destruct (o_proto o) as [l'|] eqn:Hp; [|done].
  pose proof (Hwf _ _ _ Ho Hp) as Hlt.
  rewrite (IH l' Hlt t n) by lia.
  destruct l as [|l]; [lia|].
  symmetry. rewrite <- (app_nil_r h) at 1. apply IH; lia.
Qed.

Lemma lookup_prop_app h t l k :
  wf_heap h → l < length h →
  lookup_prop (h ++ t) l k = lookup_prop h l k.
Proof.
  intros Hwf Hl. unfold lookup_prop.
  rewrite (find_prop_app _ h t) by (rewrite ?length_app; done || lia).
  rewrite <- (app_nil_r h) at 3. symmetry. by apply find_prop_app.
Qed.

Lemma read_app h t l k :
  wf_heap h → l < length h →
  read (h ++ t) (VRef l) k = read h (VRef l) k.
Proof.
  intros Hwf Hl. unfold read.
  destruct (lookup_lt_is_Some_2 h l Hl) as [o Ho].
  by rewrite (lookup_app_l_Some _ _ _ _ Ho), Ho, lookup_prop_app.
Qed.

Lemma forin_chain_app n h t l seen :
  wf_heap h → l < length h → l < n →
  forin_chain n (h ++ t) l seen = forin_chain (S l) h l seen.
Proof.
  intros Hwf. revert t n seen. induction l as [l IH] using lt_wf_ind.
  intros t n seen Hl Hn. destruct n as [|n]; [lia|]. simpl.
  destruct (lookup_lt_is_Some_2 h l Hl) as [o Ho].
  rewrite (lookup_app_l_Some _ _ _ _ Ho), Ho.
  destruct (o_proto o) as [l'|] eqn:Hp; [|done].
  pose proof (Hwf _ _ _ Ho Hp) as Hlt.
  rewrite (IH l' Hlt t n) by lia.
  destruct l as [|l]; [lia|].
  f_equal. symmetry. rewrite <- (app_nil_r h) at 1. apply IH; lia.
Qed.

Lemma forin_keys_app h t l :
  wf_heap h → l < length h → forin_keys (h ++ t) l = forin_keys h l.
Proof.
  intros Hwf Hl. unfold forin_keys.
  rewrite (forin_chain_app _ h t) by (rewrite ?length_app; done || lia).
  rewrite <- (app_nil_r h) at 3. symmetry. by apply forin_chain_app.
Qed.

Lemma find_prop_Some n h l k p :
  find_prop n h l k = Some p →
  ∃ l' o, h !! l' = Some o ∧ own (o_props o) k = Some p.
Proof.
  revert l. induction n as [|n IH]; intros l; simpl; [done|].
  destruct (h !! l) as [o|] eqn:Ho; [|done].
  destruct (own (o_props o) k) as [q|] eqn:Hq.
  - intros [= ->]. eauto.
  - destruct (o_proto o); [apply IH|done].
Qed.

Lemma read_data h l k :
  data_heap h → is_Some (h !! l) → is_Some (read h (VRef l) k).
Proof.
  intros Hd [o Ho]. unfold read. rewrite Ho.
  destruct (lookup_prop h l k) as [p|] eqn:Hp; [|by eexists].
  apply find_prop_Some in Hp as (l' & o' & Hl' & Hown).
  specialize (Hd _ _ _ _ Hl' Hown). unfold is_data in Hd.
  destruct (p_slot p); [by eexists|done].
Qed.

Lemma js_get_data call h l k :
  data_heap h → is_Some (h !! l) →
  ∃ v, read h (VRef l) k = Some v ∧ js_get call (VRef l) k h = Ret v h.
Proof.
  intros Hd Hl. destruct (read_data h l k Hd Hl) as [v Hv].
  exists v. split; [done|]. by apply js_get_read.
Qed.

(** ** The names of [for-in] *)

Lemma mem_In k l : mem k l = true ↔ In k l.
Proof.
  induction l as [|k' r IH]; simpl; [done|].
  destruct (String.eqb k' k) eqn:E.
  - apply String.eqb_eq in E. tauto.
  - apply String.eqb_neq in E. rewrite IH. split; [tauto|].
    intros [?|?]; [done|tauto].
Qed.

Lemma dedup_In k l seen : In k (dedup l seen) ↔ In k l ∧ ¬ In k seen.
Proof.
  revert seen. induction l as [|k' r IH]; intros seen; simpl; [tauto|].
  destruct (mem k' seen) eqn:E.
  - rewrite IH. apply mem_In in E. split; [tauto|].
    intros [[->|?] ?]; tauto.
  - assert (¬ In k' seen) as Hn by (rewrite <- mem_In, E; done).
    simpl. rewrite IH. simpl. split.
    + intros [->|[? ?]]; tauto.
    + intros [[->|?] ?]; [tauto|].
      destruct (decide (k' = k)); tauto.
Qed.

Lemma insert_index_In x y l : In x (insert_index y l) ↔ x = y ∨ In x l.
Proof.
  induction l as [|z r IH]; simpl; [by split; intros [?|?]; auto|].
  destruct (N.leb (fst y) (fst z)); simpl; [by split; intros [?|?]; auto|].
  rewrite IH. split; intros H; tauto.
Qed.

Lemma own_keys_In o k : In k (own_keys o) ↔ In k (map fst (o_props o)).
Proof.
  unfold own_keys. rewrite in_app_iff, filter_In.
  set (ks := dedup (map fst (o_props o)) []).
  assert (In k ks ↔ In k (map fst (o_props o))) as Hks.
  { unfold ks. rewrite dedup_In. simpl. tauto. }
  rewrite <- Hks. clearbody ks. clear Hks.
  assert (∀ n, In (n, k)
             (fold_right
                (fun k acc => match array_index k with
                              | Some n => insert_index (n, k) acc
                              | None => acc
                              end) [] ks)
             ↔ In k ks ∧ array_index k = Some n) as Hidx.
  { intros n. induction ks as [|k' r IH]; simpl; [tauto|].
    destruct (array_index k') as [n'|] eqn:E.
    - rewrite insert_index_In, IH. split.
      + intros [[= -> ->]|[? ?]]; tauto.
      + intros [[->|?] ?]; [left; congruence|tauto].
    - rewrite IH. split; [tauto|]. intros [[->|?] ?]; [congruence|tauto]. }
  rewrite in_map_iff. split.
  - intros [([n k'] & <- & Hin)|[Hin _]]; [|done]. simpl.
    by apply Hidx in Hin as [? _].
  - intros Hin. destruct (array_index k) as [n|] eqn:E.
    + left. exists (n, k). split; [done|]. by apply Hidx.
    + right. done.
Qed.

Lemma own_map_fst ps k : In k (map fst ps) ↔ is_Some (own ps k).
Proof.
  induction ps as [|[k' p] r IH]; simpl.
  - split; [done|]. by intros [? ?].
  - destruct (String.eqb k' k) eqn:E.
    + apply String.eqb_eq in E. split; [by eexists|auto].
    + apply String.eqb_neq in E. rewrite <- IH. split; [|auto].
      intros [?|?]; [done|tauto].
Qed.

Lemma own_keys_own o k : In k (own_keys o) ↔ is_Some (own (o_props o) k).
Proof. by rewrite own_keys_In, own_map_fst. Qed.

(** [for-in] visits exactly the names whose first holder along the chain
    makes them enumerable. *)
Lemma forin_chain_spec n h l seen k :
  In k (forin_chain n h l seen) ↔
  ¬ In k seen ∧ ∃ d, find_prop n h l k = Some d ∧ p_enum d = true.
Proof.
  revert l seen. induction n as [|n IH]; intros l seen; simpl.
  - split; [done|]. by intros [_ (d & ? & _)].
  - destruct (h !! l) as [o|] eqn:Ho; [|split; [done|by intros [_ (d & ? & _)]]].
    rewrite in_app_iff, !filter_In, own_keys_own.
    assert (mem k seen = false ↔ ¬ In k seen) as Hm.
    { rewrite <- mem_In. destruct (mem k seen); split; done. }
    rewrite negb_true_iff, Hm. unfold enumerable_own.
    destruct (own (o_props o) k) as [p|] eqn:Hown.
    + split.
      * intros [[[_ Hs] He]|Hin]; [by eauto|].
        exfalso. destruct (o_proto o); [|done].
        apply IH in Hin as [Hin _]. apply Hin, in_app_iff. right.
        apply filter_In. rewrite own_keys_own, Hown, negb_true_iff, Hm.
        split; [by eexists|]. intros ?. apply Hin, in_app_iff. by left.
      * intros [Hs (d & [= <-] & He)]. left. split; [|done].
        split; [by eexists|done].
    + split.
      * intros [[[[? ?] _] _]|Hin]; [done|].
        destruct (o_proto o); [|done].
        apply IH in Hin as [Hin Hd]. split; [|done].
        intros ?. apply Hin, in_app_iff. by left.
      * intros [Hs (d & Hd & He)]. right.
        destruct (o_proto o); [|done]. apply IH. split; [|by eauto].
        rewrite in_app_iff, filter_In, own_keys_own, Hown.
        intros [?|[[? ?] _]]; done.
Qed.

Lemma forin_keys_spec h l k :
  In k (forin_keys h l) ↔ ∃ d, lookup_prop h l k = Some d ∧ p_enum d = true.
Proof.
  unfold forin_keys, lookup_prop. rewrite forin_chain_spec. simpl. tauto.
Qed.

(** ** Observations on a heap under construction *)

Definition set_closure (h : heap) (l : loc) (f : func) : heap :=
  match h !! l with
  | Some o => <[l := set_call o f]> h
  | None => h
  end.

(** The prototype link and the array flag of an object: what no
    operation of the library changes. *)
Definition shape (h : heap) (l : loc) : option (option loc * bool) :=
  match h !! l with
  | Some o => Some (o_proto o, o_array o)
  | None => None
  end.

(** A sequence of property writes on one object. *)
Definition writes (l : loc) (ws : list (string * prop)) (h : heap) : heap :=
  fold_left (fun h kp => write_prop h l (fst kp) (snd kp)) ws h.

Lemma own_prop_write h l k p l' k' :
  own_prop (write_prop h l k p) l' k'
  = if decide (l = l' ∧ k = k' ∧ is_Some (h !! l)) then Some p
    else own_prop h l' k'.
Proof.
  unfold own_prop. destruct (decide (l = l')) as [<-|Hl].
  - destruct (h !! l) as [o|] eqn:Ho.
    + rewrite (write_prop_lookup _ _ _ _ _ Ho). simpl.
      destruct (decide (k = k')) as [<-|Hk].
      * rewrite own_put_eq, decide_True; [done|]. eauto.
      * rewrite own_put_ne, decide_False by tauto. done.
    + unfold write_prop. rewrite Ho, Ho, decide_False; [done|].
      intros (_ & _ & [? ?]). done.
  - rewrite write_prop_lookup_ne, decide_False by tauto. done.
Qed.

Lemma closure_write h l k p l' : closure (write_prop h l k p) l' = closure h l'.
Proof.
  unfold closure. destruct (decide (l = l')) as [<-|Hl].
  - destruct (h !! l) as [o|] eqn:Ho.
    + by rewrite (write_prop_lookup _ _ _ _ _ Ho).
    + unfold write_prop. by rewrite Ho, Ho.
  - by rewrite write_prop_lookup_ne.
Qed.

Lemma shape_write h l k p l' : shape (write_prop h l k p) l' = shape h l'.
Proof.
  unfold shape. destruct (decide (l = l')) as [<-|Hl].
  - destruct (h !! l) as [o|] eqn:Ho.
    + by rewrite (write_prop_lookup _ _ _ _ _ Ho).
    + unfold write_prop. by rewrite Ho, Ho.
  - by rewrite write_prop_lookup_ne.
Qed.

Lemma set_closure_length h l f : length (set_closure h l f) = length h.
Proof.
  unfold set_closure. destruct (h !! l); [|done]. by rewrite length_insert.
Qed.

Lemma set_closure_lookup_ne h l f l' :
  l ≠ l' → set_closure h l f !! l' = h !! l'.
Proof.
  intros H. unfold set_closure. destruct (h !! l); [|done].
  by apply list_lookup_insert_ne.
Qed.

Lemma set_closure_lookup h l f o :
  h !! l = Some o → set_closure h l f !! l = Some (set_call o f).
Proof.
  intros H. unfold set_closure. rewrite H.
  apply list_lookup_insert_eq. by eapply lookup_lt_Some.
Qed.

Lemma own_prop_set_closure h l f l' k :
  own_prop (set_closure h l f) l' k = own_prop h l' k.
Proof.
  unfold own_prop. destruct (decide (l = l')) as [<-|Hl].
  - destruct (h !! l) as [o|] eqn:Ho.
    + by rewrite (set_closure_lookup _ _ _ _ Ho).
    + unfold set_closure. by rewrite Ho, Ho.
  - by rewrite set_closure_lookup_ne.
Qed.

Lemma shape_set_closure h l f l' : shape (set_closure h l f) l' = shape h l'.
Proof.
  unfold shape. destruct (decide (l = l')) as [<-|Hl].
  - destruct (h !! l) as [o|] eqn:Ho.
    + by rewrite (set_closure_lookup _ _ _ _ Ho).
    + unfold set_closure. by rewrite Ho, Ho.
  - by rewrite set_closure_lookup_ne.
Qed.

Lemma closure_set_closure h l f l' :
  closure (set_closure h l f) l'
  = if decide (l = l' ∧ is_Some (h !! l)) then Some f else closure h l'.
Proof.
  unfold closure. destruct (decide (l = l')) as [<-|Hl].
  - destruct (h !! l) as [o|] eqn:Ho.
    + rewrite (set_closure_lookup _ _ _ _ Ho), decide_True; [done|]. eauto.
    + unfold set_closure. rewrite Ho, Ho, decide_False; [done|].
      intros [_ [? ?]]. done.
  - rewrite set_closure_lookup_ne, decide_False by tauto. done.
Qed.

Lemma own_prop_app h t l k : l < length h → own_prop (h ++ t) l k = own_prop h l k.
Proof. intros H. unfold own_prop. by rewrite lookup_app_l. Qed.

Lemma closure_app h t l : l < length h → closure (h ++ t) l = closure h l.
Proof. intros H. unfold closure. by rewrite lookup_app_l. Qed.

Lemma shape_app h t l : l < length h → shape (h ++ t) l = shape h l.
Proof. intros H. unfold shape. by rewrite lookup_app_l. Qed.

Lemma writes_cons l k p r h :
  writes l ((k, p) :: r) h = writes l r (write_prop h l k p).
Proof. done. Qed.

Lemma writes_length l ws h : length (writes l ws h) = length h.
Proof.
  revert h. induction ws as [|[k p] r IH]; intros h; [done|].
  by rewrite writes_cons, IH, write_prop_length.
Qed.

Lemma writes_lookup_ne l ws h l' : l ≠ l' → writes l ws h !! l' = h !! l'.
Proof.
  intros Hl. revert h. induction ws as [|[k p] r IH]; intros h; [done|].
  by rewrite writes_cons, IH, write_prop_lookup_ne.
Qed.

Lemma closure_writes l ws h l' : closure (writes l ws h) l' = closure h l'.
Proof.
  revert h. induction ws as [|[k p] r IH]; intros h; [done|].
  by rewrite writes_cons, IH, closure_write.
Qed.

Lemma shape_writes l ws h l' : shape (writes l ws h) l' = shape h l'.
Proof.
  revert h. induction ws as [|[k p] r IH]; intros h; [done|].
  by rewrite writes_cons, IH, shape_write.
Qed.

Lemma own_prop_writes_other l ws h l' k :
  (l ≠ l' ∨ ¬ In k (map fst ws)) →
  own_prop (writes l ws h) l' k = own_prop h l' k.
Proof.
  revert h. induction ws as [|[k0 p] r IH]; intros h; [done|].
  intros H. simpl in H. rewrite writes_cons, IH by tauto.
  rewrite own_prop_write, decide_False; [done|].
  intros (-> & -> & _). tauto.
Qed.

(** When every write of a name carries the same property [d], that is
    what the object holds for this name in the end. *)
Lemma own_prop_writes_same l ws h k d :
  is_Some (h !! l) → In k (map fst ws) →
  (∀ p, In (k, p) ws → p = d) →
  own_prop (writes l ws h) l k = Some d.
Proof.
  revert h. induction ws as [|[k0 p] r IH]; intros h Hl; [done|].
  intros Hin Hd. simpl in Hin. rewrite writes_cons.
  assert (is_Some (write_prop h l k0 p !! l)) as Hl'.
  { destruct Hl as [o Ho]. eexists. by apply write_prop_lookup. }
  destruct (in_dec string_dec k (map fst r)) as [Hr|Hr].
  - apply IH; [done..|]. intros p' ?. apply Hd. by right.
  - rewrite own_prop_writes_other by tauto.
    destruct Hin as [<-|?]; [|done].
    rewrite own_prop_write, decide_True by done.
    f_equal. apply Hd. by left.
Qed.

(** ** Data heaps stay data heaps *)

Lemma own_put ps k p k' :
  own (put ps k p) k' = if decide (k = k') then Some p else own ps k'.
Proof.
  destruct (decide (k = k')) as [<-|H]; [apply own_put_eq|by apply own_put_ne].
Qed.

Lemma data_heap_write h l k p :
  data_heap h → is_data p = true → data_heap (write_prop h l k p).
Proof.
  intros Hd Hp l' o' k' p' Hl' Ho'. destruct (decide (l = l')) as [<-|Hne].
  - destruct (h !! l) as [o|] eqn:Ho.
    + rewrite (write_prop_lookup _ _ _ _ _ Ho) in Hl'. injection Hl' as <-.
      simpl in Ho'. rewrite own_put in Ho'. case_decide.
      * by injection Ho' as <-.
      * by eapply Hd.
    + unfold write_prop in Hl'. rewrite Ho in Hl'. by eapply Hd.
  - rewrite write_prop_lookup_ne in Hl' by done. by eapply Hd.
Qed.

Lemma data_heap_writes h l ws :
  data_heap h → (∀ k p, In (k, p) ws → is_data p = true) →
  data_heap (writes l ws h).
Proof.
  revert h. induction ws as [|[k p] r IH]; intros h Hd Hws; [done|].
  rewrite writes_cons. apply IH.
  - apply data_heap_write; [done|]. apply (Hws k). by left.
  - intros k' p' ?. apply (Hws k'). by right.
Qed.

Lemma data_heap_set_closure h l f : data_heap h → data_heap (set_closure h l f).
Proof.
  intros Hd l' o' k' p' Hl' Ho'. destruct (decide (l = l')) as [<-|Hne].
  - destruct (h !! l) as [o|] eqn:Ho.
    + rewrite (set_closure_lookup _ _ _ _ Ho) in Hl'. injection Hl' as <-.
      by eapply Hd.
    + unfold set_closure in Hl'. rewrite Ho in Hl'. by eapply Hd.
  - rewrite set_closure_lookup_ne in Hl' by done. by eapply Hd.
Qed.

Lemma data_heap_app h t :
  data_heap h →
  (∀ o k p, In o t → own (o_props o) k = Some p → is_data p = true) →
  data_heap (h ++ t).
Proof.
  intros Hd Ht l o k p Hl Ho. apply lookup_app_Some in Hl as [Hl|[_ Hl]].
  - by eapply Hd.
  - eapply Ht; [|done]. apply list_elem_of_In, list_elem_of_lookup. eauto.
Qed.

Lemma data_function_objects f name l t :
  ∀ o k p, In o [function_object f name l; prototype_object t] →
           own (o_props o) k = Some p → is_data p = true.
Proof.
  intros o k p Hin Hown. apply own_In in Hown.
  destruct Hin as [<-|[<-|[]]]; simpl in Hown;
    repeat (destruct Hown as [[= <- <-]|Hown]; [done|]); done.
Qed.

(** ** Host operations on a heap of data properties *)

Lemma lookup_prop_data h l k p :
  data_heap h → lookup_prop h l k = Some p → is_data p = true.
Proof.
  intros Hd Hp. apply find_prop_Some in Hp as (l' & o' & Hl' & Hown).
  by eapply Hd.
Qed.

Lemma js_set_data call h l o k v :
  data_heap h → h !! l = Some o → o_array o = false →
  js_set call (VRef l) k v h = Throw TypeError h ∨
  ∃ e c, js_set call (VRef l) k v h
         = Ret tt (write_prop h l k (Prop_ (Data v true) e c)).
Proof.
  intros Hd Ho Ha. unfold js_set. rewrite Ho, Ha. simpl.
  destruct (lookup_prop h l k) as [[sl e c]|] eqn:Hp.
  - pose proof (lookup_prop_data _ _ _ _ Hd Hp) as Hdat.
    destruct sl as [v0 [|]|]; [|by left|done].
    right. destruct (own (o_props o) k); by eauto.
  - right. destruct (own (o_props o) k); by eauto.
Qed.

Lemma defineProperty_cases h l o k d :
  h !! l = Some o → o_array o = false →
  defineProperty (VRef l) k d h = Throw TypeError h ∨
  defineProperty (VRef l) k d h = Ret tt (write_prop h l k d) ∧
  (∀ cur, own (o_props o) k = Some cur → compatible cur d = true).
Proof.
  intros Ho Ha. unfold defineProperty. rewrite Ho, Ha. simpl.
  destruct (own (o_props o) k) as [cur|]; [|by right].
  destruct (compatible cur d) eqn:E; [right|by left].
  split; [done|]. by intros ? [= <-].
Qed.

Lemma hasOwnProperty_obj h l o k :
  h !! l = Some o →
  hasOwnProperty (VRef l) k h
  = Ret (match own (o_props o) k with Some _ => true | None => false end) h.
Proof. intros Ho. unfold hasOwnProperty. by rewrite Ho. Qed.

Lemma getOwnPropertyDescriptor_obj h l o k :
  h !! l = Some o →
  getOwnPropertyDescriptor (VRef l) k h = Ret (own (o_props o) k) h.
Proof. intros Ho. unfold getOwnPropertyDescriptor. by rewrite Ho. Qed.

Lemma wrapMethodToHaveSuper_run method signature base h :
  wrapMethodToHaveSuper method signature base h
  = Ret (VRef (length h))
        (h ++ [function_object (FWrapped method signature base) EmptyString
                 (S (length h));
               prototype_object (length h)]).
Proof. done. Qed.

(** ** The class under construction *)

(** [create] works on two fresh objects, the function [cl] and its
    prototype object [P]; everything older is left as it was. *)
Record building (h0 : heap) (cl P : loc) (h : heap) : Prop := {
  bd_old : ∀ l, l < length h0 → h !! l = h0 !! l;
  bd_cl : length h0 ≤ cl;
  bd_P : length h0 ≤ P;
  bd_ne : P ≠ cl;
  bd_class : shape h cl = Some (Some FunctionPrototype, false);
  bd_link : own_prop h cl PROTOTYPE
            = Some (Prop_ (Data (VRef P) true) false false);
  bd_closure : ∃ ini inc, closure h cl = Some (FClass ini inc);
  bd_proto : ∃ pp, shape h P = Some (pp, false);
  bd_data : data_heap h
}.

Lemma shape_Some h l s : shape h l = Some s → l < length h.
Proof.
  unfold shape. destruct (h !! l) eqn:E; [|done]. intros _.
  by eapply lookup_lt_Some.
Qed.

Lemma shape_obj h l pp a :
  shape h l = Some (pp, a) → ∃ o, h !! l = Some o ∧ o_proto o = pp ∧ o_array o = a.
Proof.
  unfold shape. destruct (h !! l) as [o|]; [|done]. intros [= <- <-]. eauto.
Qed.

Lemma building_cl_lt h0 cl P h : building h0 cl P h → cl < length h.
Proof. intros B. eapply shape_Some, B. Qed.

Lemma building_P_lt h0 cl P h : building h0 cl P h → P < length h.
Proof. intros B. destruct (bd_proto _ _ _ _ B) as [pp H]. by eapply shape_Some. Qed.

Lemma building_len h0 cl P h : building h0 cl P h → length h0 ≤ length h.
Proof. intros B. pose proof (building_cl_lt _ _ _ _ B). pose proof (bd_cl _ _ _ _ B). lia. Qed.

Lemma building_app h0 cl P h t :
  building h0 cl P h →
  (∀ o k p, In o t → own (o_props o) k = Some p → is_data p = true) →
  building h0 cl P (h ++ t).
Proof.
  intros B Ht. pose proof (building_cl_lt _ _ _ _ B) as Hc.
  pose proof (building_P_lt _ _ _ _ B) as HP.
  pose proof (building_len _ _ _ _ B) as Hlen.
  destruct B as [Ho Hcl HPl Hne Hs Hk [ini [inc Hcz]] [pp Hp] Hd].
  split; try done.
  - intros l Hl. rewrite lookup_app_l by lia. by apply Ho.
  - by rewrite shape_app.
  - by rewrite own_prop_app.
  - exists ini, inc. by rewrite closure_app.
  - exists pp. by rewrite shape_app.
  - by apply data_heap_app.
Qed.

Lemma building_write h0 cl P h l k p :
  building h0 cl P h → length h0 ≤ l →
  (l = cl → k ≠ PROTOTYPE) → is_data p = true →
  building h0 cl P (write_prop h l k p).
Proof.
  intros [Ho Hcl HPl Hne Hs Hk [ini [inc Hcz]] [pp Hp] Hd] Hl Hkk Hdat.
  split; try done.
  - intros l' Hl'. rewrite write_prop_lookup_ne by lia. by apply Ho.
  - by rewrite shape_write.
  - rewrite own_prop_write, decide_False; [done|].
    intros (El & Ek & _). by apply Hkk.
  - exists ini, inc. by rewrite closure_write.
  - exists pp. by rewrite shape_write.
  - by apply data_heap_write.
Qed.

Lemma building_set_closure h0 cl P h ini inc :
  building h0 cl P h → building h0 cl P (set_closure h cl (FClass ini inc)).
Proof.
  intros [Ho Hcl HPl Hne Hs Hk Hcz [pp Hp] Hd].
  split; try done.
  - intros l' Hl'. rewrite set_closure_lookup_ne by lia. by apply Ho.
  - by rewrite shape_set_closure.
  - by rewrite own_prop_set_closure.
  - exists ini, inc. rewrite closure_set_closure, decide_True; [done|].
    split; [done|]. unfold shape in Hs. destruct (h !! cl); [by eexists|done].
  - exists pp. by rewrite shape_set_closure.
  - by apply data_heap_set_closure.
Qed.

Lemma extends_app (h0 h : heap) :
  (∀ l, l < length h0 → h !! l = h0 !! l) → length h0 ≤ length h →
  ∃ t, h = h0 ++ t.
Proof.
  intros Ho Hlen. exists (drop (length h0) h).
  rewrite <- (take_drop (length h0) h) at 1. f_equal.
  apply list_eq. intros i. destruct (decide (i < length h0)).
  - rewrite lookup_take_lt by done. by apply Ho.
  - rewrite lookup_take_ge by lia. symmetry. apply lookup_ge_None. lia.
Qed.

Lemma building_prefix h0 cl P h : building h0 cl P h → ∃ t, h = h0 ++ t.
Proof.
  intros B. apply extends_app; [apply B|by eapply building_len].
Qed.

Section Old.

(** Objects of the heap [h0] in which [create] was called, seen from
    a later heap. *)
Variables (h0 : heap) (cl P : loc) (h : heap).
Hypothesis wf : wf_heap h0.
Hypothesis B : building h0 cl P h.

Lemma old_read l k : l < length h0 → read h (VRef l) k = read h0 (VRef l) k.
Proof.
  intros Hl. destruct (building_prefix _ _ _ _ B) as [t ->].
  by apply read_app.
Qed.

Lemma old_lookup_prop l k :
  l < length h0 → lookup_prop h l k = lookup_prop h0 l k.
Proof.
  intros Hl. destruct (building_prefix _ _ _ _ B) as [t ->].
  by apply lookup_prop_app.
Qed.

Lemma old_forin_keys l : l < length h0 → forin_keys h l = forin_keys h0 l.
Proof.
  intros Hl. destruct (building_prefix _ _ _ _ B) as [t ->].
  by apply forin_keys_app.
Qed.

Lemma old_obj l o : h0 !! l = Some o → h !! l = Some o.
Proof.
  intros Ho. rewrite (bd_old _ _ _ _ B); [done|]. by eapply lookup_lt_Some.
Qed.

Lemma old_is_callable v :
  (∀ l, v = VRef l → l < length h0) → is_callable h v = is_callable h0 v.
Proof.
  intros Hv. destruct v; try done. simpl.
  by rewrite (bd_old _ _ _ _ B) by auto.
Qed.

Lemma class_prototype call :
  js_get call (VRef cl) PROTOTYPE h = Ret (VRef P) h.
Proof.
  apply js_get_read. pose proof (bd_link _ _ _ _ B) as Hk.
  unfold own_prop in Hk. destruct (h !! cl) as [o|] eqn:Ho; [|done].
  by eapply read_own.
Qed.

End Old.

Lemma read_value_valid h l k v :
  refs_valid h → read h (VRef l) k = Some (VRef v) → v < length h.
Proof.
  intros Hr. unfold read. destruct (h !! l); [|done].
  destruct (lookup_prop h l k) as [p|] eqn:Hp; [|done].
  apply find_prop_Some in Hp as (l' & o' & Hl' & Hown).
  destruct p as [[v0 w|] e c]; [|done]. simpl. intros [= ->].
  by eapply Hr.
Qed.

Definition wrapper_objects (method : value) (signature : string)
    (base : value) (n : nat) : list obj :=
  [function_object (FWrapped method signature base) EmptyString (S n);
   prototype_object n].

Lemma assign_initialize_run cl v h ini inc :
  closure h cl = Some (FClass ini inc) →
  assign_initialize cl v h = Ret tt (set_closure h cl (FClass v inc)).
Proof.
  unfold closure, assign_initialize, set_closure.
  destruct (h !! cl) as [o|]; [|done]. by intros ->.
Qed.

Lemma assign_includes_run cl v h ini inc :
  closure h cl = Some (FClass ini inc) →
  assign_includes cl v h = Ret tt (set_closure h cl (FClass ini v)).
Proof.
  unfold closure, assign_includes, set_closure.
  destruct (h !! cl) as [o|]; [|done]. by intros ->.
Qed.

(** ** One member of the definition (step 4) *)

Section Define.

Variable call : value → value → list value → M value.
Variables (h0 : heap) (cl P : loc) (base : value) (d : loc) (od : obj).
Hypothesis wf : wf_heap h0.
Hypothesis refs : refs_valid h0.
Hypothesis Hd : h0 !! d = Some od.

Lemma define_cases k h h2 :
  building h0 cl P h →
  define call cl base (VRef d) k h = Ret tt h2 →
  match own (o_props od) k with
  | None => h2 = h
  | Some p =>
      ∃ v w, p_slot p = Data v w ∧
      if String.eqb k INITIALIZE then
        ∃ ini inc, closure h cl = Some (FClass ini inc) ∧
          h2 = set_closure (h ++ wrapper_objects v CONSTRUCTOR base (length h))
                           cl (FClass (VRef (length h)) inc)
      else if String.eqb k EXTEND || String.eqb k INCLUDE then h2 = h
      else if String.eqb k STATIC then
        copyProperties v (VRef cl) false h = Ret tt h2
      else if String.eqb k SUPER then False
      else if is_callable h v then
        ∃ e c, h2 = write_prop (h ++ wrapper_objects v k base (length h)) P k
                      (Prop_ (Data (VRef (length h)) true) e c)
      else h2 = write_prop h P k p
  end.
Proof.
  intros B. pose proof (old_obj _ _ _ _ B _ _ Hd) as Hdh.
  unfold define, bind. rewrite (hasOwnProperty_obj _ _ _ _ Hdh).
  destruct (own (o_props od) k) as [p|] eqn:Hown; [|by intros [= <-]].
  assert (is_data p = true) as Hp by (eapply (bd_data _ _ _ _ B); done).
  unfold is_data in Hp. destruct (p_slot p) as [v w|] eqn:Hs; [|done].
  rewrite (js_get_read call h (VRef d) k v)
    by (eapply read_own; done).
  intros Hrun. exists v, w. split; [done|].
  destruct (String.eqb k INITIALIZE).
  { rewrite wrapMethodToHaveSuper_run in Hrun.
    destruct (bd_closure _ _ _ _ B) as (ini & inc & Hc).
    pose proof (building_cl_lt _ _ _ _ B) as Hlt.
    erewrite assign_initialize_run in Hrun by (rewrite closure_app; done).
    injection Hrun as <-. by exists ini, inc. }
  destruct (String.eqb k EXTEND || String.eqb k INCLUDE);
    [by injection Hrun as <-|].
  destruct (String.eqb k STATIC); [done|].
  destruct (String.eqb k SUPER); [done|].
  unfold typeof_function in Hrun. destruct (is_callable h v).
  - rewrite (class_prototype _ _ _ _ B), wrapMethodToHaveSuper_run in Hrun.
    set (h1 := h ++ _) in *.
    assert (building h0 cl P h1) as B1
      by (apply building_app; [done|apply data_function_objects]).
    destruct (bd_proto _ _ _ _ B1) as [pp Hpp].
    apply shape_obj in Hpp as (oP & HoP & _ & Harr).
    destruct (js_set_data call h1 P oP k (VRef (length h))
                (bd_data _ _ _ _ B1) HoP Harr) as [E|(e & c & E)];
      rewrite E in Hrun; [done|].
    injection Hrun as <-. by exists e, c.
  - rewrite (class_prototype _ _ _ _ B) in Hrun.
    unfold copyProperty, getPropertyDescriptor, bind in Hrun.
    rewrite (getOwnPropertyDescriptor_obj _ _ _ _ Hdh), Hown in Hrun.
    unfold ret in Hrun.
    destruct (bd_proto _ _ _ _ B) as [pp Hpp].
    apply shape_obj in Hpp as (oP & HoP & _ & Harr).
    destruct (defineProperty_cases h P oP k p HoP Harr) as [E|[E _]];
      rewrite E in Hrun; [done|]. by injection Hrun as <-.
Qed.

End Define.

(** ** Copy loops *)

Lemma each_writes (T : loc) (D : string → option prop) (Inv : heap → Prop)
    (f : string → M unit) keys :
  (∀ k h h2, In k keys → Inv h → f k h = Ret tt h2 →
     Inv h2 ∧ match D k with
              | Some d => h2 = write_prop h T k d
              | None => h2 = h
              end) →
  ∀ h h2, Inv h → each f keys h = Ret tt h2 →
    Inv h2 ∧ ∃ ws, h2 = writes T ws h ∧
      (∀ k p, In (k, p) ws → In k keys ∧ D k = Some p) ∧
      (∀ k p, In k keys → D k = Some p → In k (map fst ws)).
Proof.
  induction keys as [|k r IH]; intros Hstep h h2 HI; simpl.
  - intros [= <-]. split; [done|]. exists []. by repeat split.
  - unfold bind. destruct (f k h) as [[] h1| |] eqn:Hf; [|done..].
    intros Hr. destruct (Hstep k h h1) as [HI1 HD]; [by left|done..|].
    destruct (IH (λ k' a b Hk', Hstep k' a b (or_intror Hk')) h1 h2 HI1 Hr)
      as (HI2 & ws & -> & Hws1 & Hws2).
    split; [done|]. destruct (D k) as [d|] eqn:HDk.
    + exists ((k, d) :: ws). subst h1. split; [done|]. split.
      * intros k' p [[= <- <-]|Hin]; [by split; [left|]|].
        destruct (Hws1 _ _ Hin). split; [by right|done].
      * intros k' p [<-|Hin] Hp; [by left|]. right. by eapply Hws2.
    + exists ws. subst h1. split; [done|]. split.
      * intros k' p Hin. destruct (Hws1 _ _ Hin). split; [by right|done].
      * intros k' p [<-|Hin] Hp; [congruence|]. by eapply Hws2.
Qed.

(** The enumerable own properties of an object. *)
Definition enum_own (h : heap) (v : value) (k : string) : option prop :=
  match v with
  | VRef s => match own_prop h s k with
              | Some p => if p_enum p then Some p else None
              | None => None
              end
  | _ => None
  end.

(** The enumerable properties found along the chain of an object. *)
Definition enum_chain (h : heap) (l : loc) (k : string) : option prop :=
  match lookup_prop h l k with
  | Some p => if p_enum p then Some p else None
  | None => None
  end.

Lemma compatible_prototype P d :
  p_enum d = true →
  compatible (Prop_ (Data (VRef P) true) false false) d = false.
Proof.
  intros He. unfold compatible. simpl.
  rewrite bool_decide_eq_false_2; [|by intros <-].
  rewrite He. simpl. by rewrite andb_false_r.
Qed.

Lemma for_in_obj h l o :
  h !! l = Some o → for_in (VRef l) h = Ret (forin_keys h l) h.
Proof. intros Ho. unfold for_in. by rewrite Ho. Qed.

Section Copy.

Variables (h0 : heap) (cl P : loc).
Hypothesis wf : wf_heap h0.

(** [copyProperties(member, Class, false)]: the statics. *)
Lemma copy_statics v h h2 :
  (∀ s, v = VRef s → s < length h0) →
  building h0 cl P h →
  copyProperties v (VRef cl) false h = Ret tt h2 →
  building h0 cl P h2 ∧ ∃ ws, h2 = writes cl ws h ∧
    (∀ k p, In (k, p) ws → enum_own h0 v k = Some p) ∧
    (∀ k p, enum_own h0 v k = Some p → In k (map fst ws)).
Proof.
  intros Hv B Hrun. unfold copyProperties, bind in Hrun.
  destruct v as [| | | | |s]; try done.
  1,2: injection Hrun as <-; (split; [done|]); exists []; by repeat split.
  specialize (Hv s eq_refl).
  destruct (lookup_lt_is_Some_2 h0 s Hv) as [os Hos].
  rewrite (for_in_obj _ _ _ (old_obj _ _ _ _ B _ _ Hos)),
    (old_forin_keys _ _ _ _ wf B) in Hrun by done.
  lazymatch type of Hrun with
  | each ?f _ _ = _ =>
      destruct (each_writes cl (enum_own h0 (VRef s)) (building h0 cl P) f
                  (forin_keys h0 s)) with (h := h) (h2 := h2)
        as (B2 & ws & -> & Hws1 & Hws2); [|done|done|]
  end.
  - clear h h2 B Hrun. intros k h h2 Hk B. unfold bind.
    rewrite (hasOwnProperty_obj _ _ _ _ (old_obj _ _ _ _ B _ _ Hos)).
    apply forin_keys_spec in Hk as (d & Hd & He).
    unfold enum_own, own_prop. rewrite Hos.
    destruct (own (o_props os) k) as [p|] eqn:Hown;
      [|by intros [= <-]].
    rewrite (lookup_prop_own _ _ _ _ _ Hos Hown) in Hd.
    injection Hd as ->. rewrite He.
    unfold copyProperty, getPropertyDescriptor, bind.
    rewrite (getOwnPropertyDescriptor_obj _ _ _ _ (old_obj _ _ _ _ B _ _ Hos)),
      Hown. unfold ret.
    destruct (shape_obj _ _ _ _ (bd_class _ _ _ _ B)) as (oc & Hoc & _ & Ha).
    destruct (defineProperty_cases h cl oc k d Hoc Ha) as [->|[-> Hc]];
      [done|]. intros [= <-]. split; [|done].
    apply building_write; [done|apply B| |].
    2: { eapply (bd_data _ _ _ _ B); [|done]. by eapply old_obj. }
    intros _ ->. pose proof (bd_link _ _ _ _ B) as Hl.
    unfold own_prop in Hl. rewrite Hoc in Hl.
    specialize (Hc _ Hl). by rewrite compatible_prototype in Hc.
  - split; [done|]. exists ws. split; [done|]. split.
    + intros k p Hin. by destruct (Hws1 _ _ Hin).
    + intros k p Hp. eapply Hws2; [|done].
      apply forin_keys_spec. unfold enum_own, own_prop in Hp.
      rewrite Hos in Hp. destruct (own (o_props os) k) as [q|] eqn:Hown; [|done].
      destruct (p_enum q) eqn:He; [|done]. injection Hp as ->.
      exists p. split; [|done]. by eapply lookup_prop_own.
Qed.

Lemma find_prop_mono n h l k d :
  find_prop n h l k = Some d → find_prop (S n) h l k = Some d.
Proof.
  revert l. induction n as [|n IH]; intros l; [done|].
  intros H. simpl in *. destruct (h !! l) as [o|]; [|done].
  destruct (own (o_props o) k); [done|].
  destruct (o_proto o); [|done]. by apply IH.
Qed.

Lemma climb_find n h l o k d :
  h !! l = Some o → own (o_props o) k = None →
  find_prop (S n) h l k = Some d →
  climb n (VRef l) k h = Ret (Some d) h.
Proof.
  revert l o. induction n as [|n IH]; intros l o Ho Hown; simpl;
    rewrite Ho, Hown.
  - by destruct (o_proto o).
  - destruct (o_proto o) as [l'|] eqn:Hp; [|done].
    unfold bind, getPrototypeOf. rewrite Ho, Hp.
    unfold getOwnPropertyDescriptor.
    destruct (h !! l') as [o'|] eqn:Ho'; [|done].
    destruct (own (o_props o') k) as [d'|] eqn:Hown'; [by intros [= ->]|].
    intros Hf. eapply IH; [done..|]. simpl. by rewrite Ho', Hown'.
Qed.

(** [copyProperties(include, Class.prototype, true)], for the
    unconstructed instance [inst] of a class whose prototype is the
    old object [mp]. *)
Lemma copy_mixin inst mp h h2 :
  mp < length h0 →
  building h0 cl P h →
  h !! inst = Some (Obj (Some mp) [] None false) →
  inst ≠ P → inst ≠ cl →
  copyProperties (VRef inst) (VRef P) true h = Ret tt h2 →
  building h0 cl P h2 ∧ ∃ ws, h2 = writes P ws h ∧
    (∀ k p, In (k, p) ws → enum_chain h0 mp k = Some p) ∧
    (∀ k p, enum_chain h0 mp k = Some p → In k (map fst ws)).
Proof.
  intros Hmp B Hi HiP Hic Hrun. unfold copyProperties, bind in Hrun.
  rewrite (for_in_obj _ _ _ Hi) in Hrun.
  assert (forin_keys h inst = forin_keys h0 mp) as E.
  { unfold forin_keys. pose proof (lookup_lt_Some _ _ _ Hi) as Hlt.
    pose proof (building_cl_lt _ _ _ _ B). pose proof (building_P_lt _ _ _ _ B).
    pose proof (bd_cl _ _ _ _ B). pose proof (bd_P _ _ _ _ B).
    pose proof (bd_ne _ _ _ _ B).
    destruct (length h) as [|n] eqn:En; [lia|]. simpl. rewrite Hi. simpl.
    destruct (building_prefix _ _ _ _ B) as [t ->].
    rewrite length_app in En.
    rewrite (forin_chain_app n h0 t) by (done || lia).
    rewrite <- (app_nil_r h0) at 3. symmetry. by apply forin_chain_app. }
  rewrite E in Hrun. clear E.
  lazymatch type of Hrun with
  | each ?f _ _ = _ =>
      destruct (each_writes P (enum_chain h0 mp)
              (λ h, building h0 cl P h ∧
                    h !! inst = Some (Obj (Some mp) [] None false)) f
              (forin_keys h0 mp)) with (h := h) (h2 := h2)
        as ([B2 _] & ws & -> & Hws1 & Hws2); [|done|done|]
  end.
  - clear h h2 B Hi Hrun. intros k h h2 Hk [B Hi]. unfold bind, ret.
    apply forin_keys_spec in Hk as (d & Hd & He).
    unfold enum_chain. rewrite Hd, He.
    unfold copyProperty, getPropertyDescriptor, bind.
    rewrite (getOwnPropertyDescriptor_obj _ _ _ _ Hi). simpl.
    rewrite (climb_find (length h) h inst _ k d Hi eq_refl); cycle 1.
    { simpl. rewrite Hi. simpl.
      by rewrite <- (old_lookup_prop _ _ _ _ wf B) in Hd. }
    destruct (bd_proto _ _ _ _ B) as [pp Hpp].
    apply shape_obj in Hpp as (oP & HoP & _ & Harr).
    destruct (defineProperty_cases h P oP k d HoP Harr) as [->|[-> Hc]];
      [done|]. intros [= <-]. split; [|done]. split.
    + apply building_write; [done|apply B|by intros ?%(bd_ne _ _ _ _ B)|].
      eapply lookup_prop_data; [apply (bd_data _ _ _ _ B)|].
      by rewrite (old_lookup_prop _ _ _ _ wf B).
    + by rewrite write_prop_lookup_ne.
  - split; [done|]. exists ws. split; [done|]. split.
    + intros k p Hin. by destruct (Hws1 _ _ Hin).
    + intros k p Hp. eapply Hws2; [|done]. apply forin_keys_spec.
      unfold enum_chain in Hp. destruct (lookup_prop h0 mp k) as [q|]; [|done].
      destruct (p_enum q) eqn:He; [|done]. injection Hp as ->. by exists p.
Qed.

End Copy.

(** ** What a step of [create] leaves alone *)

Record framed (cl P : loc) (h h2 : heap) : Prop := {
  fr_len : length h ≤ length h2;
  fr_other : ∀ l, l < length h → l ≠ cl → l ≠ P → h2 !! l = h !! l;
  fr_shape : ∀ l, l < length h → shape h2 l = shape h l
}.

Lemma framed_refl cl P h : framed cl P h h.
Proof. by split. Qed.

Lemma framed_trans cl P h1 h2 h3 :
  framed cl P h1 h2 → framed cl P h2 h3 → framed cl P h1 h3.
Proof.
  intros [L1 O1 S1] [L2 O2 S2]. split.
  - lia.
  - intros l ? ? ?. rewrite O2, O1 by (done || lia). done.
  - intros l ?. rewrite S2, S1 by (done || lia). done.
Qed.

Lemma framed_app cl P h t : framed cl P h (h ++ t).
Proof.
  split.
  - rewrite length_app. lia.
  - intros l ? _ _. by rewrite lookup_app_l.
  - intros l ?. by apply shape_app.
Qed.

Lemma framed_write cl P h l k p :
  l = cl ∨ l = P → framed cl P h (write_prop h l k p).
Proof.
  intros Hl. split.
  - by rewrite write_prop_length.
  - intros l' ? ? ?. apply write_prop_lookup_ne. by destruct Hl as [->| ->].
  - intros l' ?. apply shape_write.
Qed.

Lemma framed_writes cl P h l ws :
  l = cl ∨ l = P → framed cl P h (writes l ws h).
Proof.
  intros Hl. split.
  - by rewrite writes_length.
  - intros l' ? ? ?. apply writes_lookup_ne. by destruct Hl as [->| ->].
  - intros l' ?. apply shape_writes.
Qed.

Lemma framed_set_closure cl P h f : framed cl P h (set_closure h cl f).
Proof.
  split.
  - by rewrite set_closure_length.
  - intros l' ? ? ?. by apply set_closure_lookup_ne.
  - intros l' ?. apply shape_set_closure.
Qed.

Lemma framed_closure cl P h h2 l :
  framed cl P h h2 → l < length h → l ≠ cl → l ≠ P →
  closure h2 l = closure h l.
Proof. intros F ? ? ?. unfold closure. by rewrite (fr_other _ _ _ _ F). Qed.

Lemma framed_own_prop cl P h h2 l k :
  framed cl P h h2 → l < length h → l ≠ cl → l ≠ P →
  own_prop h2 l k = own_prop h l k.
Proof. intros F ? ? ?. unfold own_prop. by rewrite (fr_other _ _ _ _ F). Qed.

(** ** The loop over the definition *)

Definition reserved (k : string) : bool :=
  String.eqb k INITIALIZE || String.eqb k EXTEND || String.eqb k INCLUDE
  || String.eqb k STATIC || String.eqb k SUPER.

Lemma reserved_false k :
  String.eqb k INITIALIZE = false →
  String.eqb k EXTEND || String.eqb k INCLUDE = false →
  String.eqb k STATIC = false → String.eqb k SUPER = false →
  reserved k = false.
Proof.
  intros E1 [E2 E2']%orb_false_elim E3 E4. unfold reserved.
  by rewrite E1, E2, E2', E3, E4.
Qed.

(** A generic loop rule: the steps that do not hit the target keep the
    observation [R]; a step that hits it establishes [Q], which the
    other steps keep. *)
Lemma each_target {A} (f : A → M unit) (I Q : heap → Prop)
    (R : heap → heap → Prop) (hit : A → bool) :
  (∀ a, R a a) → (∀ a b c, R a b → R b c → R a c) →
  (∀ a b, R a b → Q a → Q b) →
  (∀ x a b, I a → f x a = Ret tt b →
     I b ∧ (hit x = false → R a b) ∧ (hit x = true → Q b)) →
  ∀ keys h h2, I h → each f keys h = Ret tt h2 →
    I h2 ∧ (existsb hit keys = false → R h h2)
    ∧ (existsb hit keys = true → Q h2).
Proof.
  intros Rr Rt QR Hstep. induction keys as [|x r IH]; intros h h2 HI; simpl.
  - intros [= <-]. by repeat split.
  - unfold bind. destruct (f x h) as [[] h1| |] eqn:Hf; [|done..].
    intros Hr. destruct (Hstep x h h1 HI Hf) as (HI1 & Hmiss & Hhit).
    destruct (IH h1 h2 HI1 Hr) as (HI2 & Hmiss' & Hhit').
    split; [done|]. destruct (hit x); simpl.
    + split; [done|]. intros _.
      destruct (existsb hit r); [by apply Hhit'|].
      eapply QR; [by apply Hmiss'|by apply Hhit].
    + split.
      * intros E. eapply Rt; [by apply Hmiss|by apply Hmiss'].
      * done.
Qed.

Section DefineLoop.

Variable call : value → value → list value → M value.
Variables (h0 : heap) (cl P : loc) (base : value) (d : loc) (od : obj).
Hypothesis wf : wf_heap h0.
Hypothesis refs : refs_valid h0.
Hypothesis Hd : h0 !! d = Some od.

Lemma member_value_valid k p v w s :
  own (o_props od) k = Some p → p_slot p = Data v w → v = VRef s →
  s < length h0.
Proof.
  intros Hown Hs ->. destruct p as [sl e c]. simpl in Hs. subst sl.
  by eapply refs.
Qed.

(** What every step keeps. *)
Lemma define_frame k h h2 :
  building h0 cl P h →
  define call cl base (VRef d) k h = Ret tt h2 →
  building h0 cl P h2 ∧ framed cl P h h2 ∧
  (∀ k', k' ≠ k ∨ own (o_props od) k = None ∨ reserved k = true →
         own_prop h2 P k' = own_prop h P k') ∧
  (k ≠ STATIC ∨ own (o_props od) k = None →
   ∀ q, own_prop h2 cl q = own_prop h cl q) ∧
  (k ≠ INITIALIZE ∨ own (o_props od) k = None →
   closure h2 cl = closure h cl).
Proof.
  intros B Hrun.
  pose proof (define_cases call h0 cl P base d od Hd k h h2 B Hrun) as Hc.
  pose proof (building_cl_lt _ _ _ _ B) as Hcl.
  pose proof (building_P_lt _ _ _ _ B) as HP.
  pose proof (bd_ne _ _ _ _ B) as Hne.
  destruct (own (o_props od) k) as [p|] eqn:Hown.
  2: { subst h2. split; [done|]. split; [apply framed_refl|].
       by repeat split. }
  destruct Hc as (v & w & Hs & Hc).
  destruct (String.eqb k INITIALIZE) eqn:E1.
  { apply String.eqb_eq in E1. destruct Hc as (ini & inc & Hcz & ->).
    split; [|split; [|repeat split]].
    - apply building_set_closure, building_app; [done|].
      apply data_function_objects.
    - eapply framed_trans; [apply framed_app|apply framed_set_closure].
    - intros k' _. by rewrite own_prop_set_closure, own_prop_app.
    - intros _ q. by rewrite own_prop_set_closure, own_prop_app.
    - intros [?|?]; done. }
  destruct (String.eqb k EXTEND || String.eqb k INCLUDE) eqn:E2.
  { subst h2. split; [done|]. split; [apply framed_refl|].
    by repeat split. }
  destruct (String.eqb k STATIC) eqn:E3.
  { apply String.eqb_eq in E3.
    destruct (copy_statics h0 cl P wf v h h2) as (B2 & ws & -> & _);
      [|done..|].
    { intros s ->. by eapply member_value_valid. }
    split; [done|]. split; [by apply framed_writes; left|]. repeat split.
    - intros k' _. rewrite own_prop_writes_other; [done|]. left. done.
    - intros [?|?]; done.
    - intros _. apply closure_writes. }
  destruct (String.eqb k SUPER) eqn:E4; [done|].
  pose proof (reserved_false k E1 E2 E3 E4) as Hres.
  apply String.eqb_neq in E1, E3.
  destruct (is_callable h v).
  - destruct Hc as (e & c & ->).
    split; [|split; [|repeat split]].
    + apply building_write; [|apply B|done|done].
      apply building_app; [done|apply data_function_objects].
    + eapply framed_trans; [apply framed_app|apply framed_write; by right].
    + intros k' [Hk|[?|?]]; [|done|congruence].
      rewrite own_prop_write, decide_False by (intros (_ & ? & _); done).
      by rewrite own_prop_app.
    + intros _ q. rewrite own_prop_write, decide_False
        by (intros (? & _); done). by rewrite own_prop_app.
    + intros _. by rewrite closure_write, closure_app.
  - subst h2. split; [|split; [|repeat split]].
    + apply building_write; [done|apply B|done|].
      eapply (bd_data _ _ _ _ B); [|done]. by eapply old_obj.
    + apply framed_write. by right.
    + intros k' [Hk|[?|?]]; [|done|congruence].
      by rewrite own_prop_write, decide_False by (intros (_ & ? & _); done).
    + intros _ q. by rewrite own_prop_write, decide_False
        by (intros (? & _); done).
    + intros _. by rewrite closure_write.
Qed.

End DefineLoop.

Lemma existsb_eqb (k : string) (b : bool) keys :
  existsb (λ x, String.eqb x k && b) keys = true ↔ In k keys ∧ b = true.
Proof.
  rewrite existsb_exists. split.
  - intros (x & Hin & [E ->]%andb_prop). apply String.eqb_eq in E. by subst.
  - intros [Hin ->]. exists k. by rewrite String.eqb_refl.
Qed.

Section Loops.

Variable call : value → value → list value → M value.
Variables (h0 : heap) (cl P : loc) (base : value) (d : loc) (od : obj).
Hypothesis wf : wf_heap h0.
Hypothesis refs : refs_valid h0.
Hypothesis Hd : h0 !! d = Some od.

(** The member [k] of the definition has been installed on the
    prototype: wrapped when it is callable, copied otherwise. *)
Definition installed (k : string) (h : heap) : Prop :=
  match own (o_props od) k with
  | Some p =>
      match p_slot p with
      | Data v _ =>
          if is_callable h0 v then
            ∃ w e c,
              own_prop h P k = Some (Prop_ (Data (VRef w) true) e c) ∧
              closure h w = Some (FWrapped v k base) ∧
              length h0 ≤ w < length h ∧ w ≠ cl ∧ w ≠ P
          else own_prop h P k = Some p
      | Accessor _ _ => False
      end
  | None => False
  end.

Definition is_member (k : string) : bool :=
  negb (reserved k) &&
  match own (o_props od) k with Some _ => true | None => false end.

Lemma wrapper_closure method signature h :
  closure (h ++ wrapper_objects method signature base (length h)) (length h)
  = Some (FWrapped method signature base).
Proof.
  unfold closure. rewrite lookup_app_r by lia. by rewrite Nat.sub_diag.
Qed.

Lemma define_member k h h2 :
  is_member k = true →
  building h0 cl P h →
  define call cl base (VRef d) k h = Ret tt h2 →
  installed k h2.
Proof.
  intros Hm B Hrun.
  pose proof (define_cases call h0 cl P base d od Hd k h h2 B Hrun) as Hc.
  pose proof (building_cl_lt _ _ _ _ B) as Hcl.
  pose proof (building_P_lt _ _ _ _ B) as HP.
  pose proof (building_len _ _ _ _ B) as Hlen.
  unfold is_member, reserved in Hm. unfold installed.
  destruct (own (o_props od) k) as [p|] eqn:Hown;
    [|by rewrite andb_false_r in Hm].
  destruct Hc as (v & w & Hs & Hc). rewrite Hs.
  rewrite andb_true_r, negb_true_iff in Hm.
  apply orb_false_elim in Hm as [Hm E5].
  apply orb_false_elim in Hm as [Hm E4].
  apply orb_false_elim in Hm as [Hm E3].
  apply orb_false_elim in Hm as [E1 E2].
  rewrite E1, E2, E3, E4, E5 in Hc. simpl in Hc.
  rewrite (old_is_callable _ _ _ _ B) in Hc
    by (intros ? ->; by eapply member_value_valid).
  destruct (is_callable h0 v).
  - destruct Hc as (e & c & ->). exists (length h), e, c.
    assert (is_Some ((h ++ wrapper_objects v k base (length h)) !! P)) as HPs.
    { apply lookup_lt_is_Some. rewrite length_app. lia. }
    rewrite own_prop_write, decide_True by done.
    rewrite closure_write, wrapper_closure, write_prop_length, length_app.
    simpl. repeat split; try done; lia.
  - subst h2. rewrite own_prop_write, decide_True; [done|].
    repeat split. by apply lookup_lt_is_Some.
Qed.

Lemma installed_stable k a b :
  framed cl P a b → own_prop b P k = own_prop a P k →
  installed k a → installed k b.
Proof.
  intros F E. unfold installed.
  destruct (own (o_props od) k) as [p|]; [|done].
  destruct (p_slot p) as [v _|]; [|done].
  destruct (is_callable h0 v); [|by rewrite E].
  intros (w & e & c & Ho & Hc & Hw & Hwc & HwP). exists w, e, c.
  rewrite E, (framed_closure _ _ _ _ _ F) by (done || lia).
  pose proof (fr_len _ _ _ _ F). repeat split; try done; lia.
Qed.

(** The loop, seen from one name of the prototype. *)
Lemma define_loop_member k keys h h2 :
  building h0 cl P h →
  each (define call cl base (VRef d)) keys h = Ret tt h2 →
  building h0 cl P h2 ∧ framed cl P h h2 ∧
  if mem k keys && is_member k then installed k h2
  else own_prop h2 P k = own_prop h P k.
Proof.
  intros B Hrun.
  destruct (each_target (define call cl base (VRef d))
              (building h0 cl P) (λ _, True)
              (framed cl P) (λ _, false)) with (keys := keys) (h := h) (h2 := h2)
    as (B2 & HF & _);
    [apply framed_refl|apply framed_trans|done| |done|done|].
  { intros x a b Ba Hx.
    destruct (define_frame call h0 cl P base d od wf refs Hd x a b Ba Hx)
      as (? & ? & _). done. }
  split; [done|]. split.
  { apply HF. clear. by induction keys. }
  destruct (each_target (define call cl base (VRef d))
              (building h0 cl P) (installed k)
              (λ a b, framed cl P a b ∧ own_prop b P k = own_prop a P k)
              (λ x, String.eqb x k && is_member k))
    with (keys := keys) (h := h) (h2 := h2)
    as (_ & Hmiss & Hhit); [| | | |done|done|].
  { intros a. split; [apply framed_refl|done]. }
  { intros a b c [F1 E1] [F2 E2]. split; [by eapply framed_trans|congruence]. }
  { intros a b [F E]. by apply installed_stable. }
  { intros x a b Ba Hx.
    destruct (define_frame call h0 cl P base d od wf refs Hd x a b Ba Hx)
      as (Bb & F & HPk & _).
    split; [done|]. split.
    - intros Hh. split; [done|]. apply HPk.
      destruct (String.eqb x k) eqn:E; [|left; intros ->; by rewrite String.eqb_refl in E].
      apply String.eqb_eq in E. subst x. right. simpl in Hh.
      unfold is_member in Hh. destruct (own (o_props od) k); [|by left].
      right. rewrite andb_true_r in Hh. by apply negb_false_iff.
    - intros [E Hm]%andb_prop. apply String.eqb_eq in E. subst x.
      exact (define_member k a b Hm Ba Hx). }
  destruct (mem k keys && is_member k) eqn:E.
  - apply Hhit, existsb_eqb. apply andb_prop in E as [E ?].
    by apply mem_In in E.
  - apply Hmiss. destruct (existsb (λ x, String.eqb x k && is_member k) keys) eqn:E'; [|done].
    apply existsb_eqb in E' as [Hin ?]. apply mem_In in Hin.
    rewrite Hin in E. simpl in E. congruence.
Qed.

(** The loop, seen from the static side of the class: [sv] is the
    value of the definition's own [static] property. *)
Lemma define_loop_static sv keys h h2 :
  (∀ p, own (o_props od) STATIC = Some p → ∃ w, p_slot p = Data sv w) →
  building h0 cl P h →
  (∀ q, enum_own h (VRef cl) q = None) →
  each (define call cl base (VRef d)) keys h = Ret tt h2 →
  ∀ q, enum_own h2 (VRef cl) q
       = if mem STATIC keys &&
            match own (o_props od) STATIC with Some _ => true | None => false end
         then enum_own h0 sv q else None.
Proof.
  intros Hsv B Hnone Hrun.
  set (isown := match own (o_props od) STATIC with
                | Some _ => true | None => false end).
  destruct (each_target (define call cl base (VRef d))
              (λ a, building h0 cl P a ∧
                    ∀ q, enum_own a (VRef cl) q = None ∨
                         enum_own a (VRef cl) q = enum_own h0 sv q)
              (λ a, ∀ q, enum_own a (VRef cl) q = enum_own h0 sv q)
              (λ a b, ∀ q, own_prop b cl q = own_prop a cl q)
              (λ x, String.eqb x STATIC && isown))
    with (keys := keys) (h := h) (h2 := h2)
    as (_ & Hmiss & Hhit); [done| | | | |done|].
  { intros a b c E1 E2 q. by rewrite E2, E1. }
  { intros a b E Ha q. unfold enum_own. rewrite E. apply Ha. }
  { intros x a b [Ba Ia] Hx.
    destruct (define_frame call h0 cl P base d od wf refs Hd x a b Ba Hx)
      as (Bb & F & _ & Hcl & _).
    assert (String.eqb x STATIC && isown = true →
            ∀ q, enum_own b (VRef cl) q = enum_own h0 sv q) as Hq.
    { intros [E Hown]%andb_prop. apply String.eqb_eq in E. subst x.
      pose proof (define_cases call h0 cl P base d od Hd STATIC a b Ba Hx) as Hc.
      unfold isown in Hown.
      destruct (own (o_props od) STATIC) as [p|] eqn:Hp; [|done].
      destruct Hc as (v & w & Hs & Hc). destruct (Hsv p eq_refl) as [w' Hs'].
      rewrite Hs in Hs'. injection Hs' as -> ->.
      change (String.eqb STATIC INITIALIZE) with false in Hc.
      change (String.eqb STATIC EXTEND || String.eqb STATIC INCLUDE)
        with false in Hc.
      change (String.eqb STATIC STATIC) with true in Hc. simpl in Hc.
      destruct (copy_statics h0 cl P wf sv a b)
        as (_ & ws & -> & Hws1 & Hws2); [|done..|].
      { intros s ->. by eapply member_value_valid. }
      intros q. pose proof (building_cl_lt _ _ _ _ Ba) as Hlt.
      destruct (enum_own h0 sv q) as [dq|] eqn:Hq.
      - unfold enum_own at 1.
        rewrite (own_prop_writes_same cl ws a q dq).
        + unfold enum_own in Hq. destruct sv; try done.
          destruct (own_prop h0 l q) as [p'|]; [|done].
          destruct (p_enum p') eqn:He; [|done]. injection Hq as <-.
          by rewrite He.
        + by apply lookup_lt_is_Some.
        + by eapply Hws2.
        + intros p' Hin. apply Hws1 in Hin. congruence.
      - unfold enum_own at 1. rewrite own_prop_writes_other.
        + destruct (Ia q) as [E|E]; [exact E|]. rewrite Hq in E. exact E.
        + right. intros Hin. apply in_map_iff in Hin as ([q' p'] & Eq & Hin).
          simpl in Eq. subst q'. apply Hws1 in Hin. congruence. }
    split; [split; [done|]|split].
    - destruct (String.eqb x STATIC && isown) eqn:E.
      + intros q. right. by apply Hq.
      + intros q.
        assert (enum_own b (VRef cl) q = enum_own a (VRef cl) q) as ->;
          [|apply Ia].
        unfold enum_own. rewrite Hcl; [done|].
        unfold isown in E. destruct (String.eqb x STATIC) eqn:E'.
        * simpl in E. right. by destruct (own (o_props od) x) eqn:E'';
            apply String.eqb_eq in E'; subst x; rewrite E'' in E.
        * left. intros ->. by rewrite String.eqb_refl in E'.
    - intros E. apply Hcl. unfold isown in E.
      destruct (String.eqb x STATIC) eqn:E'.
      + simpl in E. right. by destruct (own (o_props od) x) eqn:E'';
          apply String.eqb_eq in E'; subst x; rewrite E'' in E.
      + left. intros ->. by rewrite String.eqb_refl in E'.
    - done. }
  { split; [done|]. intros q. left. apply Hnone. }
  intros q. destruct (mem STATIC keys && isown) eqn:E.
  - apply Hhit, existsb_eqb. apply andb_prop in E as [E ?].
    by apply mem_In in E.
  - unfold enum_own. rewrite Hmiss; [apply Hnone|].
    destruct (existsb _ keys) eqn:E'; [|done].
    apply existsb_eqb in E' as [Hin ?]. apply mem_In in Hin.
    rewrite Hin in E. simpl in E. congruence.
Qed.

End Loops.

Section Loops2.

Variable call : value → value → list value → M value.
Variables (h0 : heap) (cl P : loc) (base : value) (d : loc) (od : obj).
Hypothesis wf : wf_heap h0.
Hypothesis refs : refs_valid h0.
Hypothesis data0 : data_heap h0.
Hypothesis Hd : h0 !! d = Some od.

(** The initializer is the wrapped [initialize] of the definition. *)
Definition initializer_wrapped (iv : value) (h : heap) : Prop :=
  ∃ w p v wr,
    own (o_props od) INITIALIZE = Some p ∧ p_slot p = Data v wr ∧
    closure h cl = Some (FClass (VRef w) iv) ∧
    closure h w = Some (FWrapped v CONSTRUCTOR base) ∧
    length h0 ≤ w < length h ∧ w ≠ cl ∧ w ≠ P.

(** The loop, seen from the variable [initialize]. *)
Lemma define_loop_initialize iv keys h h2 :
  building h0 cl P h →
  (∃ ini, closure h cl = Some (FClass ini iv)) →
  each (define call cl base (VRef d)) keys h = Ret tt h2 →
  if mem INITIALIZE keys &&
     match own (o_props od) INITIALIZE with Some _ => true | None => false end
  then initializer_wrapped iv h2
  else closure h2 cl = closure h cl.
Proof.
  intros B Hini Hrun.
  set (isown := match own (o_props od) INITIALIZE with
                | Some _ => true | None => false end).
  destruct (each_target (define call cl base (VRef d))
              (λ a, building h0 cl P a ∧
                    ∃ ini, closure a cl = Some (FClass ini iv))
              (initializer_wrapped iv)
              (λ a b, framed cl P a b ∧ closure b cl = closure a cl)
              (λ x, String.eqb x INITIALIZE && isown))
    with (keys := keys) (h := h) (h2 := h2)
    as (_ & Hmiss & Hhit); [| | | |done|done|].
  { intros a. split; [apply framed_refl|done]. }
  { intros a b c [F1 E1] [F2 E2]. split; [by eapply framed_trans|congruence]. }
  { intros a b [F E] (w & p & v & wr & Ho & Hs & Hc & Hw & Hlt & Hwc & HwP).
    exists w, p, v, wr. rewrite E, (framed_closure _ _ _ _ _ F) by (done || lia).
    pose proof (fr_len _ _ _ _ F). repeat split; try done; lia. }
  { intros x a b [Ba [ini Hc]] Hx.
    destruct (define_frame call h0 cl P base d od wf refs Hd x a b Ba Hx)
      as (Bb & F & _ & _ & Hcz).
    assert (String.eqb x INITIALIZE && isown = true →
            initializer_wrapped iv b) as Hq.
    { intros [E Hown]%andb_prop. apply String.eqb_eq in E. subst x.
      pose proof (define_cases call h0 cl P base d od Hd INITIALIZE a b Ba Hx)
        as Hcs.
      unfold isown in Hown.
      destruct (own (o_props od) INITIALIZE) as [p|] eqn:Hp; [|done].
      destruct Hcs as (v & w & Hs & Hcs).
      change (String.eqb INITIALIZE INITIALIZE) with true in Hcs.
      destruct Hcs as (ini' & inc & Hc' & ->).
      rewrite Hc in Hc'. injection Hc' as <- <-.
      pose proof (building_cl_lt _ _ _ _ Ba) as Hlt.
      pose proof (building_P_lt _ _ _ _ Ba) as HPlt.
      pose proof (building_len _ _ _ _ Ba) as Hlen.
      exists (length a), p, v, w. split; [done|]. split; [done|].
      rewrite !closure_set_closure, decide_True.
      2: { split; [done|]. apply lookup_lt_is_Some. rewrite length_app. lia. }
      rewrite decide_False by (intros [? _]; lia).
      rewrite wrapper_closure, set_closure_length, length_app. simpl.
      repeat split; try done; lia. }
    split; [split; [done|]|split].
    - destruct (String.eqb x INITIALIZE && isown) eqn:E.
      + destruct (Hq eq_refl) as (w & _ & _ & _ & _ & _ & Hw & _). by exists (VRef w).
      + exists ini. rewrite Hcz; [done|].
        unfold isown in E. destruct (String.eqb x INITIALIZE) eqn:E'.
        * simpl in E. right. by destruct (own (o_props od) x) eqn:E'';
            apply String.eqb_eq in E'; subst x; rewrite E'' in E.
        * left. intros ->. by rewrite String.eqb_refl in E'.
    - intros E. split; [done|]. apply Hcz. unfold isown in E.
      destruct (String.eqb x INITIALIZE) eqn:E'.
      + simpl in E. right. by destruct (own (o_props od) x) eqn:E'';
          apply String.eqb_eq in E'; subst x; rewrite E'' in E.
      + left. intros ->. by rewrite String.eqb_refl in E'.
    - done. }
  destruct (mem INITIALIZE keys && isown) eqn:E.
  - apply Hhit, existsb_eqb. apply andb_prop in E as [E ?].
    by apply mem_In in E.
  - apply Hmiss.
    destruct (existsb (λ x, String.eqb x INITIALIZE && isown) keys) eqn:E';
      [|done].
    apply existsb_eqb in E' as [Hin ?]. apply mem_In in Hin.
    rewrite Hin in E. simpl in E. congruence.
Qed.

(** ** The loop over the includes (step 3) *)

(** The members a class [m] hands to the classes that include it: the
    enumerable properties along the chain of its prototype. *)
Definition mixin_members (m : value) (k : string) : option prop :=
  match m with
  | VRef _ =>
      match read h0 m PROTOTYPE with
      | Some (VRef mp) => enum_chain h0 mp k
      | _ => None
      end
  | _ => None
  end.

Definition later (acc : option prop) (p : option prop) : option prop :=
  match p with Some _ => p | None => acc end.

Lemma mixin_step n i a m h h3 :
  a < length h0 →
  read h0 (VRef a) (index_key i) = Some m →
  building h0 cl P h →
  mixin call (S n) i cl (VRef a) h = Ret tt h3 →
  ∃ h2, building h0 cl P h2 ∧ framed cl P h h2 ∧
    (∀ q, own_prop h2 cl q = own_prop h cl q) ∧
    closure h2 cl = closure h cl ∧
    (∀ k, own_prop h2 P k = later (own_prop h P k) (mixin_members m k)) ∧
    mixin call n (S i) cl (VRef a) h2 = Ret tt h3.
Proof.
  intros Ha Hm B. simpl. unfold bind at 1.
  rewrite (js_get_read call h (VRef a) _ m)
    by (by rewrite (old_read _ _ _ _ wf B)).
  unfold createAnUnconstructedInstanceOfClass. unfold bind at 1 2.
  destruct m as [| | | | |ml]; try done.
  pose proof (read_value_valid _ _ _ _ refs Hm) as Hml.
  destruct (read_data h0 ml PROTOTYPE data0 (lookup_lt_is_Some_2 _ _ Hml))
    as [pv Hpv].
  rewrite (js_get_read call h (VRef ml) _ pv)
    by (by rewrite (old_read _ _ _ _ wf B)).
  pose proof (building_cl_lt _ _ _ _ B) as Hcl.
  pose proof (building_P_lt _ _ _ _ B) as HP.
  pose proof (building_len _ _ _ _ B) as Hlen.
  assert (∀ o, (∀ k p, own (o_props o) k = Some p → is_data p = true) →
               building h0 cl P (h ++ [o])) as Bapp.
  { intros o Ho. apply building_app; [done|]. intros o' k p [<-|[]]. apply Ho. }
  destruct pv as [| | | | |mp]; try done.
  - (* a class whose [prototype] is [null] *)
    unfold object_create, bind, alloc, ret.
    set (h1 := h ++ _).
    assert (building h0 cl P h1) as B1 by (by apply Bapp).
    rewrite (class_prototype _ _ _ _ B1).
    unfold copyProperties, bind, for_in.
    assert (h1 !! length h = Some (Obj None [] None false)) as Hi.
    { unfold h1. rewrite lookup_app_r by lia. by rewrite Nat.sub_diag. }
    rewrite Hi.
    assert (forin_keys h1 (length h) = []) as ->.
    { unfold forin_keys. destruct (length h1) eqn:E; [done|].
      simpl. by rewrite Hi. }
    cbn [each]. unfold ret. intros Hrun. exists h1.
    split; [done|]. split; [apply framed_app|].
    unfold h1. split; [intros q; by rewrite own_prop_app|].
    split; [by rewrite closure_app|]. split; [|done].
    intros k. unfold mixin_members. rewrite Hpv. simpl. by rewrite own_prop_app.
  - unfold object_create, bind, alloc, ret.
    set (h1 := h ++ _).
    assert (building h0 cl P h1) as B1 by (by apply Bapp).
    rewrite (class_prototype _ _ _ _ B1).
    pose proof (read_value_valid _ _ _ _ refs Hpv) as Hmp.
    assert (h1 !! length h = Some (Obj (Some mp) [] None false)) as Hi.
    { unfold h1. rewrite lookup_app_r by lia. by rewrite Nat.sub_diag. }
    destruct (copyProperties (VRef (length h)) (VRef P) true h1)
      as [[] h2| |] eqn:Hcopy; [|done..].
    destruct (copy_mixin h0 cl P wf (length h) mp h1 h2)
      as (B2 & ws & -> & Hws1 & Hws2); [done..|lia|lia|done|].
    intros Hrun. exists (writes P ws h1).
    split; [done|]. split.
    { eapply framed_trans; [apply framed_app|apply framed_writes; by right]. }
    split.
    { intros q. rewrite own_prop_writes_other by (left; apply B).
      by apply own_prop_app. }
    split; [by rewrite closure_writes; apply closure_app|]. split; [|done].
    intros k. unfold mixin_members. rewrite Hpv.
    destruct (enum_chain h0 mp k) as [p|] eqn:Hk; simpl.
    + apply own_prop_writes_same.
      * apply lookup_lt_is_Some. unfold h1. rewrite length_app. lia.
      * by eapply Hws2.
      * intros p' Hin. apply Hws1 in Hin. congruence.
    + rewrite own_prop_writes_other; [by apply own_prop_app|].
      right. intros Hin. apply in_map_iff in Hin as ([q' p'] & Eq & Hin).
      simpl in Eq. subst q'. apply Hws1 in Hin. congruence.
Qed.

Fixpoint elems_from (h : heap) (a : value) (i : nat) (ms : list value)
  : bool :=
  match ms with
  | [] => true
  | m :: r =>
      bool_decide (read h a (index_key i) = Some m) && elems_from h a (S i) r
  end.

Lemma mixin_loop ms : ∀ i a h h3,
  a < length h0 →
  elems_from h0 (VRef a) i ms = true →
  building h0 cl P h →
  mixin call (length ms) i cl (VRef a) h = Ret tt h3 →
  building h0 cl P h3 ∧ framed cl P h h3 ∧
  (∀ q, own_prop h3 cl q = own_prop h cl q) ∧
  closure h3 cl = closure h cl ∧
  (∀ k, own_prop h3 P k
        = fold_left (λ acc m, later acc (mixin_members m k)) ms
                    (own_prop h P k)).
Proof.
  induction ms as [|m r IH]; intros i a h h3 Ha He B Hrun.
  - simpl in Hrun. injection Hrun as <-.
    split; [done|]. split; [apply framed_refl|]. by repeat split.
  - simpl in He. apply andb_prop in He as [Hm He].
    apply bool_decide_eq_true in Hm.
    destruct (mixin_step (length r) i a m h h3 Ha Hm B Hrun)
      as (h2 & B2 & F2 & Hcl2 & Hcz2 & HP2 & Hrun2).
    destruct (IH (S i) a h2 h3 Ha He B2 Hrun2) as (B3 & F3 & Hcl3 & Hcz3 & HP3).
    split; [done|]. split; [by eapply framed_trans|].
    split; [intros q; by rewrite Hcl3, Hcl2|].
    split; [congruence|]. intros k. simpl. by rewrite HP3, HP2.
Qed.

End Loops2.

(** ** [create], step by step *)

Lemma bind_Ret {A B} (m : M A) (k : A → M B) h b h' :
  bind m k h = Ret b h' → ∃ a h1, m h = Ret a h1 ∧ k a h1 = Ret b h'.
Proof.
  unfold bind. destruct (m h) as [a h1| |]; [|done..]. eauto.
Qed.

(** What the definition says, read in the heap where [create] is
    called. *)
Definition extend_of (h : heap) (d : loc) : value :=
  default VUndef (read h (VRef d) EXTEND).

Definition include_of (h : heap) (d : loc) : value :=
  default VUndef (read h (VRef d) INCLUDE).

(** [base]: the [extend] target, or [Object]. *)
Definition base_of (h : heap) (d : loc) : value :=
  match extend_of h d with
  | VUndef => VRef Object_
  | b => b
  end.

(** The initializer before the definition is looked at:
    [base.prototype.constructor] under [extend], [undefined] without. *)
Definition default_initializer (h : heap) (d : loc) : value :=
  match extend_of h d with
  | VUndef => VUndef
  | b => match read h b PROTOTYPE with
         | Some bp => default VUndef (read h bp CONSTRUCTOR)
         | None => VUndef
         end
  end.

(** The object the new prototype is linked to. *)
Definition proto_link (h : heap) (d : loc) : option loc :=
  match extend_of h d with
  | VUndef => Some ObjectPrototype
  | b => match read h b PROTOTYPE with
         | Some (VRef bp) => Some bp
         | _ => None
         end
  end.

Definition includes_are (h : heap) (iv : value) (ms : list value) : bool :=
  match iv with
  | VUndef => match ms with [] => true | _ => false end
  | _ => bool_decide (read h iv LENGTH = Some (VNum (Z.of_nat (length ms))))
         && elems_from h iv 0 ms
  end.

Lemma own_not_enumerable ps k p :
  (∀ k' p', In (k', p') ps → p_enum p' = false) →
  own ps k = Some p → p_enum p = false.
Proof. intros H Ho. eapply H, own_In, Ho. Qed.

Lemma enum_own_hidden h l o k :
  h !! l = Some o →
  (∀ k' p', In (k', p') (o_props o) → p_enum p' = false) →
  enum_own h (VRef l) k = None.
Proof.
  intros Hl Ho. unfold enum_own, own_prop. rewrite Hl.
  destruct (own (o_props o) k) as [p|] eqn:E; [|done].
  by rewrite (own_not_enumerable _ _ _ Ho E).
Qed.

(** The state after steps 1 and 2. *)
Record inherited (h0 : heap) (d cl P : loc) (h : heap) : Prop := {
  ih_building : building h0 cl P h;
  ih_shape : shape h P = Some (proto_link h0 d, false);
  ih_empty : ∀ k, k ≠ CONSTRUCTOR → own_prop h P k = None;
  ih_static : ∀ q, enum_own h (VRef cl) q = None;
  ih_closure : closure h cl = Some (FClass (default_initializer h0 d) VUndef)
}.

Section Create.

Variable call : value → value → list value → M value.
Variables (h0 : heap) (d : loc) (od : obj).
Hypothesis wf : wf_heap h0.
Hypothesis refs : refs_valid h0.
Hypothesis data0 : data_heap h0.
Hypothesis Hd : h0 !! d = Some od.

Let cl := length h0.
Let h1 := h0 ++ [function_object (FClass VUndef VUndef) "Class" (S cl);
                 prototype_object cl].

Lemma make_function_building : building h0 cl (S cl) h1.
Proof.
  assert (h1 !! cl = Some (function_object (FClass VUndef VUndef) "Class" (S cl)))
    as Hc.
  { unfold h1. rewrite lookup_app_r by (unfold cl; lia).
    by rewrite Nat.sub_diag. }
  assert (h1 !! S cl = Some (prototype_object cl)) as Hp.
  { unfold h1. rewrite lookup_app_r by (unfold cl; lia).
    by replace (S cl - length h0) with 1 by (unfold cl; lia). }
  split.
  - intros l Hl. unfold h1. by rewrite lookup_app_l.
  - done.
  - unfold cl. lia.
  - lia.
  - unfold shape. by rewrite Hc.
  - unfold own_prop. by rewrite Hc.
  - exists VUndef, VUndef. unfold closure. by rewrite Hc.
  - exists (Some ObjectPrototype). unfold shape. by rewrite Hp.
  - apply data_heap_app; [done|apply data_function_objects].
Qed.

Lemma inherit_step base h2 :
  match extend_of h0 d with
  | VUndef => ret (VRef Object_)
  | _ =>
      inst <- createAnUnconstructedInstanceOfClass call (extend_of h0 d) ;;
      js_set call (VRef cl) PROTOTYPE inst ;;;
      proto <- js_get call (extend_of h0 d) PROTOTYPE ;;
      c <- js_get call proto CONSTRUCTOR ;;
      assign_initialize cl c ;;;
      ret (extend_of h0 d)
  end h1 = Ret base h2 →
  base = base_of h0 d ∧ ∃ P, inherited h0 d cl P h2.
Proof.
  pose proof make_function_building as B1.
  assert (h1 !! cl = Some (function_object (FClass VUndef VUndef) "Class" (S cl)))
    as Hc.
  { unfold h1. rewrite lookup_app_r by (unfold cl; lia).
    by rewrite Nat.sub_diag. }
  assert (h1 !! S cl = Some (prototype_object cl)) as Hp.
  { unfold h1. rewrite lookup_app_r by (unfold cl; lia).
    by replace (S cl - length h0) with 1 by (unfold cl; lia). }
  assert (∀ q, enum_own h1 (VRef cl) q = None) as Hst.
  { intros q. eapply enum_own_hidden; [done|].
    intros k' p' [[= <- <-]|[[= <- <-]|[[= <- <-]|[]]]]; done. }
  unfold base_of, default_initializer, proto_link.
  destruct (extend_of h0 d) as [| | | | |bl] eqn:Hb.
  { intros [= <- <-]. split; [done|]. exists (S cl).
    split; try done.
    - unfold proto_link. rewrite Hb. unfold shape. by rewrite Hp.
    - intros k Hk. unfold own_prop. rewrite Hp.
      cbn [prototype_object o_props own].
      destruct (String.eqb CONSTRUCTOR k) eqn:E; [|done].
      apply String.eqb_eq in E. done.
    - unfold default_initializer. rewrite Hb. unfold closure. by rewrite Hc. }
  1-4: unfold createAnUnconstructedInstanceOfClass, bind, js_get; done.
  assert (bl < length h0) as Hbl.
  { unfold extend_of in Hb.
    destruct (read h0 (VRef d) EXTEND) as [b|] eqn:E; [|done].
    simpl in Hb. subst b. by eapply read_value_valid. }
  destruct (read_data h0 bl PROTOTYPE data0 (lookup_lt_is_Some_2 _ _ Hbl))
    as [bpv Hbpv].
  intros Hrun.
  apply bind_Ret in Hrun as (inst & ha & Hinst & Hrun).
  unfold createAnUnconstructedInstanceOfClass in Hinst.
  apply bind_Ret in Hinst as (p & hb & Hget & Hcreate).
  rewrite (js_get_read call h1 (VRef bl) _ bpv) in Hget
    by (by rewrite (old_read _ _ _ _ wf B1)).
  injection Hget as <- <-.
  apply bind_Ret in Hrun as ([] & hc & Hset & Hrun).
  apply bind_Ret in Hrun as (proto & hd & Hget2 & Hrun).
  apply bind_Ret in Hrun as (c & he & Hget3 & Hrun).
  apply bind_Ret in Hrun as ([] & hf & Hassign & Hrun).
  injection Hrun as <- <-. split; [done|].
  assert (∃ pr, inst = VRef (length h1) ∧
                ha = h1 ++ [Obj pr [] None false]) as (pr & -> & ->).
  { unfold object_create, bind, alloc, ret in Hcreate.
    destruct bpv; try done; injection Hcreate as <- <-; by eexists. }
  set (inst := length h1) in *.
  set (h1' := h1 ++ _) in *.
  assert (building h0 cl (S cl) h1') as B1'.
  { apply building_app; [done|]. by intros o k p [<-|[]]. }
  assert (length h1 = S (S cl)) as Hlen1.
  { unfold h1. rewrite length_app. simpl. unfold cl. lia. }
  assert (h1' !! inst = Some (Obj pr [] None false)) as Hi.
  { unfold h1'. rewrite lookup_app_r by (unfold inst; lia).
    by rewrite Nat.sub_diag. }
  assert (h1' !! cl = Some (function_object (FClass VUndef VUndef) "Class" (S cl)))
    as Hc'.
  { unfold h1'. rewrite lookup_app_l by lia. done. }
  assert (js_set call (VRef cl) PROTOTYPE (VRef inst) h1'
          = Ret tt (write_prop h1' cl PROTOTYPE
                      (Prop_ (Data (VRef inst) true) false false))) as E.
  { unfold js_set. rewrite Hc'.
    erewrite lookup_prop_own by done. done. }
  rewrite E in Hset. injection Hset as <-.
  set (h2' := write_prop h1' cl PROTOTYPE _) in *.
  assert (building h0 cl inst h2') as B2.
  { destruct B1' as [Ho Hcl HPl Hne Hs Hk Hcz Hpp Hdat]. split.
    - intros l Hl. unfold h2'. rewrite write_prop_lookup_ne by (unfold cl; lia).
      by apply Ho.
    - done.
    - unfold inst. lia.
    - unfold inst. lia.
    - unfold h2'. by rewrite shape_write.
    - unfold h2'. rewrite own_prop_write, decide_True; [done|].
      repeat split. by eexists.
    - unfold h2'. destruct Hcz as (i & j & ?). exists i, j.
      by rewrite closure_write.
    - exists pr. unfold h2'. rewrite shape_write. unfold shape.
      by rewrite Hi.
    - by apply data_heap_write. }
  rewrite (js_get_read call h2' (VRef bl) _ bpv) in Hget2
    by (by rewrite (old_read _ _ _ _ wf B2)).
  injection Hget2 as <- <-.
  destruct bpv as [| | | | |bp]; try done.
  pose proof (read_value_valid _ _ _ _ refs Hbpv) as Hbp.
  assert (pr = Some bp) as ->.
  { unfold object_create, bind, alloc, ret in Hcreate.
    injection Hcreate as Hcreate. apply app_inv_head in Hcreate.
    by injection Hcreate as <-. }
  destruct (read_data h0 bp CONSTRUCTOR data0 (lookup_lt_is_Some_2 _ _ Hbp))
    as [cv Hcv].
  rewrite (js_get_read call h2' (VRef bp) _ cv) in Hget3
    by (by rewrite (old_read _ _ _ _ wf B2)).
  injection Hget3 as <- <-.
  erewrite assign_initialize_run in Hassign.
  2: { unfold h2'. rewrite closure_write. unfold closure. by rewrite Hc'. }
  injection Hassign as <-.
  exists inst. split.
  - by apply building_set_closure.
  - rewrite shape_set_closure. unfold h2'. rewrite shape_write. unfold shape.
    rewrite Hi. unfold proto_link. by rewrite Hb, Hbpv.
  - intros k _. rewrite own_prop_set_closure. unfold h2'.
    rewrite own_prop_write, decide_False by (intros (? & _); unfold inst in *; lia).
    unfold own_prop. by rewrite Hi.
  - intros q. unfold enum_own. rewrite own_prop_set_closure. unfold h2'.
    rewrite own_prop_write. case_decide; [done|].
    assert (enum_own h1' (VRef cl) q = None) as Hq; [|exact Hq].
    eapply enum_own_hidden; [done|].
    intros k' p' [[= <- <-]|[[= <- <-]|[[= <- <-]|[]]]]; done.
  - rewrite closure_set_closure, decide_True.
    + unfold default_initializer. rewrite Hb, Hbpv, Hcv. done.
    + split; [done|]. unfold h2'. eexists. by apply write_prop_lookup.
Qed.

End Create.

(** The member an include list hands over for a name: that of the last
    class of the list that has one. *)
Definition included (h0 : heap) (ms : list value) (k : string) : option prop :=
  fold_left (λ acc m, later acc (mixin_members h0 m k)) ms None.

Definition static_of (od : obj) : value :=
  match own (o_props od) STATIC with
  | Some p => match p_slot p with Data v _ => v | Accessor _ _ => VUndef end
  | None => VUndef
  end.

Definition visited (h0 : heap) (d : loc) (od : obj) (k : string) : bool :=
  mem k (forin_keys h0 d) &&
  match own (o_props od) k with Some _ => true | None => false end.

(** The class [cl] that [create] returns for the definition [d]. *)
Record created (h0 : heap) (d : loc) (od : obj) (ms : list value)
    (cl P : loc) (h' : heap) : Prop := {
  cr_building : building h0 cl P h';
  cr_fresh : cl = length h0;
  cr_shape : shape h' P = Some (proto_link h0 d, false);
  cr_constructor :
    ∃ e c, own_prop h' P CONSTRUCTOR = Some (Prop_ (Data (VRef cl) true) e c);
  cr_member : ∀ k, k ≠ CONSTRUCTOR →
    if visited h0 d od k && negb (reserved k)
    then installed h0 cl P (base_of h0 d) od k h'
    else own_prop h' P k = included h0 ms k;
  cr_static : ∀ q,
    enum_own h' (VRef cl) q
    = if visited h0 d od STATIC then enum_own h0 (static_of od) q else None;
  cr_closure :
    if visited h0 d od INITIALIZE
    then initializer_wrapped h0 cl P (base_of h0 d) od (include_of h0 d) h'
    else closure h' cl
         = Some (FClass (default_initializer h0 d) (include_of h0 d))
}.

Section CreateSpec.

Variable call : value → value → list value → M value.
Variables (h0 : heap) (d : loc) (od : obj) (ms : list value).
Hypothesis wf : wf_heap h0.
Hypothesis refs : refs_valid h0.
Hypothesis data0 : data_heap h0.
Hypothesis Hd : h0 !! d = Some od.
Hypothesis Hms : includes_are h0 (include_of h0 d) ms = true.

Lemma mixin_phase cl P h3 h4 :
  building h0 cl P h3 →
  (∀ k, k ≠ CONSTRUCTOR → own_prop h3 P k = None) →
  match include_of h0 d with
  | VUndef => ret tt
  | _ => l <- js_get call (include_of h0 d) LENGTH ;;
         n <- loop_bound l ;;
         mixin call n 0 cl (include_of h0 d)
  end h3 = Ret tt h4 →
  building h0 cl P h4 ∧ framed cl P h3 h4 ∧
  (∀ q, own_prop h4 cl q = own_prop h3 cl q) ∧
  closure h4 cl = closure h3 cl ∧
  (∀ k, k ≠ CONSTRUCTOR → own_prop h4 P k = included h0 ms k).
Proof.
  intros B Hempty. unfold includes_are in Hms.
  destruct (include_of h0 d) as [| | | | |a] eqn:Hiv.
  { intros [= <-]. destruct ms; [|done].
    split; [done|]. split; [apply framed_refl|]. by repeat split. }
  1-4: apply andb_prop in Hms as [Hl _]; apply bool_decide_eq_true in Hl;
       done.
  apply andb_prop in Hms as [Hl He]. apply bool_decide_eq_true in Hl.
  assert (a < length h0) as Ha.
  { unfold read in Hl. destruct (h0 !! a) eqn:E; [|done].
    by eapply lookup_lt_Some. }
  intros Hrun. apply bind_Ret in Hrun as (l & ha & Hget & Hrun).
  rewrite (js_get_read call h3 (VRef a) _ _
             (eq_trans (old_read _ _ _ _ wf B a _ Ha) Hl)) in Hget.
  injection Hget as <- <-. unfold bind, loop_bound, ret in Hrun.
  rewrite Nat2Z.id in Hrun.
  destruct (mixin_loop call h0 cl P wf refs data0 ms 0 a h3 h4 Ha He B Hrun)
    as (B4 & F & Hcl & Hcz & HP).
  split; [done|]. split; [done|]. split; [done|]. split; [done|].
  intros k Hk. rewrite HP, Hempty by done. done.
Qed.

Lemma create_spec v h' :
  create call (VRef d) h0 = Ret v h' →
  ∃ P, v = VRef (length h0) ∧ created h0 d od ms (length h0) P h'.
Proof.
  intros Hrun. unfold create in Hrun.
  apply bind_Ret in Hrun as (dv & ha & Hdv & Hrun). injection Hdv as <- <-.
  apply bind_Ret in Hrun as (cl & h1 & Hmk & Hrun).
  unfold make_function in Hmk. injection Hmk as <- <-.
  pose proof (make_function_building h0 data0) as B1.
  set (cl := length h0) in *. set (h1 := h0 ++ _) in *.
  apply bind_Ret in Hrun as (bv & hb & Hget & Hrun).
  assert (d < length h0) as Hdlt by (by eapply lookup_lt_Some).
  destruct (read_data h0 d EXTEND data0 (lookup_lt_is_Some_2 _ _ Hdlt))
    as [bv' Hbv].
  rewrite (js_get_read call h1 (VRef d) _ bv') in Hget
    by (by rewrite (old_read _ _ _ _ wf B1)).
  injection Hget as <- <-.
  apply bind_Ret in Hrun as (base & h2 & Hinh & Hrun).
  assert (bv' = extend_of h0 d) as -> by (unfold extend_of; by rewrite Hbv).
  destruct (inherit_step call h0 d wf refs data0 base h2 Hinh)
    as (-> & P & [B2 Hshape Hempty Hstat Hcz]).
  apply bind_Ret in Hrun as (iv & hc & Hget & Hrun).
  destruct (read_data h0 d INCLUDE data0 (lookup_lt_is_Some_2 _ _ Hdlt))
    as [iv' Hiv].
  rewrite (js_get_read call h2 (VRef d) _ iv') in Hget
    by (by rewrite (old_read _ _ _ _ wf B2)).
  injection Hget as <- <-.
  assert (iv' = include_of h0 d) as -> by (unfold include_of; by rewrite Hiv).
  apply bind_Ret in Hrun as ([] & h3 & Hassign & Hrun).
  erewrite assign_includes_run in Hassign by done.
  injection Hassign as <-.
  set (h3 := set_closure h2 cl _) in *.
  assert (building h0 cl P h3) as B3 by (by apply building_set_closure).
  apply bind_Ret in Hrun as ([] & h4 & Hmix & Hrun).
  destruct (mixin_phase cl P h3 h4 B3) as (B4 & F4 & Hcl4 & Hcz4 & HP4);
    [|done|].
  { intros k Hk. unfold h3. rewrite own_prop_set_closure. by apply Hempty. }
  apply bind_Ret in Hrun as (keys & hd & Hkeys & Hrun).
  rewrite (for_in_obj _ _ _ (old_obj _ _ _ _ B4 _ _ Hd)),
    (old_forin_keys _ _ _ _ wf B4) in Hkeys by done.
  injection Hkeys as <- <-.
  apply bind_Ret in Hrun as ([] & h5 & Hloop & Hrun).
  apply bind_Ret in Hrun as (pv & he & Hget & Hrun).
  assert (building h0 cl P h5 ∧ framed cl P h4 h5) as [B5 F5].
  { destruct (define_loop_member call h0 cl P (base_of h0 d) d od wf refs Hd
                CONSTRUCTOR (forin_keys h0 d) h4 h5 B4 Hloop) as (? & ? & _). done. }
  rewrite (class_prototype _ _ _ _ B5) in Hget. injection Hget as <- <-.
  apply bind_Ret in Hrun as ([] & h6 & Hset & Hrun).
  injection Hrun as <- <-.
  destruct (bd_proto _ _ _ _ B5) as [pp Hpp].
  destruct (shape_obj _ _ _ _ Hpp) as (oP & HoP & _ & Harr).
  destruct (js_set_data call h5 P oP CONSTRUCTOR (VRef cl)
              (bd_data _ _ _ _ B5) HoP Harr) as [E|(e & c & E)];
    rewrite E in Hset; [done|]. injection Hset as <-.
  set (h6 := write_prop h5 P CONSTRUCTOR _).
  assert (framed cl P h5 h6) as F6 by (apply framed_write; by right).
  exists P. split; [done|]. split.
  - apply building_write; [done|apply B5|by intros ?%(bd_ne _ _ _ _ B5)|done].
  - done.
  - unfold h6. rewrite shape_write, (fr_shape _ _ _ _ F5),
      (fr_shape _ _ _ _ F4) by (eapply building_P_lt; done).
    unfold h3. by rewrite shape_set_closure.
  - exists e, c. unfold h6. rewrite own_prop_write, decide_True; [done|].
    repeat split. by eexists.
  - intros k Hk.
    destruct (define_loop_member call h0 cl P (base_of h0 d) d od wf refs Hd
                k (forin_keys h0 d) h4 h5 B4 Hloop) as (_ & _ & Hmem).
    assert (own_prop h6 P k = own_prop h5 P k) as E6.
    { unfold h6. rewrite own_prop_write, decide_False; [done|].
      intros (_ & ? & _). done. }
    unfold visited, is_member in *.
    replace (mem k (forin_keys h0 d) &&
             match own (o_props od) k with Some _ => true | None => false end
             && negb (reserved k))
      with (mem k (forin_keys h0 d) &&
            (negb (reserved k) &&
             match own (o_props od) k with Some _ => true | None => false end))
      by (destruct (mem k _), (reserved k), (own (o_props od) k); done).
    destruct (mem k (forin_keys h0 d) && _).
    + by eapply installed_stable.
    + rewrite E6, Hmem. by apply HP4.
  - intros q.
    assert (enum_own h6 (VRef cl) q = enum_own h5 (VRef cl) q) as ->.
    { unfold enum_own, h6. rewrite own_prop_write, decide_False; [done|].
      intros (? & _). by apply (bd_ne _ _ _ _ B5). }
    rewrite (define_loop_static call h0 cl P (base_of h0 d) d od wf refs Hd
               (static_of od) (forin_keys h0 d) h4 h5); [done| |done| |done].
    + intros p Hp. unfold static_of. rewrite Hp.
      pose proof (data0 _ _ _ _ Hd Hp) as Hdat. unfold is_data in Hdat.
      destruct (p_slot p); [by eexists|done].
    + intros q'. unfold enum_own. rewrite Hcl4. unfold h3.
      rewrite own_prop_set_closure. apply Hstat.
  - assert (∃ ini, closure h4 cl = Some (FClass ini (include_of h0 d)))
      as Hini.
    { exists (default_initializer h0 d). rewrite Hcz4. unfold h3.
      rewrite closure_set_closure, decide_True; [done|].
      split; [done|]. apply lookup_lt_is_Some. by eapply building_cl_lt. }
    pose proof (define_loop_initialize call h0 cl P (base_of h0 d) d od
                  wf refs Hd (include_of h0 d) (forin_keys h0 d) h4 h5 B4 Hini Hloop) as Hi.
    unfold visited. destruct (mem INITIALIZE (forin_keys h0 d) && _).
    + destruct Hi as (w & p & v & wr & Ho & Hs & Hc & Hw & Hlt & Hwc & HwP).
      exists w, p, v, wr. unfold h6. rewrite !closure_write, write_prop_length.
      repeat split; try done; lia.
    + unfold h6. rewrite closure_write, Hi, Hcz4. unfold h3.
      rewrite closure_set_closure, decide_True; [done|].
      split; [done|]. apply lookup_lt_is_Some. by eapply building_cl_lt.
Qed.

End CreateSpec.

(** ** Arrays *)

Lemma digit_char r : (r < 10)%N → digit_of (ascii_of_N (48 + r)) = Some r.
Proof.
  intros Hr. rewrite <- (N2Nat.id r).
  assert (N.to_nat r < 10) as Hn by lia. revert Hn.
  generalize (N.to_nat r). intros m Hm.
  do 10 (destruct m as [|m]; [reflexivity|]). lia.
Qed.

Lemma all_digits_digits_of fuel n acc :
  all_digits acc = true → all_digits (digits_of fuel n acc) = true.
Proof.
  revert n acc. induction fuel as [|f IH]; intros n acc Hacc; [done|].
  assert (all_digits (String (ascii_of_N (48 + n mod 10)) acc) = true) as Hd.
  { cbn [all_digits]. rewrite digit_char; [done|].
    by apply N.mod_lt. }
  cbn [digits_of]. destruct (N.eqb (n / 10) 0); [done|]. by apply IH.
Qed.

Lemma digits_of_nonempty fuel n c acc :
  digits_of fuel n (String c acc) ≠ EmptyString.
Proof.
  revert n c acc. induction fuel as [|f IH]; intros n c acc; [done|].
  cbn [digits_of]. destruct (N.eqb (n / 10) 0); [done|]. apply IH.
Qed.

Lemma index_key_slot i : index_or_length (index_key i) = true.
Proof.
  unfold index_or_length. apply orb_true_iff. left.
  pose proof (all_digits_digits_of (S i) (N.of_nat i) EmptyString eq_refl) as H.
  unfold index_key. destruct (digits_of (S i) (N.of_nat i) EmptyString) eqn:E;
    [|done].
  cbn [digits_of] in E. destruct (N.eqb (N.of_nat i / 10) 0); [done|].
  by apply digits_of_nonempty in E.
Qed.

Fixpoint elems_own (o : obj) (i : nat) (ms : list value) : bool :=
  match ms with
  | [] => true
  | m :: r =>
      match own (o_props o) (index_key i) with
      | Some p => match p_slot p with
                  | Data v _ => bool_decide (v = m)
                  | Accessor _ _ => false
                  end
      | None => false
      end && elems_own o (S i) r
  end.

(** [iv] is an array whose elements are [ms], or [undefined] with no
    element: the value of an [include] key. *)
Definition array_elems (h : heap) (iv : value) (ms : list value) : bool :=
  match iv with
  | VUndef => match ms with [] => true | _ => false end
  | VRef a =>
      match h !! a with
      | Some o =>
          o_array o &&
          match own (o_props o) LENGTH with
          | Some p => match p_slot p with
                      | Data (VNum n) _ => Z.eqb n (Z.of_nat (length ms))
                      | _ => false
                      end
          | None => false
          end && elems_own o 0 ms
      | None => false
      end
  | _ => false
  end.

Lemma elems_own_read h a o i ms :
  h !! a = Some o → elems_own o i ms = true →
  elems_from h (VRef a) i ms = true.
Proof.
  intros Ho. revert i. induction ms as [|m r IH]; intros i; [done|].
  cbn [elems_own elems_from]. intros [Hm Hr]%andb_prop.
  rewrite IH by done. rewrite andb_true_r. apply bool_decide_eq_true.
  destruct (own (o_props o) (index_key i)) as [p|] eqn:Hp; [|done].
  destruct (p_slot p) as [v w|] eqn:Hs; [|done].
  apply bool_decide_eq_true in Hm. subst v. by eapply read_own.
Qed.

Lemma array_elems_includes_are h iv ms :
  array_elems h iv ms = true → includes_are h iv ms = true.
Proof.
  unfold array_elems, includes_are. destruct iv as [| | | | |a]; try done.
  destruct (h !! a) as [o|] eqn:Ho; [|done].
  intros [[_ Hl]%andb_prop He]%andb_prop.
  rewrite (elems_own_read _ _ _ _ _ Ho He), andb_true_r.
  apply bool_decide_eq_true.
  destruct (own (o_props o) LENGTH) as [p|] eqn:Hp; [|done].
  destruct (p_slot p) as [[| | |n| |] w|] eqn:Hs; try done.
  apply Z.eqb_eq in Hl. subst n. by eapply read_own.
Qed.

Lemma elems_own_ext o o' i ms :
  (∀ k, index_or_length k = true → own (o_props o') k = own (o_props o) k) →
  elems_own o' i ms = elems_own o i ms.
Proof.
  intros H. revert i. induction ms as [|m r IH]; intros i; [done|].
  cbn [elems_own]. by rewrite IH, H by apply index_key_slot.
Qed.

Lemma array_elems_evolves h h' iv ms :
  evolves h h' → array_elems h iv ms = true → array_elems h' iv ms = true.
Proof.
  intros Hev. unfold array_elems. destruct iv as [| | | | |a]; try done.
  destruct (h !! a) as [o|] eqn:Ho; [|done].
  destruct (Hev a o Ho) as (o' & -> & [_ _ Ha _ Hi]).
  intros [[Harr Hl]%andb_prop He]%andb_prop. rewrite Ha, Harr.
  rewrite (elems_own_ext o o') by auto. rewrite He, Hi; [by rewrite Hl|done..].
Qed.

Lemma building_evolves h0 cl P h : building h0 cl P h → evolves h0 h.
Proof.
  intros B. destruct (building_prefix _ _ _ _ B) as [t ->]. apply evolves_app.
Qed.

(** ** The constructor *)

(** The constructor in the words of the specification: the included
    classes are called on the instance, in the order of the list, each
    with no argument; then the initializer, if there is one, with the
    arguments of the constructor. *)
Definition constructor_spec (call : value → value → list value → M value)
    (initialize : value) (ms : list value) (this : value)
    (arguments : list value) : M value :=
  each (λ m, call m this [] ;;; ret tt) ms ;;;
  match initialize with
  | VUndef => ret tt
  | _ => call initialize this arguments ;;; ret tt
  end ;;;
  ret VUndef.

Lemma call_includes_each call ms : ∀ i a o h this,
  (∀ f this args, preserves (call f this args)) →
  h !! a = Some o → o_array o = true → elems_own o i ms = true →
  call_includes call (length ms) i (VRef a) this h
  = each (λ m, call m this [] ;;; ret tt) ms h.
Proof.
  induction ms as [|m r IH]; intros i a o h this Hp Ho Ha He; [done|].
  cbn [elems_own] in He. apply andb_prop in He as [Hm He].
  destruct (own (o_props o) (index_key i)) as [p|] eqn:Hown; [|done].
  destruct (p_slot p) as [v w|] eqn:Hs; [|done].
  apply bool_decide_eq_true in Hm. subst v.
  cbn [length call_includes each]. unfold bind at 1.
  rewrite (js_get_read call h (VRef a) _ m) by (by eapply read_own).
  unfold bind. pose proof (Hp m this [] h) as Hev.
  destruct (call m this [] h) as [x h2| |]; [|done..]. unfold ret.
  destruct (Hev a o Ho) as (o' & Ho' & [_ _ Ha' _ Hi]).
  eapply IH; [done..|congruence|].
  rewrite (elems_own_ext o o'); [done|]. intros k Hk. by apply Hi.
Qed.

Lemma Class_constructor_spec call initialize iv ms this args h :
  (∀ f this args, preserves (call f this args)) →
  array_elems h iv ms = true →
  Class_constructor call initialize iv this args h
  = constructor_spec call initialize ms this args h.
Proof.
  intros Hp Harr. unfold Class_constructor, constructor_spec.
  unfold bind at 1 4. unfold array_elems in Harr.
  destruct iv as [| | | | |a]; try done.
  { by destruct ms. }
  destruct (h !! a) as [o|] eqn:Ho; [|done].
  apply andb_prop in Harr as [[Ha Hl]%andb_prop He].
  destruct (own (o_props o) LENGTH) as [p|] eqn:Hown; [|done].
  destruct (p_slot p) as [[| | |n| |] w|] eqn:Hs; try done.
  apply Z.eqb_eq in Hl. subst n.
  unfold bind at 1.
  rewrite (js_get_read call h (VRef a) _ (VNum (Z.of_nat (length ms))))
    by (by eapply read_own).
  unfold bind at 1. unfold loop_bound, ret at 1. rewrite Nat2Z.id.
  by rewrite (call_includes_each call ms 0 a o h this Hp Ho Ha He).
Qed.

(** ** Members that the loop visits *)

Lemma visited_enum h0 d od k :
  h0 !! d = Some od →
  visited h0 d od k
  = match enum_own h0 (VRef d) k with Some _ => true | None => false end.
Proof.
  intros Hd. unfold visited, enum_own, own_prop. rewrite Hd.
  destruct (own (o_props od) k) as [p|] eqn:Hown; [|by rewrite andb_false_r].
  rewrite andb_true_r. destruct (p_enum p) eqn:He.
  - apply mem_In, forin_keys_spec. exists p. split; [|done].
    by eapply lookup_prop_own.
  - destruct (mem k (forin_keys h0 d)) eqn:Hm; [|done].
    apply mem_In, forin_keys_spec in Hm as (p' & Hp' & He').
    rewrite (lookup_prop_own _ _ _ _ _ Hd Hown) in Hp'. congruence.
Qed.

(** * The class that [create] returns *)

(** The member the definition itself declares under the name [k]: an
    own enumerable property that is not one of the keywords. *)
Definition member (h : heap) (d : loc) (k : string) : option prop :=
  if reserved k then None else enum_own h (VRef d) k.

(** The [static] block of the definition. *)
Definition static_block (h : heap) (d : loc) : value :=
  match enum_own h (VRef d) STATIC with
  | Some p => match p_slot p with Data v _ => v | Accessor _ _ => VUndef end
  | None => VUndef
  end.

(** The [initialize] of the definition. *)
Definition initialize_of (h : heap) (d : loc) : option value :=
  match enum_own h (VRef d) INITIALIZE with
  | Some p => match p_slot p with Data v _ => Some v | Accessor _ _ => None end
  | None => None
  end.

(** What the instances of the class find under [k]: the property found
    from the prototype object [P]. *)
Definition effective (h : heap) (P : loc) (k : string) : option prop :=
  lookup_prop h P k.

Section Created.

Variables (fuel : nat) (h : heap) (d : loc) (od : obj) (ms : list value).
Variables (C : loc) (h' : heap).
Hypothesis Hord : ordinary h = true.
Hypothesis Hd : h !! d = Some od.
Hypothesis Hms : array_elems h (include_of h d) ms = true.
Hypothesis Hrun : Clazzy_create fuel (VRef d) h = Ret (VRef C) h'.

Lemma created_class : ∃ P, created h d od ms C P h'.
Proof.
  destruct (create_spec (call fuel) h d od ms (ordinary_wf _ Hord)
              (ordinary_refs _ Hord) (ordinary_data _ Hord) Hd
              (array_elems_includes_are _ _ _ Hms) _ _ Hrun)
    as (P & [= ->] & HC). by exists P.
Qed.

Lemma created_prefix : ∃ t, h' = h ++ t.
Proof.
  destruct created_class as [P HC].
  apply (building_prefix _ _ _ _ (cr_building _ _ _ _ _ _ _ HC)).
Qed.

Lemma created_old_closure l f : closure h l = Some f → closure h' l = Some f.
Proof.
  destruct created_prefix as [t ->]. intros Hc. rewrite closure_app; [done|].
  unfold closure in Hc. destruct (h !! l) eqn:E; [|done].
  by eapply lookup_lt_Some.
Qed.

Lemma created_prototype P :
  created h d od ms C P h' → read h' (VRef C) PROTOTYPE = Some (VRef P).
Proof.
  intros HC. pose proof (bd_link _ _ _ _ (cr_building _ _ _ _ _ _ _ HC)) as Hl.
  unfold own_prop in Hl. destruct (h' !! C) as [o|] eqn:Ho; [|done].
  by eapply read_own.
Qed.

Lemma created_member P k p :
  created h d od ms C P h' → k ≠ CONSTRUCTOR →
  member h d k = Some p →
  own (o_props od) k = Some p ∧ installed h C P (base_of h d) od k h'.
Proof.
  intros HC Hk Hm. pose proof (cr_member _ _ _ _ _ _ _ HC k Hk) as Hi.
  unfold member in Hm. destruct (reserved k); [done|].
  rewrite (visited_enum _ _ _ _ Hd), Hm in Hi. simpl in Hi. split; [|done].
  unfold enum_own, own_prop in Hm. rewrite Hd in Hm.
  destruct (own (o_props od) k) as [q|]; [|done].
  destruct (p_enum q); [|done]. done.
Qed.

Lemma created_not_member P k :
  created h d od ms C P h' → k ≠ CONSTRUCTOR →
  member h d k = None →
  own_prop h' P k = included h ms k.
Proof.
  intros HC Hk Hm. pose proof (cr_member _ _ _ _ _ _ _ HC k Hk) as Hi.
  unfold member in Hm. destruct (reserved k).
  - by rewrite andb_false_r in Hi.
  - rewrite (visited_enum _ _ _ _ Hd), Hm in Hi. done.
Qed.

End Created.

Lemma included_snoc h ms m k :
  included h (ms ++ [m]) k = later (included h ms k) (mixin_members h m k).
Proof. unfold included. by rewrite fold_left_app. Qed.

Lemma effective_own h P k q :
  own_prop h P k = Some q → effective h P k = Some q.
Proof.
  unfold own_prop, effective. destruct (h !! P) as [o|] eqn:Ho; [|done].
  intros Hq. by eapply lookup_prop_own.
Qed.

Lemma proto_link_valid h d od bp :
  ordinary h = true → h !! d = Some od →
  proto_link h d = Some bp → bp < length h.
Proof.
  intros Hord Hd. unfold proto_link.
  assert (0 < length h) by (apply lookup_lt_Some in Hd; lia).
  destruct (extend_of h d) as [| | | | |b]; try done.
  1: { intros [= <-]. done. }
  destruct (read h (VRef b) PROTOTYPE) as [[| | | | |x]|] eqn:E; try done.
  intros [= <-]. eapply read_value_valid; [by apply ordinary_refs|done].
Qed.

Lemma effective_inherited h d od ms C P h' k :
  ordinary h = true → h !! d = Some od →
  created h d od ms C P h' →
  own_prop h' P k = None →
  effective h' P k = match proto_link h d with
                     | Some bp => lookup_prop h bp k
                     | None => None
                     end.
Proof.
  intros Hord Hd HC Hown. pose proof (cr_building _ _ _ _ _ _ _ HC) as B.
  destruct (shape_obj _ _ _ _ (cr_shape _ _ _ _ _ _ _ HC)) as (oP & HoP & Hpr & _).
  unfold own_prop in Hown. rewrite HoP in Hown.
  pose proof (building_cl_lt _ _ _ _ B). pose proof (building_P_lt _ _ _ _ B).
  pose proof (bd_cl _ _ _ _ B). pose proof (bd_P _ _ _ _ B).
  pose proof (bd_ne _ _ _ _ B).
  unfold effective, lookup_prop.
  destruct (length h') as [|n] eqn:En; [lia|]. simpl.
  rewrite HoP, Hown, Hpr.
  destruct (proto_link h d) as [bp|] eqn:Hbp; [|done].
  pose proof (proto_link_valid _ _ _ _ Hord Hd Hbp) as Hlt.
  destruct (building_prefix _ _ _ _ B) as [t ->].
  rewrite (find_prop_app n h t) by (try apply ordinary_wf; done || lia).
  rewrite <- (app_nil_r h) at 3. symmetry.
  apply find_prop_app; [by apply ordinary_wf|done..].
Qed.

Lemma installed_callable h C P base od k h' p v wr :
  own (o_props od) k = Some p → p_slot p = Data v wr →
  is_callable h v = true →
  installed h C P base od k h' →
  ∃ w e c, own_prop h' P k = Some (Prop_ (Data (VRef w) true) e c) ∧
           closure h' w = Some (FWrapped v k base).
Proof.
  intros Ho Hs Hc. unfold installed. rewrite Ho, Hs, Hc.
  intros (w & e & c & ? & ? & _). by exists w, e, c.
Qed.

Lemma installed_data h C P base od k h' p v wr :
  own (o_props od) k = Some p → p_slot p = Data v wr →
  is_callable h v = false →
  installed h C P base od k h' → own_prop h' P k = Some p.
Proof. intros Ho Hs Hc. unfold installed. by rewrite Ho, Hs, Hc. Qed.

Lemma noSuper_raises n this args h :
  closure h noSuper_ = Some FNoSuper →
  call (S n) (VRef noSuper_) this args h
  = Throw (Error "Cannot call super, this method does not override a parent method") h.
Proof.
  unfold closure. simpl. destruct (h !! noSuper_) as [o|]; [|done].
  by intros ->.
Qed.

(** ** Statics *)

(** C6.  The enumerable own properties of a created class are exactly
    the enumerable own properties of the [static] block of its
    definition.  The class is linked to [Function.prototype], not to its
    base, so a static of the base or of an included class is on the new
    class only if the block declares it too. *)
Theorem statics_are_the_static_block fuel h d od ms C h' :
  ordinary h = true → h !! d = Some od →
  array_elems h (include_of h d) ms = true →
  Clazzy_create fuel (VRef d) h = Ret (VRef C) h' →
  (∀ q, enum_own h' (VRef C) q = enum_own h (static_block h d) q) ∧
  shape h' C = Some (Some FunctionPrototype, false) ∧
  (∀ (B : value) q p, enum_own h B q = Some p →
     enum_own h (static_block h d) q = None →
     enum_own h' (VRef C) q = None).
Proof.
  intros Hord Hd Hms Hrun.
  destruct (created_class fuel h d od ms C h' Hord Hd Hms Hrun) as [P HC].
  assert (∀ q, enum_own h' (VRef C) q = enum_own h (static_block h d) q) as Hs.
  { intros q. rewrite (cr_static _ _ _ _ _ _ _ HC), (visited_enum _ _ _ _ Hd).
    unfold static_block, static_of.
    destruct (enum_own h (VRef d) STATIC) as [p|] eqn:E; [|done].
    unfold enum_own, own_prop in E. rewrite Hd in E.
    destruct (own (o_props od) STATIC) as [p'|]; [|done].
    destruct (p_enum p'); [|done]. by injection E as ->. }
  split; [done|]. split; [apply (cr_building _ _ _ _ _ _ _ HC)|].
  intros B q p _ Hn. by rewrite Hs.
Qed.

(** ** The initializer and the constructor *)


(** The initializer that [create] resolves. *)
Definition resolved_initializer (h : heap) (d : loc) (h' : heap)
    (ini : value) : Prop :=
  match initialize_of h d with
  | Some v => ∃ w, ini = VRef w ∧
                   closure h' w = Some (FWrapped v CONSTRUCTOR (base_of h d))
  | None => ini = default_initializer h d
  end.

Lemma created_initializer fuel h d od ms C h' :
  ordinary h = true → h !! d = Some od →
  array_elems h (include_of h d) ms = true →
  Clazzy_create fuel (VRef d) h = Ret (VRef C) h' →
  ∃ ini, closure h' C = Some (FClass ini (include_of h d)) ∧
         resolved_initializer h d h' ini.
Proof.
  intros Hord Hd Hms Hrun.
  destruct (created_class fuel h d od ms C h' Hord Hd Hms Hrun) as [P HC].
  pose proof (cr_closure _ _ _ _ _ _ _ HC) as Hcz.
  rewrite (visited_enum _ _ _ _ Hd) in Hcz.
  unfold resolved_initializer, initialize_of.
  destruct (enum_own h (VRef d) INITIALIZE) as [p|] eqn:E.
  - destruct Hcz as (w & p' & v & wr & Ho & Hs & Hc & Hw & _).
    exists (VRef w). split; [done|].
    unfold enum_own, own_prop in E. rewrite Hd, Ho in E.
    destruct (p_enum p'); [|done]. injection E as <-. rewrite Hs. by exists w.
  - by exists (default_initializer h d).
Qed.

Lemma created_constructor fuel h d od ms C h' ini n this args hh :
  ordinary h = true → h !! d = Some od →
  array_elems h (include_of h d) ms = true →
  Clazzy_create fuel (VRef d) h = Ret (VRef C) h' →
  closure h' C = Some (FClass ini (include_of h d)) →
  evolves h' hh →
  call (S n) (VRef C) this args hh
  = constructor_spec (call n) ini ms this args hh.
Proof.
  intros Hord Hd Hms Hrun Hc Hev.
  destruct (created_class fuel h d od ms C h' Hord Hd Hms Hrun) as [P HC].
  rewrite (call_Class n C ini (include_of h d) this args hh)
    by (by eapply closure_evolves).
  apply Class_constructor_spec; [apply call_preserves|].
  eapply array_elems_evolves; [|done].
  eapply evolves_trans; [|done].
  eapply building_evolves, HC.
Qed.



(** ** Superclass dispatch *)

(** The handle a wrapper binds, looked up in the heap of the call:
    [base.prototype[signature] || noSuper] (line 147). *)
Definition dispatch_handle (m : value) : value :=
  if truthy m then m else VRef noSuper_.

Lemma wrapper_binds fuel w method signature base t args hh proto m :
  closure hh w = Some (FWrapped method signature base) →
  assignable hh t SUPER = true →
  read hh base PROTOTYPE = Some proto →
  read hh proto signature = Some m →
  ∃ tmp h1,
    read h1 (VRef t) SUPER = Some (dispatch_handle m) ∧
    call (S fuel) (VRef w) (VRef t) args hh
    = finally (call fuel method (VRef t) args)
              (js_set (call fuel) (VRef t) SUPER tmp) h1.
Proof.
  intros Hw Ha Hp Hm.
  destruct (super_wrapper_run (call fuel) method signature base t args hh
              proto m Ha Hp Hm) as (tmp & e & c & Htmp & Hrun).
  exists tmp. eexists. split; [|by rewrite (call_wrapped _ _ _ _ _ _ _ _ Hw)].
  apply read_write_prop. unfold assignable in Ha.
  destruct (hh !! t); [by eexists|done].
Qed.





(** ** The handle around a call *)


(** * How [create] can fail *)

Definition reserved_error : exn :=
  Error "Cannot create class, `super` is a reserved method name.".

(** The objects of [h0] are in [a] as they were. *)
Definition old_same (h0 a : heap) : Prop :=
  ∀ l, l < length h0 → a !! l = h0 !! l.

(** A number, a string or a boolean.  Where the code reads a property
    of such a value, or enumerates it, the host boxes it; the model
    leaves that out. *)
Definition primitive (v : value) : bool :=
  match v with
  | VBool _ | VNum _ | VStr _ => true
  | _ => false
  end.

(** The ways a step of [create] ends on a heap of data properties: with
    a result that satisfies [Q]; with a TypeError of the host or the
    reserved-name error, the objects of [h0] being as they were; or, when
    [U] holds, on a host behaviour the model does not cover. *)
Definition ends (h0 : heap) (U : Prop) {A} (Q : A → heap → Prop)
    (r : outcome A) : Prop :=
  match r with
  | Ret x b => Q x b
  | Throw e b => (e = TypeError ∨ e = reserved_error) ∧ old_same h0 b
  | Abort r => r = Unmodelled ∧ U
  end.

Lemma ends_bind h0 U {A B} (m : M A) (k : A → M B) Q1 Q2 a :
  ends h0 U Q1 (m a) → (∀ x b, Q1 x b → ends h0 U Q2 (k x b)) →
  ends h0 U Q2 (bind m k a).
Proof.
  unfold bind. destruct (m a) as [x b| |]; simpl; [|done..].
  intros H1 H2. by apply H2.
Qed.

Lemma ends_weaken h0 U {A} (Q1 Q2 : A → heap → Prop) r :
  ends h0 U Q1 r → (∀ x b, Q1 x b → Q2 x b) → ends h0 U Q2 r.
Proof. destruct r; simpl; auto. Qed.

Lemma building_old h0 cl P a : building h0 cl P a → old_same h0 a.
Proof. intros B. exact (bd_old _ _ _ _ B). Qed.

(** Closes the outcomes that are a failure with the heap in hand. *)
Ltac failed := simpl; first [done | split; [auto|done] | split; [done|auto]].

Section Ends.

Variable call : value → value → list value → M value.
Variables (h0 : heap) (cl : loc) (U : Prop).
Hypothesis wf : wf_heap h0.
Hypothesis refs : refs_valid h0.
Hypothesis data0 : data_heap h0.

(** Reading a property of a value the caller made. *)
Lemma js_get_old P v k a :
  building h0 cl P a →
  (primitive v = true → U) →
  (∀ l, v = VRef l → l < length h0) →
  ends h0 U (λ x b, b = a ∧ read h0 v k = Some x) (js_get call v k a).
Proof.
  intros B HU Hv. pose proof (building_old _ _ _ _ B) as Ho.
  destruct v as [| | | | |l]; try failed.
  specialize (Hv l eq_refl).
  destruct (read_data h0 l k data0 (lookup_lt_is_Some_2 _ _ Hv)) as [x Hx].
  rewrite (js_get_read call a (VRef l) k x)
    by (by rewrite (old_read _ _ _ _ wf B)).
  done.
Qed.

Lemma read_old_valid v k x :
  read h0 v k = Some x → ∀ l, x = VRef l → l < length h0.
Proof.
  intros Hx l ->. destruct v; try done. by eapply read_value_valid.
Qed.

Lemma js_set_ends l k v a :
  data_heap a → old_same h0 a → (∃ pp, shape a l = Some (pp, false)) →
  ends h0 U (λ _ b, ∃ e c, b = write_prop a l k (Prop_ (Data v true) e c))
       (js_set call (VRef l) k v a).
Proof.
  intros Hd Ho [pp Hs]. apply shape_obj in Hs as (o & Hl & _ & Ha).
  destruct (js_set_data call a l o k v Hd Hl Ha) as [->|(e & c & ->)];
    simpl; [auto|by eauto].
Qed.

Lemma defineProperty_ends l k d a :
  old_same h0 a → (∃ pp, shape a l = Some (pp, false)) →
  ends h0 U (λ _ b, b = write_prop a l k d ∧
                    ∀ cur, own_prop a l k = Some cur → compatible cur d = true)
       (defineProperty (VRef l) k d a).
Proof.
  intros Ho [pp Hs]. apply shape_obj in Hs as (o & Hl & _ & Ha).
  destruct (defineProperty_cases a l o k d Hl Ha) as [->|[-> Hc]];
    simpl; [auto|]. split; [done|]. unfold own_prop. by rewrite Hl.
Qed.

Lemma each_ends {A} (f : A → M unit) (I : heap → Prop) keys :
  (∀ x a, In x keys → I a → ends h0 U (λ _ b, I b) (f x a)) →
  ∀ a, I a → ends h0 U (λ _ b, I b) (each f keys a).
Proof.
  induction keys as [|x r IH]; intros Hf a Ha; [done|].
  cbn [each]. eapply ends_bind; [apply Hf; [by left|done]|].
  intros [] b Hb. apply IH; [|done]. intros y c Hy. apply Hf. by right.
Qed.

(** A loop that meets a step which cannot return never returns. *)
Lemma each_never {A} (f : A → M unit) (I : heap → Prop) keys x0 :
  (∀ x a, In x keys → I a → ends h0 U (λ _ b, I b) (f x a)) →
  (∀ a, I a → ends h0 U (λ _ _, False) (f x0 a)) →
  In x0 keys →
  ∀ a, I a → ends h0 U (λ _ _, False) (each f keys a).
Proof.
  induction keys as [|x r IH]; intros Hf H0 Hin a Ha; [done|].
  cbn [each]. destruct Hin as [->|Hin].
  - eapply ends_bind; [by apply H0|]. by intros [] b [].
  - eapply ends_bind; [apply Hf; [by left|done]|].
    intros [] b Hb. apply IH; try done. intros y c Hy. apply Hf. by right.
Qed.

(** [copyProperties(member, Class, false)]: the statics. *)
Lemma copy_statics_ends P v a :
  (primitive v = true → U) →
  (∀ s, v = VRef s → s < length h0) →
  building h0 cl P a →
  ends h0 U (λ _ b, building h0 cl P b) (copyProperties v (VRef cl) false a).
Proof.
  intros HU Hv B. unfold copyProperties.
  pose proof (building_old _ _ _ _ B) as Ho.
  destruct v as [| | | | |s]; try (failed || exact B).
  specialize (Hv s eq_refl).
  destruct (lookup_lt_is_Some_2 h0 s Hv) as [os Hos].
  unfold bind at 1.
  rewrite (for_in_obj _ _ _ (old_obj _ _ _ _ B _ _ Hos)),
    (old_forin_keys _ _ _ _ wf B) by done.
  apply each_ends; [|done]. clear a B Ho. intros k a Hk B.
  unfold bind.
  rewrite (hasOwnProperty_obj _ _ _ _ (old_obj _ _ _ _ B _ _ Hos)).
  destruct (own (o_props os) k) as [p|] eqn:Hown; [|done].
  apply forin_keys_spec in Hk as (p' & Hp' & He).
  rewrite (lookup_prop_own _ _ _ _ _ Hos Hown) in Hp'. injection Hp' as <-.
  unfold copyProperty, getPropertyDescriptor, bind.
  rewrite (getOwnPropertyDescriptor_obj _ _ _ _ (old_obj _ _ _ _ B _ _ Hos)),
    Hown. unfold ret.
  eapply ends_weaken.
  { apply defineProperty_ends; [by eapply building_old|].
    eexists. apply B. }
  intros [] b [-> Hc]. apply building_write; [done|apply B| |].
  - intros _ ->. specialize (Hc _ (bd_link _ _ _ _ B)).
    by rewrite compatible_prototype in Hc.
  - eapply (bd_data _ _ _ _ B); [|done]. by eapply old_obj.
Qed.

(** One member of the definition: either the class under construction
    is still well formed, or the step has failed cleanly. *)
Lemma define_ends P base d od k a :
  h0 !! d = Some od →
  (primitive (static_of od) = true → U) →
  building h0 cl P a →
  ends h0 U (λ _ b, building h0 cl P b) (define call cl base (VRef d) k a).
Proof.
  intros Hd HU B. pose proof (old_obj _ _ _ _ B _ _ Hd) as Hdh.
  pose proof (building_old _ _ _ _ B) as Ho.
  unfold define. unfold bind at 1. rewrite (hasOwnProperty_obj _ _ _ _ Hdh).
  destruct (own (o_props od) k) as [p|] eqn:Hown; [|done].
  assert (is_data p = true) as Hp by (eapply (bd_data _ _ _ _ B); done).
  unfold is_data in Hp. destruct (p_slot p) as [v w|] eqn:Hs; [|done].
  assert (∀ s, v = VRef s → s < length h0) as Hv.
  { intros s ->. destruct p as [sl e c]. simpl in Hs. subst sl.
    by eapply refs. }
  unfold bind at 1.
  rewrite (js_get_read call a (VRef d) k v) by (eapply read_own; done).
  destruct (String.eqb k INITIALIZE).
  { unfold bind. rewrite wrapMethodToHaveSuper_run.
    destruct (bd_closure _ _ _ _ B) as (ini & inc & Hc).
    pose proof (building_cl_lt _ _ _ _ B) as Hlt.
    erewrite assign_initialize_run by (rewrite closure_app; done).
    apply building_set_closure, building_app;
      [done|apply data_function_objects]. }
  destruct (String.eqb k EXTEND || String.eqb k INCLUDE); [done|].
  destruct (String.eqb k STATIC) eqn:Est.
  { apply String.eqb_eq in Est. subst k. apply copy_statics_ends; try done.
    intros Hpv. apply HU. unfold static_of. by rewrite Hown, Hs. }
  destruct (String.eqb k SUPER); [failed|].
  unfold typeof_function. unfold bind at 1. destruct (is_callable a v).
  - unfold bind at 1. rewrite (class_prototype _ _ _ _ B).
    unfold bind at 1. rewrite wrapMethodToHaveSuper_run.
    set (h1 := a ++ _).
    assert (building h0 cl P h1) as B1
      by (apply building_app; [done|apply data_function_objects]).
    eapply ends_weaken.
    { apply js_set_ends; [apply B1|by eapply building_old|apply B1]. }
    intros [] b (e & c & ->).
    apply building_write; [done|apply B| |done].
    by intros ?%(bd_ne _ _ _ _ B).
  - unfold bind at 1. rewrite (class_prototype _ _ _ _ B).
    unfold copyProperty, getPropertyDescriptor, bind.
    rewrite (getOwnPropertyDescriptor_obj _ _ _ _ Hdh), Hown. unfold ret.
    eapply ends_weaken.
    { apply defineProperty_ends; [done|apply B]. }
    intros [] b [-> _]. apply building_write; [done|apply B| |].
    + by intros ?%(bd_ne _ _ _ _ B).
    + unfold is_data. by rewrite Hs.
Qed.

(** The reserved name: the step that meets an own [super] member of the
    definition raises, whatever the member is. *)
Lemma define_super P base d od p a :
  h0 !! d = Some od →
  own (o_props od) SUPER = Some p →
  building h0 cl P a →
  define call cl base (VRef d) SUPER a = Throw reserved_error a.
Proof.
  intros Hd Hown B. pose proof (old_obj _ _ _ _ B _ _ Hd) as Hdh.
  unfold define. unfold bind at 1. rewrite (hasOwnProperty_obj _ _ _ _ Hdh).
  rewrite Hown.
  assert (is_data p = true) as Hp by (eapply (bd_data _ _ _ _ B); done).
  unfold is_data in Hp. destruct (p_slot p) as [v w|] eqn:Hs; [|done].
  unfold bind at 1.
  by rewrite (js_get_read call a (VRef d) SUPER v) by (eapply read_own; done).
Qed.

End Ends.

(** The lengths the loop over [includes] can count up to, and the bound
    it reaches. *)
Definition countable (l : value) : bool :=
  match l with VStr _ | VRef _ => false | _ => true end.

Definition bound_of (l : value) : nat :=
  match l with
  | VNum n => Z.to_nat n
  | VBool true => 1
  | _ => 0
  end.

(** The definition makes [create] read a property of a number, a string
    or a boolean ([extend], [include], an element of [include] or
    [static] is one), or count up to a length that is not a number: the
    behaviours of the host that the model leaves out. *)
Definition leaves_model (h : heap) (d : loc) (od : obj) : bool :=
  let iv := include_of h d in
  let l := default VUndef (read h iv LENGTH) in
  primitive (extend_of h d) || primitive iv || primitive (static_of od)
  || negb (countable l)
  || existsb (λ j, primitive (default VUndef (read h iv (index_key j))))
             (seq 0 (bound_of l)).

(** The link of [Object.create(p)]. *)
Definition link_of (p : value) : option loc :=
  match p with VRef l => Some l | _ => None end.

Section EndsCreate.

Variable call : value → value → list value → M value.
Variables (h0 : heap) (d : loc) (od : obj) (U : Prop).
Hypothesis wf : wf_heap h0.
Hypothesis refs : refs_valid h0.
Hypothesis data0 : data_heap h0.
Hypothesis Hd : h0 !! d = Some od.

Lemma object_create_ends p a :
  old_same h0 a →
  ends h0 U (λ x b, primitive p = false ∧ x = VRef (length a) ∧
                    b = a ++ [Obj (link_of p) [] None false])
       (object_create p a).
Proof.
  intros Ho. unfold object_create, bind, alloc, ret, throw.
  destruct p; try failed.
Qed.

Lemma createAnUnconstructedInstanceOfClass_ends cl P v a :
  building h0 cl P a →
  (primitive v = true → U) →
  (∀ l, v = VRef l → l < length h0) →
  ends h0 U (λ x b, ∃ p, read h0 v PROTOTYPE = Some p ∧
                         primitive p = false ∧
                         x = VRef (length a) ∧
                         b = a ++ [Obj (link_of p) [] None false])
       (createAnUnconstructedInstanceOfClass call v a).
Proof.
  intros B HU Hv. unfold createAnUnconstructedInstanceOfClass.
  eapply ends_bind; [by eapply js_get_old|].
  intros p b [-> Hp]. eapply ends_weaken.
  { apply object_create_ends. by eapply building_old. }
  intros x b (Hprim & -> & ->). by exists p.
Qed.

Lemma building_fresh cl P a pr :
  building h0 cl P a → building h0 cl P (a ++ [Obj pr [] None false]).
Proof. intros B. apply building_app; [done|]. by intros o k p [<-|[]]. Qed.

(** [copyProperties(include, Class.prototype, true)], for the
    unconstructed instance [inst]. *)
Lemma copy_mixin_ends cl P inst pr a :
  building h0 cl P a →
  a !! inst = Some (Obj pr [] None false) →
  (∀ mp, pr = Some mp → mp < length h0) →
  inst ≠ P → inst ≠ cl →
  ends h0 U (λ _ b, building h0 cl P b)
       (copyProperties (VRef inst) (VRef P) true a).
Proof.
  intros B Hi Hpr HiP Hic. unfold copyProperties. unfold bind at 1.
  rewrite (for_in_obj _ _ _ Hi). destruct pr as [mp|].
  - specialize (Hpr mp eq_refl).
    assert (forin_keys a inst = forin_keys h0 mp) as E.
    { unfold forin_keys. pose proof (lookup_lt_Some _ _ _ Hi) as Hlt.
      destruct (length a) as [|n] eqn:En; [lia|]. simpl. rewrite Hi. simpl.
      pose proof (building_cl_lt _ _ _ _ B) as Hcl.
      pose proof (bd_cl _ _ _ _ B).
      destruct (building_prefix _ _ _ _ B) as [t ->].
      rewrite length_app in En, Hcl.
      rewrite (forin_chain_app n h0 t) by (done || lia).
      rewrite <- (app_nil_r h0) at 3. symmetry. by apply forin_chain_app. }
    rewrite E. eapply ends_weaken.
    { apply (each_ends h0 U _
               (λ b, building h0 cl P b ∧
                     b !! inst = Some (Obj (Some mp) [] None false)));
        [|done].
      intros k b Hk (Bb & Hib). unfold bind at 1, ret.
      apply forin_keys_spec in Hk as (dd & Hdd & He).
      unfold copyProperty, getPropertyDescriptor, bind.
      rewrite (getOwnPropertyDescriptor_obj _ _ _ _ Hib). simpl.
      rewrite (climb_find (length b) b inst _ k dd Hib eq_refl); cycle 1.
      { simpl. rewrite Hib. simpl.
        by rewrite <- (old_lookup_prop _ _ _ _ wf Bb) in Hdd. }
      eapply ends_weaken.
      { apply defineProperty_ends; [by eapply building_old|apply Bb]. }
      intros [] c [-> _]. split.
      - apply building_write;
          [done|apply Bb|by intros ?%(bd_ne _ _ _ _ Bb)|].
        eapply lookup_prop_data; [apply data0|done].
      - by rewrite write_prop_lookup_ne. }
    by intros [] b (Bb & _).
  - destruct (forin_keys a inst) as [|k r] eqn:E; [exact B|]. exfalso.
    assert (In k (forin_keys a inst)) as Hk by (rewrite E; by left).
    apply forin_keys_spec in Hk as (dd & Hdd & _).
    unfold lookup_prop in Hdd.
    destruct (length a); simpl in Hdd; [done|]. by rewrite Hi in Hdd.
Qed.

(** The loop over [includes]. *)
Lemma mixin_ends cl P iv n i a :
  building h0 cl P a →
  (primitive iv = true → U) →
  (∀ l, iv = VRef l → l < length h0) →
  (∀ j x, i ≤ j → j < i + n → read h0 iv (index_key j) = Some x →
          primitive x = true → U) →
  ends h0 U (λ _ b, building h0 cl P b) (mixin call n i cl iv a).
Proof.
  revert i a. induction n as [|n IH]; intros i a B HU Hv He; [done|].
  cbn [mixin].
  eapply ends_bind; [by eapply js_get_old|].
  intros inc b [-> Hinc].
  eapply ends_bind.
  { eapply createAnUnconstructedInstanceOfClass_ends; [done| |].
    - apply (He i inc); [lia|lia|done].
    - by eapply read_old_valid. }
  intros inst b (p & Hp & _ & -> & ->).
  pose proof (building_fresh _ _ _ (link_of p) B) as B'.
  unfold bind at 1. rewrite (class_prototype _ _ _ _ B').
  pose proof (building_P_lt _ _ _ _ B). pose proof (building_cl_lt _ _ _ _ B).
  eapply ends_bind.
  { apply (copy_mixin_ends cl P (length a) (link_of p)); [done| | |lia|lia].
    - rewrite lookup_app_r by lia. by rewrite Nat.sub_diag.
    - intros mp Hmp. destruct p; try done. injection Hmp as ->.
      by eapply (read_old_valid h0 refs inc PROTOTYPE). }
  intros [] b Bb. apply IH; try done.
  intros j x Hj1 Hj2. apply He; lia.
Qed.

Let cl := length h0.
Let h1 := h0 ++ [function_object (FClass VUndef VUndef) "Class" (S cl);
                 prototype_object cl].

(** Step 2: the base, the link to its prototype and its constructor. *)
Lemma inherit_ends e :
  (primitive e = true → U) →
  (∀ l, e = VRef l → l < length h0) →
  ends h0 U (λ _ b, ∃ P, building h0 cl P b)
    (match e with
     | VUndef => ret (VRef Object_)
     | _ =>
         inst <- createAnUnconstructedInstanceOfClass call e ;;
         js_set call (VRef cl) PROTOTYPE inst ;;;
         proto <- js_get call e PROTOTYPE ;;
         c <- js_get call proto CONSTRUCTOR ;;
         assign_initialize cl c ;;;
         ret e
     end h1).
Proof.
  intros HU Hv.
  pose proof (make_function_building h0 data0) as B1. fold cl h1 in B1.
  pose proof (building_old _ _ _ _ B1) as Ho1.
  assert (ends h0 U (λ _ b, ∃ P, building h0 cl P b)
            ((inst <- createAnUnconstructedInstanceOfClass call e ;;
              js_set call (VRef cl) PROTOTYPE inst ;;;
              proto <- js_get call e PROTOTYPE ;;
              c <- js_get call proto CONSTRUCTOR ;;
              assign_initialize cl c ;;;
              ret e) h1)) as Hgen.
  2: { destruct e; try exact Hgen. simpl. by exists (S cl). }
  eapply ends_bind;
    [by eapply createAnUnconstructedInstanceOfClass_ends|].
  intros inst b (p & Hp & Hprim & -> & ->).
  pose proof (building_fresh _ _ _ (link_of p) B1) as B1'.
  set (inst := length h1) in *. set (h1' := h1 ++ _) in *.
  assert (length h1 = S (S cl)) as Hlen1.
  { unfold h1. rewrite length_app. simpl. unfold cl. lia. }
  assert (h1 !! cl = Some (function_object (FClass VUndef VUndef) "Class" (S cl)))
    as Hc.
  { unfold h1. rewrite lookup_app_r by (unfold cl; lia).
    by rewrite Nat.sub_diag. }
  assert (h1' !! inst = Some (Obj (link_of p) [] None false)) as Hi.
  { unfold h1'. rewrite lookup_app_r by (unfold inst; lia).
    by rewrite Nat.sub_diag. }
  assert (h1' !! cl = Some (function_object (FClass VUndef VUndef) "Class" (S cl)))
    as Hc'.
  { unfold h1'. rewrite lookup_app_l by lia. done. }
  assert (js_set call (VRef cl) PROTOTYPE (VRef inst) h1'
          = Ret tt (write_prop h1' cl PROTOTYPE
                      (Prop_ (Data (VRef inst) true) false false))) as E.
  { unfold js_set. rewrite Hc'.
    erewrite lookup_prop_own by done. done. }
  unfold bind at 1. rewrite E.
  set (h2' := write_prop h1' cl PROTOTYPE _) in *.
  assert (building h0 cl inst h2') as B2.
  { destruct B1' as [Ho Hcl HPl Hne Hs Hk Hcz Hpp Hdat]. split.
    - intros l Hl. unfold h2'. rewrite write_prop_lookup_ne by (unfold cl; lia).
      by apply Ho.
    - done.
    - unfold inst. lia.
    - unfold inst. lia.
    - unfold h2'. by rewrite shape_write.
    - unfold h2'. rewrite own_prop_write, decide_True; [done|].
      repeat split. by eexists.
    - unfold h2'. destruct Hcz as (i & j & ?). exists i, j.
      by rewrite closure_write.
    - exists (link_of p). unfold h2'. rewrite shape_write. unfold shape.
      by rewrite Hi.
    - by apply data_heap_write. }
  eapply ends_bind; [by eapply js_get_old|].
  intros proto b [-> Hproto].
  eapply ends_bind.
  { apply (js_get_old call h0 cl U wf data0 inst proto CONSTRUCTOR h2' B2);
      [|by eapply read_old_valid].
    rewrite Hp in Hproto. injection Hproto as <-. by rewrite Hprim. }
  intros c b [-> _].
  destruct (bd_closure _ _ _ _ B2) as (ini & inc & Hcz).
  unfold bind. erewrite assign_initialize_run by done. simpl.
  exists inst. by apply building_set_closure.
Qed.

(** A definition with an own enumerable [super] key never yields a
    class: [create] raises, and what it raises is the reserved-name
    error or a TypeError of a step that came before the key. *)
Lemma create_reserved p :
  own (o_props od) SUPER = Some p → p_enum p = true →
  (primitive (extend_of h0 d) = true → U) →
  (primitive (include_of h0 d) = true → U) →
  (primitive (static_of od) = true → U) →
  (∀ l, read h0 (include_of h0 d) LENGTH = Some l → countable l = false → U) →
  (∀ l j x, read h0 (include_of h0 d) LENGTH = Some l → j < bound_of l →
            read h0 (include_of h0 d) (index_key j) = Some x →
            primitive x = true → U) →
  ends h0 U (λ _ _, False) (create call (VRef d) h0).
Proof.
  intros Hown Hen HUe HUi HUs HUl HUm. unfold create.
  unfold bind at 1, ret at 1. unfold bind at 1.
  change (make_function (FClass VUndef VUndef) "Class" h0) with (Ret cl h1).
  pose proof (make_function_building h0 data0) as B1. fold cl h1 in B1.
  assert (d < length h0) as Hdlt by (by eapply lookup_lt_Some).
  eapply ends_bind.
  { apply (js_get_old call h0 cl U wf data0 (S cl) (VRef d) EXTEND h1 B1);
      [done|by intros l [= <-]]. }
  intros e b [-> He].
  assert (e = extend_of h0 d) as -> by (unfold extend_of; by rewrite He).
  eapply ends_bind.
  { apply inherit_ends; [done|by eapply read_old_valid]. }
  intros base b (P & B2).
  eapply ends_bind.
  { apply (js_get_old call h0 cl U wf data0 P (VRef d) INCLUDE b B2);
      [done|by intros l [= <-]]. }
  intros iv b' [-> Hiv].
  assert (iv = include_of h0 d) as -> by (unfold include_of; by rewrite Hiv).
  destruct (bd_closure _ _ _ _ B2) as (ini & inc & Hcz).
  unfold bind at 1. erewrite assign_includes_run by done.
  set (h3 := set_closure b cl _).
  assert (building h0 cl P h3) as B3 by (by apply building_set_closure).
  eapply (ends_bind _ _ _ _ (λ _ b, building h0 cl P b)).
  { assert (ends h0 U (λ _ b, building h0 cl P b)
              ((l <- js_get call (include_of h0 d) LENGTH ;;
                n <- loop_bound l ;;
                mixin call n 0 cl (include_of h0 d)) h3)) as Hgen.
    2: { destruct (include_of h0 d); try exact Hgen. exact B3. }
    eapply ends_bind.
    { apply (js_get_old call h0 cl U wf data0 P _ LENGTH h3 B3);
        [done|by eapply read_old_valid]. }
    intros l b' [-> Hl].
    eapply (ends_bind _ _ _ _ (λ n b, b = h3 ∧ n = bound_of l)).
    { specialize (HUl l Hl). destruct l as [| |[]| | |]; try failed. }
    intros n b' [-> ->]. apply mixin_ends; try done.
    - by eapply read_old_valid.
    - intros j x _ Hj. by apply (HUm l). }
  intros [] h4 B4. unfold bind at 1.
  rewrite (for_in_obj _ _ _ (old_obj _ _ _ _ B4 _ _ Hd)),
    (old_forin_keys _ _ _ _ wf B4) by done.
  eapply ends_bind.
  { apply (each_never h0 U (define call cl base (VRef d))
             (λ b, building h0 cl P b) (forin_keys h0 d) SUPER);
      [| | |exact B4].
    - intros k a _ Ba. by eapply define_ends.
    - intros a Ba. erewrite define_super by done.
      split; [by right|by eapply building_old].
    - apply forin_keys_spec. exists p. split; [|done].
      by eapply lookup_prop_own. }
  by intros [] b' [].
Qed.

End EndsCreate.


(** * Programs that use the library *)

Module Examples.

Local Open Scope string_scope.

(** ** A small hierarchy

<<
  var A = Clazzy.create({ initialize: function () { this.a = 1; },
                          m: function () { return 'A.m'; } });
  var B = Clazzy.create({ m: function () { return 'B.m'; } });
  var M = Clazzy.create({ extend: A,
                          m: function () { return this.super; } });
  var definition = { extend: B, include: [M],
                     static: { s: function () { return 's'; } },
                     n: function () { return this.super(); } };
>>
    [hierarchy] ends with the definition, [world] is the heap it leaves
    and [world'] the heap after [Clazzy.create(definition)]. *)
Definition hierarchy : M value :=
  fa_init <- function_expr (SSet EThis "a" (EConst (VNum 1))) ;;
  fa_m <- function_expr (SReturn (EConst (VStr "A.m"))) ;;
  dA <- object_literal [("initialize", fa_init); ("m", fa_m)] ;;
  A <- Clazzy_create 0 dA ;;
  fb_m <- function_expr (SReturn (EConst (VStr "B.m"))) ;;
  dB <- object_literal [("m", fb_m)] ;;
  B <- Clazzy_create 0 dB ;;
  fm_m <- function_expr (SReturn (EGet EThis "super")) ;;
  dM <- object_literal [("extend", A); ("m", fm_m)] ;;
  M <- Clazzy_create 0 dM ;;
  arr <- array_literal [M] ;;
  fs <- function_expr (SReturn (EConst (VStr "s"))) ;;
  st <- object_literal [("s", fs)] ;;
  fn <- function_expr (SReturn (ECall EThis "super" ENil)) ;;
  object_literal [("extend", B); ("include", arr); ("static", st); ("n", fn)].

Definition heap_of {A} (r : outcome A) : heap :=
  match r with Ret _ h | Throw _ h => h | Abort _ => [] end.

Definition world : heap := Eval vm_compute in heap_of (hierarchy realm).

(** The addresses of [A], [B], [M], the definition and the new class. *)
Definition A_ : loc := 21.
Definition B_ : loc := 30.
Definition M_ : loc := 37.
Definition definition_ : loc := 48.
Definition C_ : loc := 49.

Definition world_definition : obj :=
  Eval vm_compute in default empty_object (world !! definition_).

Definition world' : heap :=
  Eval vm_compute in heap_of (Clazzy_create 0 (VRef definition_) world).

(** ** A definition with the reserved key

<<
  var definition = { super: function () {} };
>> *)
Definition reserved_definition : M value :=
  g <- function_expr SSkip ;;
  object_literal [("super", g)].

Definition reserved_world : heap :=
  Eval vm_compute in heap_of (reserved_definition realm).

Definition reserved_object : obj :=
  Eval vm_compute in default empty_object (reserved_world !! 18).

(** ** The handle of an included method

<<
  var A = Clazzy.create({ m: function () { return 'A.m'; } });
  var B = Clazzy.create({ m: function () { return 'B.m'; } });
  var M = Clazzy.create({ extend: A,
                          m: function () { return this.super(); } });
  var C = Clazzy.create({ extend: B, include: [M] });
  new C().m();
>> *)
Definition super_in_included : M value :=
  fa <- function_expr (SReturn (EConst (VStr "A.m"))) ;;
  dA <- object_literal [("m", fa)] ;;
  A <- Clazzy_create 0 dA ;;
  fb <- function_expr (SReturn (EConst (VStr "B.m"))) ;;
  dB <- object_literal [("m", fb)] ;;
  B <- Clazzy_create 0 dB ;;
  fm <- function_expr (SReturn (ECall EThis "super" ENil)) ;;
  dM <- object_literal [("extend", A); ("m", fm)] ;;
  M <- Clazzy_create 0 dM ;;
  arr <- array_literal [M] ;;
  dC <- object_literal [("extend", B); ("include", arr)] ;;
  C <- Clazzy_create 0 dC ;;
  c <- construct 5 C [] ;;
  invoke 5 c "m" [].

(** ** The handle in a class without [extend]

<<
  var C = Clazzy.create({
    initialize: function () { this.made = this.super(); },
    toString: function () { return this.super(); } });
  var c = new C();
  [c.toString(), c.made];
>> *)
Definition super_without_extend : M (value * value) :=
  fi <- function_expr (SSet EThis "made" (ECall EThis "super" ENil)) ;;
  ft <- function_expr (SReturn (ECall EThis "super" ENil)) ;;
  d <- object_literal [("initialize", fi); ("toString", ft)] ;;
  C <- Clazzy_create 0 d ;;
  c <- construct 5 C [] ;;
  s <- invoke 5 c "toString" [] ;;
  made <- js_get (call 0) c "made" ;;
  ret (s, made).

(** ** A static named [prototype] before the reserved key

<<
  var definition = { static: { prototype: function () {} },
                     super: function () {} };
>> *)
Definition static_prototype_before_super : M value :=
  f <- function_expr SSkip ;;
  g <- function_expr SSkip ;;
  st <- object_literal [("prototype", f)] ;;
  object_literal [("static", st); ("super", g)].

(** ** A member named [constructor]

<<
  var f = function () { this.ran = true; };
  var C = Clazzy.create({ constructor: f });
>> *)
Definition own_constructor : M (value * value * value) :=
  f <- function_expr (SSet EThis "ran" (EConst (VBool true))) ;;
  d <- object_literal [("constructor", f)] ;;
  C <- Clazzy_create 0 d ;;
  p <- js_get (call 0) C "prototype" ;;
  k <- js_get (call 0) p "constructor" ;;
  ret (f, C, k).

(** <<
  var c = new C();
  c.constructor();
  c.ran;
>> *)
Definition own_constructor_never_runs : M value :=
  f <- function_expr (SSet EThis "ran" (EConst (VBool true))) ;;
  d <- object_literal [("constructor", f)] ;;
  C <- Clazzy_create 0 d ;;
  c <- construct 5 C [] ;;
  invoke 5 c "constructor" [] ;;;
  js_get (call 0) c "ran".

(** ** A method injected into the base after the class is created

<<
  var Base = Clazzy.create({});
  var Sub = Clazzy.create({ extend: Base,
                            m: function () { return this.super(); } });
  var s = new Sub();
  Base.prototype.m = function () { return 'late'; };
  s.m();
>> *)
Definition late_injection : M value :=
  dBase <- object_literal [] ;;
  Base <- Clazzy_create 0 dBase ;;
  fm <- function_expr (SReturn (ECall EThis "super" ENil)) ;;
  dSub <- object_literal [("extend", Base); ("m", fm)] ;;
  Sub <- Clazzy_create 0 dSub ;;
  s <- construct 5 Sub [] ;;
  late <- function_expr (SReturn (EConst (VStr "late"))) ;;
  proto <- js_get (call 0) Base "prototype" ;;
  js_set (call 0) proto "m" late ;;;
  invoke 5 s "m" [].

(** ** A wrapped method that calls another one

<<
  var Base = Clazzy.create({ a: function () { return 'Base.a'; },
                             b: function () { return 'Base.b'; } });
  var Sub = Clazzy.create({ extend: Base,
                            a: function () { this.b(); return this.super(); },
                            b: function () { return this.super(); } });
  var s = new Sub();
  [s.a(), s.super];
>> *)
Definition nested_calls : M (value * value) :=
  fa <- function_expr (SReturn (EConst (VStr "Base.a"))) ;;
  fb <- function_expr (SReturn (EConst (VStr "Base.b"))) ;;
  dBase <- object_literal [("a", fa); ("b", fb)] ;;
  Base <- Clazzy_create 0 dBase ;;
  ga <- function_expr (SSeq (SExpr (ECall EThis "b" ENil))
                            (SReturn (ECall EThis "super" ENil))) ;;
  gb <- function_expr (SReturn (ECall EThis "super" ENil)) ;;
  dSub <- object_literal [("extend", Base); ("a", ga); ("b", gb)] ;;
  Sub <- Clazzy_create 0 dSub ;;
  s <- construct 9 Sub [] ;;
  r <- invoke 9 s "a" [] ;;
  after <- js_get (call 0) s "super" ;;
  ret (r, after).

(** ** The classes of the README

    [Foo], [Bar] (which extends [Foo]) and [Baz] (which includes
    [Foo]), and what the README reads off their instances. *)
Definition readme : M (list value) :=
  fi <- function_expr (SSet EThis "foo" (EConst (VStr "foo"))) ;;
  fbar <- function_expr (SReturn (EConst (VStr "bar"))) ;;
  fbaz <- function_expr (SReturn (EArg 0)) ;;
  fqux <- function_expr (SReturn (EConst (VStr "qux"))) ;;
  st <- object_literal [("qux", fqux)] ;;
  dFoo <- object_literal
            [("initialize", fi); ("bar", fbar); ("baz", fbaz); ("static", st)] ;;
  Foo <- Clazzy_create 0 dFoo ;;
  foo <- construct 9 Foo [] ;;
  r1 <- js_get (call 0) foo "foo" ;;
  r2 <- invoke 9 foo "bar" [] ;;
  r3 <- invoke 9 foo "baz" [VStr "baz"] ;;
  r4 <- invoke 9 Foo "qux" [] ;;
  bi <- function_expr
          (SSeq (SExpr (ECall EThis "super" ENil))
                (SSet EThis "corge" (EConst (VStr "corge")))) ;;
  bbaz <- function_expr
            (SReturn (EAdd (EConst (VStr "super "))
                           (ECall EThis "super" (ECons (EArg 0) ENil)))) ;;
  dBar <- object_literal [("extend", Foo); ("initialize", bi); ("baz", bbaz)] ;;
  Bar <- Clazzy_create 0 dBar ;;
  bar <- construct 9 Bar [] ;;
  r5 <- js_get (call 0) bar "foo" ;;
  r6 <- js_get (call 0) bar "corge" ;;
  r7 <- invoke 9 bar "bar" [] ;;
  r8 <- invoke 9 bar "baz" [VStr "qux"] ;;
  r9 <- js_get (call 0) Bar "qux" ;;
  moo <- function_expr (SReturn (EConst (VStr "moo"))) ;;
  arr <- array_literal [Foo] ;;
  dBaz <- object_literal [("include", arr); ("moo", moo)] ;;
  Baz <- Clazzy_create 0 dBaz ;;
  baz <- construct 9 Baz [] ;;
  r10 <- js_get (call 0) baz "foo" ;;
  r11 <- invoke 9 baz "bar" [] ;;
  r12 <- invoke 9 baz "baz" [VStr "baz"] ;;
  r13 <- invoke 9 baz "moo" [] ;;
  r14 <- js_get (call 0) Baz "qux" ;;
  ret [r1; r2; r3; r4; r5; r6; r7; r8; r9; r10; r11; r12; r13; r14].

End Examples.

Import Examples.

(** * The model on the README *)

(** The values the README announces: ['foo'], ['bar'], ['baz'], ['qux']
    for [Foo]; ['foo'], ['corge'], ['bar'], ['super qux'] for [Bar],
    which has no [qux]; ['foo'], ['bar'], ['baz'], ['moo'] for [Baz],
    which has no [qux] either. *)
Lemma readme_values :
  ∃ h, readme realm
       = Ret [VStr "foo"; VStr "bar"; VStr "baz"; VStr "qux";
              VStr "foo"; VStr "corge"; VStr "bar"; VStr "super qux"; VUndef;
              VStr "foo"; VStr "bar"; VStr "baz"; VStr "moo"; VUndef] h.
Proof. eexists. vm_compute. reflexivity. Qed.

(** The inner call leaves the handle of the outer method in place, and
    the outer call leaves the instance without a handle, as it was. *)
Lemma nested_calls_restore_the_handle :
  ∃ h, nested_calls realm = Ret (VStr "Base.a", VUndef) h.
Proof. eexists. vm_compute. reflexivity. Qed.

(** A method put on the base's prototype after the class exists is the
    one [this.super()] calls. *)
Lemma late_injection_is_reached :
  ∃ h, late_injection realm = Ret (VStr "late") h.
Proof. eexists. vm_compute. reflexivity. Qed.

(** * The theorems at work *)

(** ** On the small hierarchy *)

Lemma world_runs :
  ordinary world = true ∧
  world !! definition_ = Some world_definition ∧
  array_elems world (include_of world definition_) [VRef M_] = true ∧
  Clazzy_create 0 (VRef definition_) world = Ret (VRef C_) world'.
Proof. repeat split; vm_compute; reflexivity. Qed.





Lemma statics_are_the_static_block_witness :
  (∀ q, enum_own world' (VRef C_) q
        = enum_own world (static_block world definition_) q) ∧
  shape world' C_ = Some (Some FunctionPrototype, false) ∧
  (∀ (B : value) q p, enum_own world B q = Some p →
     enum_own world (static_block world definition_) q = None →
     enum_own world' (VRef C_) q = None).
Proof.
  apply (statics_are_the_static_block 0 world definition_ world_definition
           [VRef M_] C_ world'); vm_compute; reflexivity.
Defined.





(** ** On the definition with the reserved key *)


(** There the error is the reserved-name error. *)
Lemma reserved_key_alone :
  ∃ h', Clazzy_create 0 (VRef 18) reserved_world = Throw reserved_error h'.
Proof. eexists. vm_compute. reflexivity. Qed.

(** * Where the code departs from its specification *)






(** * The helpers on their own *)

(** ** [getPropertyDescriptor] *)

(** The loop of [getPropertyDescriptor] on a chain that lacks the
    property: it walks off the end of the chain, where
    [Object.getPrototypeOf] answers [null], not [undefined], and
    [Object.getOwnPropertyDescriptor(null, ...)] raises. *)
Lemma climb_missing n h l o k :
  wf_heap h → h !! l = Some o → own (o_props o) k = None → l < n →
  find_prop (S n) h l k = None →
  climb n (VRef l) k h = Throw TypeError h.
Proof.
  intros Hwf. revert l o. induction n as [|n IH]; intros l o Ho Hown Hl; [lia|].
  intros Hf. cbn [climb]. unfold bind, getPrototypeOf. rewrite Ho.
  change (find_prop (S (S n)) h l k)
    with (match h !! l with
          | None => None
          | Some o => match own (o_props o) k with
                      | Some p => Some p
                      | None => match o_proto o with
                                | Some l' => find_prop (S n) h l' k
                                | None => None
                                end
                      end
          end) in Hf.
  rewrite Ho, Hown in Hf.
  destruct (o_proto o) as [l'|] eqn:Hp; [|done].
  pose proof (Hwf l o l' Ho Hp) as Hlt.
  unfold getOwnPropertyDescriptor.
  destruct (lookup_lt_is_Some_2 h l') as [o' Ho'].
  { apply lookup_lt_Some in Ho. lia. }
  rewrite Ho'.
  destruct (own (o_props o') k) as [d|] eqn:Hown'.
  { exfalso. simpl in Hf. by rewrite Ho', Hown' in Hf. }
  eapply IH; [done..|lia|done].
Qed.

Lemma find_prop_fuel n h l k :
  wf_heap h → l < n → find_prop n h l k = find_prop (S l) h l k.
Proof.
  intros Hwf. revert n. induction l as [l IH] using lt_wf_ind. intros n Hl.
  destruct n as [|n]; [lia|]. simpl.
  destruct (h !! l) as [o|] eqn:Ho; [|done].
  destruct (own (o_props o) k); [done|].
  destruct (o_proto o) as [l'|] eqn:Hp; [|done].
  pose proof (Hwf l o l' Ho Hp) as Hlt.
  rewrite (IH l' Hlt n) by lia. symmetry. apply IH; [done|lia].
Qed.

Lemma getPropertyDescriptor_chain h l o k :
  wf_heap h → h !! l = Some o →
  getPropertyDescriptor (VRef l) k true h
  = match lookup_prop h l k with
    | Some p => Ret (Some p) h
    | None => Throw TypeError h
    end.
Proof.
  intros Hwf Ho. pose proof (lookup_lt_Some _ _ _ Ho) as Hl.
  unfold getPropertyDescriptor, bind.
  rewrite (getOwnPropertyDescriptor_obj _ _ _ _ Ho).
  destruct (own (o_props o) k) as [p|] eqn:Hown.
  { by rewrite (lookup_prop_own _ _ _ _ _ Ho Hown). }
  assert (find_prop (S (length h)) h l k = lookup_prop h l k) as E.
  { unfold lookup_prop.
    rewrite (find_prop_fuel (S (length h)) h l k Hwf),
      (find_prop_fuel (length h) h l k Hwf) by lia. done. }
  destruct (lookup_prop h l k) as [p|] eqn:Hf.
  - by apply (climb_find (length h) h l o k p Ho Hown).
  - by apply (climb_missing (length h) h l o k).
Qed.

(** X1.  With [deep], [getPropertyDescriptor] answers with the
    descriptor of the first object of the chain that has the property;
    when no object of the chain has it, it raises a TypeError instead of
    answering [undefined].  Without [deep] it answers with the own
    descriptor, or [undefined], and never looks further.  Nothing is
    changed either way. *)
Theorem getPropertyDescriptor_lookup h l o k :
  wf_heap h → h !! l = Some o →
  getPropertyDescriptor (VRef l) k true h
  = match lookup_prop h l k with
    | Some p => Ret (Some p) h
    | None => Throw TypeError h
    end ∧
  getPropertyDescriptor (VRef l) k false h = Ret (own (o_props o) k) h.
Proof.
  intros Hwf Ho. split; [by apply (getPropertyDescriptor_chain h l o k)|].
  unfold getPropertyDescriptor, bind.
  rewrite (getOwnPropertyDescriptor_obj _ _ _ _ Ho).
  by destruct (own (o_props o) k).
Qed.

(** ** [copyProperty] *)

Lemma defineProperty_Ret t k d a a2 :
  defineProperty (VRef t) k d a = Ret tt a2 → a2 = write_prop a t k d.
Proof.
  unfold defineProperty. destruct (a !! t) as [o|]; [|done].
  destruct (o_array o && index_or_length k); [done|].
  destruct (own (o_props o) k) as [cur|]; [|by intros [= <-]].
  destruct (compatible cur d); [by intros [= <-]|done].
Qed.

Lemma defineProperty_Throw t k d a e a2 :
  defineProperty t k d a = Throw e a2 → e = TypeError ∧ a2 = a.
Proof.
  unfold defineProperty. destruct t as [| | | | |l]; try by intros [= <- <-].
  destruct (a !! l) as [o|]; [|done].
  destruct (o_array o && index_or_length k); [done|].
  destruct (own (o_props o) k) as [cur|]; [|done].
  destruct (compatible cur d); [done|by intros [= <- <-]].
Qed.

(** [getPropertyDescriptor] changes nothing and raises nothing but a
    TypeError. *)
Lemma climb_pure n v k a :
  match climb n v k a with
  | Ret _ b => b = a
  | Throw e b => e = TypeError ∧ b = a
  | Abort _ => True
  end.
Proof.
  revert v. induction n as [|n IH]; intros v; [done|].
  cbn [climb]. unfold bind, getPrototypeOf.
  destruct v as [| | | | |l]; try done.
  destruct (a !! l) as [o|]; [|done].
  destruct (o_proto o) as [l'|]; [|done].
  unfold getOwnPropertyDescriptor. destruct (a !! l') as [o'|]; [|done].
  destruct (own (o_props o') k); [done|]. apply IH.
Qed.

Lemma getPropertyDescriptor_pure v k deep a :
  match getPropertyDescriptor v k deep a with
  | Ret _ b => b = a
  | Throw e b => e = TypeError ∧ b = a
  | Abort _ => True
  end.
Proof.
  unfold getPropertyDescriptor, bind, getOwnPropertyDescriptor.
  destruct v as [| | | | |l]; try done.
  destruct (a !! l) as [o|]; [|done].
  destruct (own (o_props o) k); [done|].
  destruct deep; [apply climb_pure|done].
Qed.

(** X2.  After [copyProperty] the target holds, as its own property,
    the very descriptor that [getPropertyDescriptor] found on the source
    (value or accessor pair, and the three attributes), provided the
    target is an ordinary object on which the host accepts it.  No other
    property of the target and no other object changes. *)
Theorem copyProperty_installs_the_descriptor h s t ot k deep d :
  h !! t = Some ot → o_array ot = false →
  getPropertyDescriptor s k deep h = Ret (Some d) h →
  (∀ cur, own (o_props ot) k = Some cur → compatible cur d = true) →
  ∃ h', copyProperty s (VRef t) k deep h = Ret tt h' ∧
        getPropertyDescriptor (VRef t) k false h' = Ret (Some d) h' ∧
        (∀ k', k' ≠ k → own_prop h' t k' = own_prop h t k') ∧
        (∀ l, l ≠ t → h' !! l = h !! l) ∧
        shape h' t = shape h t.
Proof.
  intros Ht Ha Hd Hc. exists (write_prop h t k d).
  split; [|split; [|split; [|split]]].
  - unfold copyProperty, bind. rewrite Hd. unfold defineProperty.
    rewrite Ht, Ha. simpl.
    destruct (own (o_props ot) k) as [cur|] eqn:Hown; [|done].
    by rewrite (Hc cur).
  - unfold getPropertyDescriptor, bind.
    rewrite (getOwnPropertyDescriptor_obj _ _ _ _
               (write_prop_lookup _ _ _ _ _ Ht)).
    simpl. by rewrite own_put_eq.
  - intros k' Hk. rewrite own_prop_write, decide_False; [done|].
    by intros (_ & ? & _).
  - intros l Hl. by apply write_prop_lookup_ne.
  - apply shape_write.
Qed.


(** ** [copyProperties] *)

(** A loop every step of which returns, keeps [Inv] and writes at most
    the property it is about. *)
Lemma each_copies (T : loc) (D : string → option prop) (Inv : heap → Prop)
    (f : string → M unit) keys :
  (∀ k a, In k keys → Inv a →
     ∃ a2, f k a = Ret tt a2 ∧ Inv a2 ∧
           match D k with
           | Some d => a2 = write_prop a T k d
           | None => a2 = a
           end) →
  ∀ a, Inv a →
    ∃ ws, each f keys a = Ret tt (writes T ws a) ∧ Inv (writes T ws a) ∧
      (∀ k p, In (k, p) ws → In k keys ∧ D k = Some p) ∧
      (∀ k p, In k keys → D k = Some p → In k (map fst ws)).
Proof.
  induction keys as [|k r IH]; intros Hstep a HI.
  - exists []. by repeat split.
  - destruct (Hstep k a) as (a1 & Hf & HI1 & HD); [by left|done|].
    destruct (IH (λ k' b Hk', Hstep k' b (or_intror Hk')) a1 HI1)
      as (ws & Hr & HI2 & Hws1 & Hws2).
    cbn [each]. unfold bind. rewrite Hf.
    destruct (D k) as [d|] eqn:HDk; subst a1.
    + exists ((k, d) :: ws). split; [done|]. split; [done|]. split.
      * intros k' p [[= <- <-]|Hin]; [by split; [left|]|].
        destruct (Hws1 _ _ Hin). split; [by right|done].
      * intros k' p [<-|Hin] Hp; [by left|]. right. by eapply Hws2.
    + exists ws. split; [done|]. split; [done|]. split.
      * intros k' p Hin. destruct (Hws1 _ _ Hin). split; [by right|done].
      * intros k' p [<-|Hin] Hp; [congruence|]. by eapply Hws2.
Qed.

Lemma own_prop_copies T ws h (D : string → option prop) :
  is_Some (h !! T) →
  (∀ k p, In (k, p) ws → D k = Some p) →
  (∀ k p, D k = Some p → In k (map fst ws)) →
  ∀ k, own_prop (writes T ws h) T k
       = match D k with Some p => Some p | None => own_prop h T k end.
Proof.
  intros HT H1 H2 k. destruct (D k) as [p|] eqn:HD.
  - apply own_prop_writes_same; [done|by eapply H2|].
    intros q Hq. apply H1 in Hq. congruence.
  - apply own_prop_writes_other. right. intros Hin.
    apply in_map_iff in Hin as ([k' q] & <- & Hin). apply H1 in Hin.
    simpl in HD. congruence.
Qed.

(** What a target must be for every copy to be accepted: an ordinary
    object whose own properties are configurable, or already what the
    copy brings. *)
Definition accepts (D : string → option prop) (a : heap) (t : loc) : Prop :=
  ∃ ot, a !! t = Some ot ∧ o_array ot = false ∧
        ∀ k cur, own (o_props ot) k = Some cur →
                 p_conf cur = true ∨ D k = Some cur.

Lemma accepts_define D a t k d :
  accepts D a t → D k = Some d →
  defineProperty (VRef t) k d a = Ret tt (write_prop a t k d) ∧
  accepts D (write_prop a t k d) t.
Proof.
  intros (ot & Ht & Ha & Hc) HD. split.
  - unfold defineProperty. rewrite Ht, Ha. simpl.
    destruct (own (o_props ot) k) as [cur|] eqn:Hown; [|done].
    unfold compatible. destruct (Hc k cur Hown) as [->|Hcur]; [done|].
    destruct (p_conf cur); [done|].
    rewrite bool_decide_true; [done|congruence].
  - exists (set_props ot (put (o_props ot) k d)).
    split; [by apply write_prop_lookup|]. split; [done|].
    intros k' cur. simpl. rewrite own_put. case_decide as Hk.
    + intros [= <-]. right. by subst k'.
    + apply Hc.
Qed.

(** X4.  [copyProperties(source, target, false)] gives the target every
    own enumerable property of the source, descriptor for descriptor,
    and nothing else: what the source inherits or hides from
    enumeration is not copied, the other properties of the target stay,
    and no other object changes.  It returns whenever the target is an
    ordinary object, other than the source, whose properties are
    configurable. *)
Theorem copyProperties_copies_own_enumerable h s t os ot :
  h !! s = Some os → h !! t = Some ot → s ≠ t → o_array ot = false →
  (∀ k cur, own (o_props ot) k = Some cur → p_conf cur = true) →
  ∃ h', copyProperties (VRef s) (VRef t) false h = Ret tt h' ∧
    (∀ k, own_prop h' t k
          = match enum_own h (VRef s) k with
            | Some p => Some p
            | None => own_prop h t k
            end) ∧
    (∀ l, l ≠ t → h' !! l = h !! l) ∧
    shape h' t = shape h t.
Proof.
  intros Hs Ht Hne Ha Hc. unfold copyProperties. unfold bind at 1.
  rewrite (for_in_obj _ _ _ Hs).
  lazymatch goal with
  | |- ∃ h', each ?f _ _ = _ ∧ _ =>
      destruct (each_copies t (enum_own h (VRef s))
                  (λ a, a !! s = Some os ∧ accepts (enum_own h (VRef s)) a t)
                  f (forin_keys h s)) with (a := h)
        as (ws & Hrun & _ & Hws1 & Hws2)
  end.
  - intros k a Hk [Has Hacc]. unfold bind.
    rewrite (hasOwnProperty_obj _ _ _ _ Has).
    assert (enum_own h (VRef s) k = match own (o_props os) k with
                                    | Some p => Some p
                                    | None => None
                                    end) as HD.
    { unfold enum_own, own_prop. rewrite Hs.
      destruct (own (o_props os) k) as [p|] eqn:Hown; [|done].
      apply forin_keys_spec in Hk as (p' & Hp' & He).
      rewrite (lookup_prop_own _ _ _ _ _ Hs Hown) in Hp'.
      injection Hp' as <-. by rewrite He. }
    rewrite HD. destruct (own (o_props os) k) as [p|] eqn:Hown.
    + unfold copyProperty, getPropertyDescriptor, bind.
      rewrite (getOwnPropertyDescriptor_obj _ _ _ _ Has), Hown. unfold ret.
      rewrite <- HD in *.
      destruct (accepts_define _ a t k p Hacc HD) as [Hdef Hacc'].
      exists (write_prop a t k p). split; [done|]. split; [|done].
      split; [|done]. by rewrite write_prop_lookup_ne.
    + by exists a.
  - split; [done|]. exists ot. split; [done|]. split; [done|].
    intros k cur Hown. left. by eapply Hc.
  - exists (writes t ws h). split; [done|]. split; [|split].
    + apply own_prop_copies; [by eexists| |].
      * intros k p Hin. by destruct (Hws1 _ _ Hin).
      * intros k p Hp. eapply Hws2; [|done]. apply forin_keys_spec.
        unfold enum_own, own_prop in Hp. rewrite Hs in Hp.
        destruct (own (o_props os) k) as [q|] eqn:Hown; [|done].
        destruct (p_enum q) eqn:He; [|done]. injection Hp as ->.
        exists p. split; [|done]. by eapply lookup_prop_own.
    + intros l Hl. by apply writes_lookup_ne.
    + apply shape_writes.
Qed.

Lemma write_prop_proto a t k p l :
  option_map o_proto (write_prop a t k p !! l) = option_map o_proto (a !! l).
Proof.
  destruct (decide (t = l)) as [<-|Hne].
  - destruct (a !! t) as [o|] eqn:Ho.
    + by rewrite (write_prop_lookup _ _ _ _ _ Ho).
    + unfold write_prop. rewrite Ho. by rewrite Ho.
  - rewrite write_prop_lookup_ne; [reflexivity|exact Hne].
Qed.

Lemma wf_heap_write a t k p : wf_heap a → wf_heap (write_prop a t k p).
Proof.
  intros Hwf l o l' Ho Hp.
  pose proof (write_prop_proto a t k p l) as E. rewrite Ho in E. simpl in E.
  destruct (a !! l) as [o0|] eqn:Ho0; [|done]. injection E as E.
  eapply Hwf; [done|congruence].
Qed.

Lemma in_chain_write n a t k p s t' :
  in_chain n (write_prop a t k p) s t' = in_chain n a s t'.
Proof.
  revert s. induction n as [|n IH]; intros s; [done|]. simpl.
  pose proof (write_prop_proto a t k p s) as E.
  destruct (write_prop a t k p !! s) as [o|], (a !! s) as [o0|]; try done.
  simpl in E. injection E as ->. destruct (o_proto o0); [|done]. by rewrite IH.
Qed.

(** A write to an object that is not on the chain of [s] is not seen
    from [s]. *)
Lemma find_prop_write_off_chain n a t k p s k' :
  s ≠ t → in_chain n a s t = false →
  find_prop n (write_prop a t k p) s k' = find_prop n a s k'.
Proof.
  revert s. induction n as [|n IH]; intros s Hne Hin; [done|]. simpl in *.
  rewrite write_prop_lookup_ne by done.
  destruct (a !! s) as [o|]; [|done].
  destruct (own (o_props o) k'); [done|].
  destruct (o_proto o) as [l'|]; [|done].
  apply orb_false_iff in Hin as [Hl' Hin]. apply Nat.eqb_neq in Hl'.
  by apply IH.
Qed.

(** X5.  [copyProperties(source, target, true)] gives the target, as
    own properties, every enumerable property that is visible from the
    source, its own and those it inherits, each with the descriptor of
    the first object of the chain that has it; the other properties of
    the target stay and no other object changes.  It returns whenever
    the target is an ordinary object off the chain of the source whose
    properties are configurable. *)
Theorem copyProperties_copies_inherited_enumerable h s t os ot :
  wf_heap h → h !! s = Some os → h !! t = Some ot →
  s ≠ t → in_chain (length h) h s t = false → o_array ot = false →
  (∀ k cur, own (o_props ot) k = Some cur → p_conf cur = true) →
  ∃ h', copyProperties (VRef s) (VRef t) true h = Ret tt h' ∧
    (∀ k, own_prop h' t k
          = match enum_chain h s k with
            | Some p => Some p
            | None => own_prop h t k
            end) ∧
    (∀ l, l ≠ t → h' !! l = h !! l) ∧
    shape h' t = shape h t.
Proof.
  intros Hwf Hs Ht Hne Hoff Ha Hc. unfold copyProperties. unfold bind at 1.
  rewrite (for_in_obj _ _ _ Hs).
  lazymatch goal with
  | |- ∃ h', each ?f _ _ = _ ∧ _ =>
      destruct (each_copies t (enum_chain h s)
                  (λ a, wf_heap a ∧ a !! s = Some os ∧ length a = length h ∧
                        in_chain (length h) a s t = false ∧
                        (∀ k, lookup_prop a s k = lookup_prop h s k) ∧
                        accepts (enum_chain h s) a t)
                  f (forin_keys h s)) with (a := h)
        as (ws & Hrun & _ & Hws1 & Hws2)
  end.
  - intros k a Hk (Hwfa & Has & Hlen & Hin & Hsame & Hacc). unfold bind, ret.
    apply forin_keys_spec in Hk as (d & Hd & He).
    assert (enum_chain h s k = Some d) as HD
      by (unfold enum_chain; by rewrite Hd, He).
    rewrite HD.
    unfold copyProperty, bind.
    rewrite (getPropertyDescriptor_chain a s os k Hwfa Has), Hsame, Hd.
    destruct (accepts_define _ a t k d Hacc HD) as [Hdef Hacc'].
    exists (write_prop a t k d). split; [done|]. split; [|done].
    split; [by apply wf_heap_write|]. split; [by rewrite write_prop_lookup_ne|].
    split; [by rewrite write_prop_length|].
    split; [by rewrite in_chain_write|]. split; [|done].
    intros k'. rewrite <- Hsame. unfold lookup_prop.
    rewrite write_prop_length, Hlen. apply find_prop_write_off_chain; [done|].
    done.
  - split; [done|]. split; [done|]. split; [done|]. split; [done|].
    split; [done|]. exists ot. split; [done|]. split; [done|].
    intros k cur Hown. left. by eapply Hc.
  - exists (writes t ws h). split; [done|]. split; [|split].
    + apply own_prop_copies; [by eexists| |].
      * intros k p Hin. by destruct (Hws1 _ _ Hin).
      * intros k p Hp. eapply Hws2; [|done]. apply forin_keys_spec.
        unfold enum_chain in Hp.
        destruct (lookup_prop h s k) as [q|]; [|done].
        destruct (p_enum q) eqn:He; [|done]. injection Hp as ->. by exists p.
    + intros l Hl. by apply writes_lookup_ne.
    + apply shape_writes.
Qed.

(** ** [createAnUnconstructedInstanceOfClass] *)

(** A new object with no property of its own sees what its prototype
    sees. *)
Lemma fresh_lookup h p k :
  wf_heap h → p < length h →
  lookup_prop (h ++ [Obj (Some p) [] None false]) (length h) k
  = lookup_prop h p k.
Proof.
  intros Hwf Hp. unfold lookup_prop at 1. rewrite length_app. simpl.
  rewrite Nat.add_1_r. simpl.
  rewrite lookup_app_r, Nat.sub_diag by done. simpl.
  rewrite (find_prop_app _ h _ p k Hwf Hp) by done.
  unfold lookup_prop. symmetry. by apply find_prop_fuel.
Qed.

Lemma fresh_forin h p :
  wf_heap h → p < length h →
  forin_keys (h ++ [Obj (Some p) [] None false]) (length h) = forin_keys h p.
Proof.
  intros Hwf Hp. unfold forin_keys at 1. rewrite length_app. simpl.
  rewrite Nat.add_1_r. simpl.
  rewrite lookup_app_r, Nat.sub_diag by done. simpl.
  rewrite (forin_chain_app _ h _ p [] Hwf Hp) by done.
  rewrite <- (forin_keys_app h [] p Hwf Hp). unfold forin_keys.
  rewrite length_app, Nat.add_0_r. symmetry. by apply forin_chain_app.
Qed.

(** X6.  [createAnUnconstructedInstanceOfClass(clazz)] allocates one
    object and touches nothing else: no function is called, the class's
    constructor least of all.  The object has no property of its own and
    is linked to [clazz.prototype], so every lookup and every [for-in]
    on it gives what they give on [clazz.prototype].  When
    [clazz.prototype] is [null] the object has no chain at all; when it
    is anything else that is not an object, a TypeError is raised and
    nothing is allocated. *)
Theorem unconstructed_instance_mirrors_the_prototype call h c pv :
  wf_heap h → read h c PROTOTYPE = Some pv →
  (∀ p, pv = VRef p → p < length h) →
  match pv with
  | VRef p =>
      createAnUnconstructedInstanceOfClass call c h
      = Ret (VRef (length h)) (h ++ [Obj (Some p) [] None false]) ∧
      (∀ k, lookup_prop (h ++ [Obj (Some p) [] None false]) (length h) k
            = lookup_prop h p k) ∧
      forin_keys (h ++ [Obj (Some p) [] None false]) (length h)
      = forin_keys h p
  | VNull =>
      createAnUnconstructedInstanceOfClass call c h
      = Ret (VRef (length h)) (h ++ [Obj None [] None false])
  | _ => createAnUnconstructedInstanceOfClass call c h = Throw TypeError h
  end.
Proof.
  intros Hwf Hr Hp. unfold createAnUnconstructedInstanceOfClass, bind.
  rewrite (js_get_read call h c PROTOTYPE pv Hr).
  destruct pv as [| | | | |p]; try done.
  specialize (Hp p eq_refl). split; [done|].
  split; [intros k; by apply fresh_lookup|by apply fresh_forin].
Qed.

(** * The branches for hosts without ES5

    Two helpers are chosen when the library is loaded, by what the host
    has: [createAnUnconstructedInstanceOfClass] uses [Object.create]
    when there is one and a surrogate constructor otherwise;
    [copyProperty] uses property descriptors when the host has
    [Object.defineProperties] and a plain assignment otherwise.  The
    model above is the library on a host that has both; these are the
    other branches. *)

(** What the library looks for on the host (lines 35 and 94). *)
Record host := Host {
  has_Object_create : bool;
  has_Object_defineProperties : bool
}.

(** The fallback of [createAnUnconstructedInstanceOfClass]
    (lines 37-50): a function [Surrogate] that does nothing, given the
    prototype of the class, is constructed in its place. *)
Definition createAnUnconstructedInstanceOfClass_Surrogate (fuel : nat)
    (clazz : value) : M value :=
  Surrogate <- make_function (FUser SSkip) "Surrogate" ;;
  p <- js_get (call fuel) clazz PROTOTYPE ;;
  js_set (call fuel) (VRef Surrogate) PROTOTYPE p ;;;
  sp <- js_get (call fuel) (VRef Surrogate) PROTOTYPE ;;
  js_set (call fuel) sp CONSTRUCTOR clazz ;;;
  construct fuel (VRef Surrogate) [].

(** The fallback of [copyProperty] (lines 96-99):
    [target[property] = source[property]]. *)
Definition copyProperty_assign (call : value → value → list value → M value)
    (source target : value) (property : string) : M unit :=
  v <- js_get call source property ;;
  js_set call target property v.

(** The two helpers as the library binds them on a host (lines 33-58
    and 88-119). *)
Definition createAnUnconstructedInstanceOfClass_on (H : host) (fuel : nat)
    (clazz : value) : M value :=
  if has_Object_create H
  then createAnUnconstructedInstanceOfClass (call fuel) clazz
  else createAnUnconstructedInstanceOfClass_Surrogate fuel clazz.

Definition copyProperty_on (H : host) (fuel : nat) (source target : value)
    (property : string) (deep : bool) : M unit :=
  if has_Object_defineProperties H
  then copyProperty source target property deep
  else copyProperty_assign (call fuel) source target property.

Lemma assignable_app h t l k :
  wf_heap h → l < length h →
  assignable (h ++ t) l k = assignable h l k.
Proof.
  intros Hwf Hl. unfold assignable.
  destruct (lookup_lt_is_Some_2 h l Hl) as [o Ho].
  by rewrite (lookup_app_l_Some _ _ _ _ Ho), Ho, lookup_prop_app.
Qed.

(** X7.  On a host without [Object.create] the unconstructed instance
    is again a new object with no property of its own, linked to
    [clazz.prototype], and no code of the class runs; but on the way
    [clazz.prototype.constructor] is assigned [clazz], which the
    [Object.create] branch never does.  Nothing else that existed
    changes. *)
Theorem surrogate_instance_assigns_the_constructor fuel h c p :
  wf_heap h → read h c PROTOTYPE = Some (VRef p) →
  assignable h p CONSTRUCTOR = true →
  ∃ h',
    createAnUnconstructedInstanceOfClass_on (Host false true) (S fuel) c h
    = Ret (VRef (length h + 2)) h' ∧
    h' !! (length h + 2) = Some (Obj (Some p) [] None false) ∧
    read h' (VRef p) CONSTRUCTOR = Some c ∧
    (∀ l, l < length h → l ≠ p → h' !! l = h !! l) ∧
    (∀ k, k ≠ CONSTRUCTOR → own_prop h' p k = own_prop h p k).
Proof.
  intros Hwf Hr Ha.
  assert (p < length h) as Hp.
  { unfold assignable in Ha. destruct (h !! p) eqn:E; [|done].
    by eapply lookup_lt_Some. }
  destruct c as [| | | | |c]; try done.
  assert (c < length h) as Hc.
  { unfold read in Hr. destruct (h !! c) eqn:E; [|done].
    by eapply lookup_lt_Some. }
  unfold createAnUnconstructedInstanceOfClass_on. cbn [has_Object_create].
  unfold createAnUnconstructedInstanceOfClass_Surrogate.
  unfold bind at 1.
  change (make_function (FUser SSkip) "Surrogate" h)
    with (Ret (length h)
              (h ++ [function_object (FUser SSkip) "Surrogate" (S (length h));
                     prototype_object (length h)])).
  set (s := length h). set (h1 := h ++ _).
  assert (h1 !! s = Some (function_object (FUser SSkip) "Surrogate" (S s)))
    as Hs1.
  { unfold h1. rewrite lookup_app_r by (unfold s; lia).
    by rewrite Nat.sub_diag. }
  unfold bind at 1.
  rewrite (js_get_read (call (S fuel)) h1 (VRef c) PROTOTYPE (VRef p))
    by (unfold h1; by rewrite read_app).
  assert (js_set (call (S fuel)) (VRef s) PROTOTYPE (VRef p) h1
          = Ret tt (write_prop h1 s PROTOTYPE
                      (Prop_ (Data (VRef p) true) false false))) as E1.
  { unfold js_set. rewrite Hs1. erewrite lookup_prop_own by done. done. }
  unfold bind at 1. rewrite E1. set (h2 := write_prop h1 s PROTOTYPE _).
  assert (is_Some (h1 !! s)) as Hs1' by (by eexists).
  unfold bind at 1.
  rewrite (js_get_read (call (S fuel)) h2 (VRef s) PROTOTYPE (VRef p))
    by (by apply read_write_prop).
  assert (∀ l, l < length h → h2 !! l = h !! l) as Hold2.
  { intros l Hl. unfold h2. rewrite write_prop_lookup_ne by (unfold s; lia).
    unfold h1. by rewrite lookup_app_l. }
  destruct (extends_app h h2 Hold2) as [t2 Ht2].
  { unfold h2. rewrite write_prop_length. unfold h1. rewrite length_app. lia. }
  assert (assignable h2 p CONSTRUCTOR = true) as Ha2
    by (by rewrite Ht2, assignable_app).
  destruct (js_set_assignable (call (S fuel)) h2 p CONSTRUCTOR (VRef c) Ha2)
    as (e & cf & E2).
  unfold bind at 1. rewrite E2. set (h3 := write_prop h2 p CONSTRUCTOR _).
  assert (length h3 = s + 2) as Hlen3.
  { unfold h3, h2. rewrite !write_prop_length. unfold h1.
    rewrite length_app. simpl. unfold s. lia. }
  assert (h3 !! s = Some (set_props (function_object (FUser SSkip) "Surrogate" (S s))
                            (put (o_props (function_object (FUser SSkip)
                                                           "Surrogate" (S s)))
                                 PROTOTYPE
                                 (Prop_ (Data (VRef p) true) false false))))
    as Hs3.
  { unfold h3. rewrite write_prop_lookup_ne by (unfold s; lia).
    unfold h2. by apply write_prop_lookup. }
  unfold construct. unfold bind at 1.
  rewrite (js_get_read (call (S fuel)) h3 (VRef s) PROTOTYPE (VRef p)).
  2: { eapply read_own; [exact Hs3|cbn [o_props set_props]; apply own_put_eq|done]. }
  unfold bind at 1, alloc at 1. rewrite Hlen3.
  set (h4 := h3 ++ _).
  assert (h4 !! s = h3 !! s) as Hs4.
  { unfold h4. rewrite lookup_app_l by lia. done. }
  unfold bind at 1.
  assert (call (S fuel) (VRef s) (VRef (s + 2)) [] h4 = Ret VUndef h4) as E4.
  { simpl. rewrite Hs4, Hs3. done. }
  rewrite E4. unfold ret. exists h4. split; [done|]. split; [|split; [|split]].
  - unfold h4. rewrite lookup_app_r by lia. by rewrite Hlen3, Nat.sub_diag.
  - assert (is_Some (h2 !! p)) as [op Hop].
    { rewrite Hold2 by done. by apply lookup_lt_is_Some_2. }
    eapply read_own.
    + unfold h4. rewrite lookup_app_l by lia. unfold h3.
      by apply write_prop_lookup.
    + simpl. apply own_put_eq.
    + done.
  - intros l Hl Hne. unfold h4. rewrite lookup_app_l by lia.
    unfold h3. rewrite write_prop_lookup_ne by done. by apply Hold2.
  - intros k Hk. unfold h4. rewrite own_prop_app by lia. unfold h3.
    rewrite own_prop_write, decide_False by (by intros (_ & ? & _)).
    unfold own_prop. by rewrite Hold2.
Qed.

Lemma write_prop_inj h t ot k d d' :
  h !! t = Some ot → write_prop h t k d = write_prop h t k d' → d = d'.
Proof.
  intros Ht E.
  assert (own_prop (write_prop h t k d) t k = Some d) as H1.
  { rewrite own_prop_write, decide_True; [done|]. by repeat split; eexists. }
  rewrite E, own_prop_write, decide_True in H1; [congruence|].
  by repeat split; eexists.
Qed.

(** X8.  On a host without [Object.defineProperties], [copyProperty]
    copies the value and nothing of the descriptor: a property the
    target does not have yet arrives writable, enumerable and
    configurable, whatever it was on the source.  Where the descriptor
    branch finds a descriptor, the two branches leave the same heap
    exactly when it is such a plain data property; where it finds none
    (an inherited property, without [deep]) it copies nothing, and the
    assignment copies the inherited value all the same. *)
Theorem copyProperty_assign_copies_the_value fuel h s t ot k v deep :
  read h s k = Some v → h !! t = Some ot → o_array ot = false →
  lookup_prop h t k = None →
  copyProperty_on (Host true false) fuel s (VRef t) k deep h
  = Ret tt (write_prop h t k (plain v)) ∧
  (∀ d, getPropertyDescriptor s k deep h = Ret (Some d) h →
        (copyProperty_on (Host true true) fuel s (VRef t) k deep h
         = copyProperty_on (Host true false) fuel s (VRef t) k deep h
         ↔ d = plain v)) ∧
  (getPropertyDescriptor s k deep h = Ret None h →
   copyProperty_on (Host true true) fuel s (VRef t) k deep h = Ret tt h).
Proof.
  intros Hr Ht Ha Hl.
  assert (own (o_props ot) k = None) as Hown.
  { destruct (own (o_props ot) k) as [p|] eqn:E; [|done].
    by rewrite (lookup_prop_own _ _ _ _ _ Ht E) in Hl. }
  assert (copyProperty_assign (call fuel) s (VRef t) k h
          = Ret tt (write_prop h t k (plain v))) as E1.
  { unfold copyProperty_assign, bind.
    rewrite (js_get_read (call fuel) h s k v Hr).
    unfold js_set. by rewrite Ht, Ha, Hl, Hown. }
  unfold copyProperty_on. cbn [has_Object_defineProperties].
  split; [done|]. split.
  - intros d Hd.
    assert (copyProperty s (VRef t) k deep h = Ret tt (write_prop h t k d))
      as E2.
    { unfold copyProperty, bind. rewrite Hd. unfold defineProperty.
      by rewrite Ht, Ha, Hown. }
    rewrite E1, E2. split.
    + intros [= E]. by eapply write_prop_inj.
    + by intros ->.
  - intros Hd. unfold copyProperty, bind. by rewrite Hd.
Qed.

(** * More on [create] *)

(** ** What [create] leaves alone *)

Section CreateFrame.

Variable call : value → value → list value → M value.
Variables (h0 : heap) (d : loc) (od : obj) (U : Prop).
Hypothesis wf : wf_heap h0.
Hypothesis refs : refs_valid h0.
Hypothesis data0 : data_heap h0.
Hypothesis Hd : h0 !! d = Some od.

Lemma create_ends :
(primitive (extend_of h0 d) = true → U) →
(primitive (include_of h0 d) = true → U) →
(primitive (static_of od) = true → U) →
(∀ l, read h0 (include_of h0 d) LENGTH = Some l → countable l = false → U) →
(∀ l j x, read h0 (include_of h0 d) LENGTH = Some l → j < bound_of l →
          read h0 (include_of h0 d) (index_key j) = Some x →
          primitive x = true → U) →
ends h0 U (λ v b, v = VRef (length h0) ∧ old_same h0 b)
     (create call (VRef d) h0).
Proof.
intros HUe HUi HUs HUl HUm. unfold create.
unfold bind at 1, ret at 1. unfold bind at 1.
change (make_function (FClass VUndef VUndef) "Class" h0)
  with (Ret (length h0)
            (h0 ++ [function_object (FClass VUndef VUndef) "Class"
                      (S (length h0));
                    prototype_object (length h0)])).
set (cl := length h0). set (h1 := h0 ++ _).
pose proof (make_function_building h0 data0) as B1. fold cl h1 in B1.
assert (d < length h0) as Hdlt by (by eapply lookup_lt_Some).
eapply ends_bind.
{ apply (js_get_old call h0 cl U wf data0 (S cl) (VRef d) EXTEND h1 B1);
    [done|by intros l [= <-]]. }
intros e b [-> He].
assert (e = extend_of h0 d) as -> by (unfold extend_of; by rewrite He).
eapply ends_bind.
{ apply inherit_ends; [done..|by eapply read_old_valid]. }
intros base b (P & B2).
eapply ends_bind.
{ apply (js_get_old call h0 cl U wf data0 P (VRef d) INCLUDE b B2);
    [done|by intros l [= <-]]. }
intros iv b' [-> Hiv].
assert (iv = include_of h0 d) as -> by (unfold include_of; by rewrite Hiv).
destruct (bd_closure _ _ _ _ B2) as (ini & inc & Hcz).
unfold bind at 1. erewrite assign_includes_run by done.
set (h3 := set_closure b cl _).
assert (building h0 cl P h3) as B3 by (by apply building_set_closure).
eapply (ends_bind _ _ _ _ (λ _ b, building h0 cl P b)).
{ assert (ends h0 U (λ _ b, building h0 cl P b)
            ((l <- js_get call (include_of h0 d) LENGTH ;;
              n <- loop_bound l ;;
              mixin call n 0 cl (include_of h0 d)) h3)) as Hgen.
  2: { destruct (include_of h0 d); try exact Hgen. exact B3. }
  eapply ends_bind.
  { apply (js_get_old call h0 cl U wf data0 P _ LENGTH h3 B3);
      [done|by eapply read_old_valid]. }
  intros l b' [-> Hl].
  eapply (ends_bind _ _ _ _ (λ n b, b = h3 ∧ n = bound_of l)).
  { specialize (HUl l Hl). destruct l as [| |[]| | |]; try failed. }
  intros n b' [-> ->]. eapply mixin_ends; try done.
  - by eapply read_old_valid.
  - intros j x _ Hj. by apply (HUm l). }
intros [] h4 B4. unfold bind at 1.
rewrite (for_in_obj _ _ _ (old_obj _ _ _ _ B4 _ _ Hd)),
  (old_forin_keys _ _ _ _ wf B4) by done.
eapply (ends_bind _ _ _ _ (λ _ b, building h0 cl P b)).
{ apply (each_ends h0 U (define call cl base (VRef d))
           (λ b, building h0 cl P b) (forin_keys h0 d)); [|exact B4].
  intros k a _ Ba. by eapply define_ends. }
intros [] h5 B5. unfold bind at 1. rewrite (class_prototype _ _ _ _ B5).
eapply ends_bind.
{ apply js_set_ends; [apply B5|by eapply building_old|apply B5]. }
intros [] h6 (e & c & ->). simpl. split; [done|].
eapply building_old, building_write;
  [done|apply B5|by intros ?%(bd_ne _ _ _ _ B5)|done].
Qed.

End CreateFrame.

(** X9.  [create] never changes an object that existed before the
    call: the definition, the base class and the included classes are
    read, not written.  What it returns is a new object, and when it
    raises, the error is a TypeError of the host or the reserved-name
    error. *)
Theorem create_leaves_existing_objects fuel h d od :
  ordinary h = true → h !! d = Some od →
  match Clazzy_create fuel (VRef d) h with
  | Ret v h' => v = VRef (length h) ∧ old_same h h'
  | Throw e h' => (e = TypeError ∨ e = reserved_error) ∧ old_same h h'
  | Abort r => r = Unmodelled ∧ leaves_model h d od = true
  end.
Proof.
  intros Hord Hd.
  pose proof (create_ends (call fuel) h d od (leaves_model h d od = true)
                (ordinary_wf _ Hord) (ordinary_refs _ Hord)
                (ordinary_data _ Hord) Hd) as H.
  unfold ends in H. unfold Clazzy_create. apply H; clear H;
    unfold leaves_model.
  - intros ->. done.
  - intros ->. by rewrite orb_true_r.
  - intros ->. by rewrite !orb_true_r.
  - intros l Hl Hc. rewrite Hl. simpl. rewrite Hc. simpl.
    by rewrite !orb_true_r.
  - intros l j x Hl Hj Hx Hp. rewrite Hl. simpl. apply orb_true_iff. right.
    apply existsb_exists. exists j. split; [apply in_seq; lia|].
    by rewrite Hx.
Qed.

(** ** [create] runs no code of its caller *)

(** Two computations that agree on every heap of data properties and
    leave such a heap when they return: the way to say that a
    computation parametrised by [call] never uses it. *)
Definition calls_nothing {A} (m1 m2 : M A) : Prop :=
  ∀ a, data_heap a →
    m1 a = m2 a ∧ ∀ x b, m1 a = Ret x b → data_heap b.

Lemma calls_nothing_bind {A B} (m1 m2 : M A) (k1 k2 : A → M B) :
  calls_nothing m1 m2 → (∀ x, calls_nothing (k1 x) (k2 x)) →
  calls_nothing (bind m1 k1) (bind m2 k2).
Proof.
  intros Hm Hk a Ha. destruct (Hm a Ha) as [E Hd]. unfold bind.
  rewrite <- E. destruct (m1 a) as [x b| |]; [|done..].
  apply Hk. by eapply Hd.
Qed.

Lemma calls_nothing_pure {A} (m : M A) :
  (∀ a, match m a with Ret _ b => b = a | _ => True end) →
  calls_nothing m m.
Proof.
  intros Hm a Ha. split; [done|]. intros x b E. specialize (Hm a).
  rewrite E in Hm. by subst b.
Qed.

Lemma calls_nothing_ret {A} (x : A) : calls_nothing (ret x) (ret x).
Proof. by apply calls_nothing_pure. Qed.

Lemma calls_nothing_js_get c1 c2 v k :
  calls_nothing (js_get c1 v k) (js_get c2 v k).
Proof.
  intros a Ha. unfold js_get. destruct v as [| | | | |l]; try done.
  destruct (a !! l) as [o|]; [|done].
  destruct (lookup_prop a l k) as [p|] eqn:Hp; [|by split; [|intros ?? [= _ <-]]].
  pose proof (lookup_prop_data _ _ _ _ Ha Hp) as Hdat. unfold is_data in Hdat.
  destruct (p_slot p); [|done]. by split; [|intros ?? [= _ <-]].
Qed.

Lemma calls_nothing_js_set c1 c2 v k x :
  calls_nothing (js_set c1 v k x) (js_set c2 v k x).
Proof.
  intros a Ha. unfold js_set. destruct v as [| | | | |l]; try done.
  destruct (a !! l) as [o|]; [|done].
  destruct (o_array o && index_or_length k); [done|].
  destruct (lookup_prop a l k) as [p|] eqn:Hp.
  - pose proof (lookup_prop_data _ _ _ _ Ha Hp) as Hdat. unfold is_data in Hdat.
    destruct p as [[v0 [|]|] e c]; try done. split; [done|].
    destruct (own (o_props o) k); intros ?? [= _ <-];
      by apply data_heap_write.
  - split; [done|].
    destruct (own (o_props o) k); intros ?? [= _ <-];
      by apply data_heap_write.
Qed.

Lemma climb_data n v k a d b :
  data_heap a → climb n v k a = Ret (Some d) b → is_data d = true.
Proof.
  intros Ha. revert v. induction n as [|n IH]; intros v; [done|].
  cbn [climb]. unfold bind, getPrototypeOf.
  destruct v as [| | | | |l]; try done.
  destruct (a !! l) as [o|]; [|done].
  destruct (o_proto o) as [l'|]; [|done].
  unfold getOwnPropertyDescriptor. destruct (a !! l') as [o'|] eqn:Ho'; [|done].
  destruct (own (o_props o') k) as [d'|] eqn:Hown; [|apply IH].
  intros [= <- _]. by eapply Ha.
Qed.

Lemma getPropertyDescriptor_data v k deep a d b :
  data_heap a → getPropertyDescriptor v k deep a = Ret (Some d) b →
  is_data d = true.
Proof.
  intros Ha. unfold getPropertyDescriptor, bind, getOwnPropertyDescriptor.
  destruct v as [| | | | |l]; try done.
  destruct (a !! l) as [o|] eqn:Ho; [|done].
  destruct (own (o_props o) k) as [d'|] eqn:Hown.
  - intros [= <- _]. by eapply Ha.
  - destruct deep; [by apply climb_data|done].
Qed.

Lemma calls_nothing_copyProperty s t k deep :
  calls_nothing (copyProperty s t k deep) (copyProperty s t k deep).
Proof.
  intros a Ha. split; [done|]. intros [] b. unfold copyProperty, bind.
  pose proof (getPropertyDescriptor_pure s k deep a) as Hp.
  destruct (getPropertyDescriptor s k deep a) as [[d|] a'|e a'|r] eqn:Hg;
    try done.
  - subst a'. pose proof (getPropertyDescriptor_data _ _ _ _ _ _ Ha Hg) as Hd.
    destruct t as [| | | | |t]; try done.
    intros ->%defineProperty_Ret. by apply data_heap_write.
  - subst a'. by intros [= <-].
Qed.

Lemma calls_nothing_each {A} (f g : A → M unit) keys :
  (∀ x, calls_nothing (f x) (g x)) →
  calls_nothing (each f keys) (each g keys).
Proof.
  intros Hf. induction keys as [|x r IH]; [apply calls_nothing_ret|].
  cbn [each]. apply calls_nothing_bind; [apply Hf|by intros []].
Qed.

Lemma calls_nothing_copyProperties s t deep :
  calls_nothing (copyProperties s t deep) (copyProperties s t deep).
Proof.
  unfold copyProperties. apply calls_nothing_bind.
  - apply calls_nothing_pure. intros a. unfold for_in.
    destruct s as [| | | | |l]; try done. by destruct (a !! l).
  - intros keys. apply calls_nothing_each. intros k.
    apply calls_nothing_bind.
    + apply calls_nothing_pure. intros a. destruct deep; [done|].
      unfold hasOwnProperty. destruct s as [| | | | |l]; try done.
      by destruct (a !! l).
    + intros []; [apply calls_nothing_copyProperty|apply calls_nothing_ret].
Qed.

Lemma calls_nothing_alloc o :
  (∀ k p, own (o_props o) k = Some p → is_data p = true) →
  calls_nothing (alloc o) (alloc o).
Proof.
  intros Ho a Ha. split; [done|]. intros l b [= _ <-].
  apply data_heap_app; [done|]. intros o' k p [<-|[]]. apply Ho.
Qed.

Lemma calls_nothing_createAn c1 c2 v :
  calls_nothing (createAnUnconstructedInstanceOfClass c1 v)
                (createAnUnconstructedInstanceOfClass c2 v).
Proof.
  unfold createAnUnconstructedInstanceOfClass.
  apply calls_nothing_bind; [apply calls_nothing_js_get|].
  intros p. unfold object_create.
  destruct p; try (by intros a Ha);
    (apply calls_nothing_bind; [by apply calls_nothing_alloc|]);
    intros ?; apply calls_nothing_ret.
Qed.

Lemma calls_nothing_wrap method signature base :
  calls_nothing (wrapMethodToHaveSuper method signature base)
                (wrapMethodToHaveSuper method signature base).
Proof.
  intros a Ha. split; [done|]. intros x b.
  rewrite wrapMethodToHaveSuper_run. intros [= _ <-].
  apply data_heap_app; [done|apply data_function_objects].
Qed.

Lemma calls_nothing_assign_initialize cl v :
  calls_nothing (assign_initialize cl v) (assign_initialize cl v).
Proof.
  intros a Ha. split; [done|]. intros [] b. unfold assign_initialize.
  destruct (a !! cl) as [o|] eqn:Ho; [|done].
  destruct (o_call o) as [[]|] eqn:Hc; try done. intros [= <-].
  pose proof (data_heap_set_closure a cl (FClass v includes) Ha) as H.
  unfold set_closure in H. by rewrite Ho in H.
Qed.

Lemma calls_nothing_assign_includes cl v :
  calls_nothing (assign_includes cl v) (assign_includes cl v).
Proof.
  intros a Ha. split; [done|]. intros [] b. unfold assign_includes.
  destruct (a !! cl) as [o|] eqn:Ho; [|done].
  destruct (o_call o) as [[]|] eqn:Hc; try done. intros [= <-].
  pose proof (data_heap_set_closure a cl (FClass initialize v) Ha) as H.
  unfold set_closure in H. by rewrite Ho in H.
Qed.

Lemma calls_nothing_mixin c1 c2 cl iv n :
  ∀ i, calls_nothing (mixin c1 n i cl iv) (mixin c2 n i cl iv).
Proof.
  induction n as [|n IH]; intros i; [apply calls_nothing_ret|].
  cbn [mixin].
  apply calls_nothing_bind; [apply calls_nothing_js_get|]. intros inc.
  apply calls_nothing_bind; [apply calls_nothing_createAn|]. intros inst.
  apply calls_nothing_bind; [apply calls_nothing_js_get|]. intros proto.
  apply calls_nothing_bind; [apply calls_nothing_copyProperties|]. intros [].
  apply IH.
Qed.

Lemma calls_nothing_define c1 c2 cl base dv k :
  calls_nothing (define c1 cl base dv k) (define c2 cl base dv k).
Proof.
  unfold define. apply calls_nothing_bind.
  { apply calls_nothing_pure. intros a. unfold hasOwnProperty.
    destruct dv as [| | | | |l]; try done. by destruct (a !! l). }
  intros []; [|apply calls_nothing_ret].
  apply calls_nothing_bind; [apply calls_nothing_js_get|]. intros member.
  destruct (String.eqb k INITIALIZE).
  { apply calls_nothing_bind; [apply calls_nothing_wrap|]. intros w.
    apply calls_nothing_assign_initialize. }
  destruct (String.eqb k EXTEND || String.eqb k INCLUDE);
    [apply calls_nothing_ret|].
  destruct (String.eqb k STATIC); [apply calls_nothing_copyProperties|].
  destruct (String.eqb k SUPER); [by intros a Ha|].
  apply calls_nothing_bind.
  { by apply calls_nothing_pure. }
  intros [].
  - apply calls_nothing_bind; [apply calls_nothing_js_get|]. intros proto.
    apply calls_nothing_bind; [apply calls_nothing_wrap|]. intros w.
    apply calls_nothing_js_set.
  - apply calls_nothing_bind; [apply calls_nothing_js_get|]. intros proto.
    apply calls_nothing_copyProperty.
Qed.

Lemma calls_nothing_create c1 c2 v :
  calls_nothing (create c1 v) (create c2 v).
Proof.
  unfold create. apply calls_nothing_bind.
  { destruct v; try apply calls_nothing_ret.
    apply calls_nothing_bind; [by apply calls_nothing_alloc|].
    intros ?. apply calls_nothing_ret. }
  intros dv. apply calls_nothing_bind.
  { intros a Ha. split; [done|]. intros x b [= _ <-].
    apply data_heap_app; [done|apply data_function_objects]. }
  intros cl.
  apply calls_nothing_bind; [apply calls_nothing_js_get|]. intros base.
  apply calls_nothing_bind.
  { destruct base; try apply calls_nothing_ret;
      (apply calls_nothing_bind; [apply calls_nothing_createAn|]; intros ?;
       apply calls_nothing_bind; [apply calls_nothing_js_set|]; intros [];
       apply calls_nothing_bind; [apply calls_nothing_js_get|]; intros ?;
       apply calls_nothing_bind; [apply calls_nothing_js_get|]; intros ?;
       apply calls_nothing_bind; [apply calls_nothing_assign_initialize|];
       intros []; apply calls_nothing_ret). }
  intros base'.
  apply calls_nothing_bind; [apply calls_nothing_js_get|]. intros includes.
  apply calls_nothing_bind; [apply calls_nothing_assign_includes|]. intros [].
  apply calls_nothing_bind.
  { destruct includes; try apply calls_nothing_ret;
      (apply calls_nothing_bind; [apply calls_nothing_js_get|]; intros len;
       apply calls_nothing_bind;
         [apply calls_nothing_pure; intros a; by destruct len as [| |[]| | |]|];
       intros ?; apply calls_nothing_mixin). }
  intros [].
  apply calls_nothing_bind.
  { apply calls_nothing_pure. intros a. unfold for_in.
    destruct dv as [| | | | |l]; try done. by destruct (a !! l). }
  intros keys.
  apply calls_nothing_bind.
  { apply calls_nothing_each. intros k. apply calls_nothing_define. }
  intros [].
  apply calls_nothing_bind; [apply calls_nothing_js_get|]. intros proto.
  apply calls_nothing_bind; [apply calls_nothing_js_set|]. intros [].
  apply calls_nothing_ret.
Qed.

(** X10.  On a heap without accessors [create] calls no function:
    neither [initialize], nor the constructor of the base, nor those of
    the included classes run when a class is created, whatever the
    definition is.  Its outcome is the same for every way of running
    functions, so for every fuel, none included. *)
Theorem create_calls_no_function call1 call2 definition h :
  data_heap h →
  create call1 definition h = create call2 definition h ∧
  ∀ fuel, Clazzy_create fuel definition h = Clazzy_create 0 definition h.
Proof.
  intros Hd. split; [by apply calls_nothing_create|].
  intros fuel. by apply calls_nothing_create.
Qed.

(** ** The keywords, the prototype and the instances *)

(** X11.  The keywords of a definition ([initialize], [extend],
    [include], [static]) configure the class and are never installed as
    members: under such a name the prototype of the new class has only
    what the included classes bring, and nothing at all when there is no
    [include]. *)
Theorem keywords_are_not_members fuel h d od ms C h' k :
  ordinary h = true → h !! d = Some od →
  array_elems h (include_of h d) ms = true →
  Clazzy_create fuel (VRef d) h = Ret (VRef C) h' →
  In k [INITIALIZE; EXTEND; INCLUDE; STATIC] →
  ∃ P, read h' (VRef C) PROTOTYPE = Some (VRef P) ∧
       own_prop h' P k = included h ms k ∧
       (ms = [] → own_prop h' P k = None).
Proof.
  intros Hord Hd Hms Hrun Hk.
  destruct (created_class fuel h d od ms C h' Hord Hd Hms Hrun) as [P HC].
  exists P. split; [by eapply created_prototype|].
  assert (own_prop h' P k = included h ms k) as E.
  { apply (created_not_member h d od ms C h' Hd P k HC).
    - destruct Hk as [<-|[<-|[<-|[<-|[]]]]]; discriminate.
    - unfold member.
      by destruct Hk as [<-|[<-|[<-|[<-|[]]]]]. }
  split; [done|]. intros ->. by rewrite E.
Qed.

(** X12.  The prototype of the new class is a new object.  With
    [extend] it is linked to the prototype of the base, which is how the
    instances inherit, and the base's prototype itself is not touched;
    without it, it is linked to [Object.prototype]. *)
Theorem prototype_is_linked_to_the_base fuel h d od ms C h' :
  ordinary h = true → h !! d = Some od →
  array_elems h (include_of h d) ms = true →
  Clazzy_create fuel (VRef d) h = Ret (VRef C) h' →
  ∃ P, read h' (VRef C) PROTOTYPE = Some (VRef P) ∧
       length h ≤ P ∧
       shape h' P
       = Some (match extend_of h d with
               | VUndef => Some ObjectPrototype
               | B => match read h B PROTOTYPE with
                      | Some (VRef bp) => Some bp
                      | _ => None
                      end
               end, false) ∧
       (∀ B bp, extend_of h d = VRef B →
                read h (VRef B) PROTOTYPE = Some (VRef bp) →
                h' !! bp = h !! bp ∧
                ∀ k, own_prop h' P k = None →
                     lookup_prop h' P k = lookup_prop h bp k).
Proof.
  intros Hord Hd Hms Hrun.
  destruct (created_class fuel h d od ms C h' Hord Hd Hms Hrun) as [P HC].
  pose proof (cr_building _ _ _ _ _ _ _ HC) as B.
  exists P. split; [by eapply created_prototype|].
  split; [apply B|]. split; [apply (cr_shape _ _ _ _ _ _ _ HC)|].
  intros Bl bp Hb Hbp.
  assert (bp < length h) as Hlt
    by (eapply read_value_valid; [by apply ordinary_refs|done]).
  split; [by apply (bd_old _ _ _ _ B)|].
  intros k Hown.
  pose proof (cr_shape _ _ _ _ _ _ _ HC) as Hs.
  unfold proto_link in Hs. rewrite Hb, Hbp in Hs.
  apply shape_obj in Hs as (oP & HoP & Hpr & _).
  unfold own_prop in Hown. rewrite HoP in Hown.
  pose proof (lookup_lt_Some _ _ _ HoP) as HPlt.
  unfold lookup_prop at 1.
  destruct (length h') as [|n] eqn:En; [lia|]. simpl.
  rewrite HoP, Hown, Hpr.
  destruct (building_prefix _ _ _ _ B) as [t Et].
  pose proof (bd_P _ _ _ _ B) as HP.
  rewrite Et. rewrite Et, length_app in En.
  rewrite (find_prop_app n h t bp k (ordinary_wf _ Hord) Hlt) by lia.
  unfold lookup_prop. symmetry.
  apply find_prop_fuel; [by apply ordinary_wf|done].
Qed.

Lemma Class_constructor_returns_undefined call ini inc this args a r b :
  Class_constructor call ini inc this args a = Ret r b → r = VUndef.
Proof.
  unfold Class_constructor. intros H.
  apply bind_Ret in H as ([] & a1 & _ & H).
  apply bind_Ret in H as ([] & a2 & _ & H).
  by injection H as <- _.
Qed.

(** X13.  [new C(args)] on a class made by [create] allocates an
    object linked to [C.prototype], runs [Class] on it and answers with
    that object: [Class] returns nothing, so what [initialize] returns
    is dropped, and an error of an included class or of [initialize] is
    the error of [new]. *)
Theorem new_returns_the_instance fuel C ini inc args h pv :
  closure h C = Some (FClass ini inc) →
  read h (VRef C) PROTOTYPE = Some pv →
  match call fuel (VRef C) (VRef (length h)) args
             (h ++ [Obj (Some (match pv with
                               | VRef l => l
                               | _ => ObjectPrototype
                               end)) [] None false]) with
  | Ret _ h2 => construct fuel (VRef C) args h = Ret (VRef (length h)) h2
  | Throw e h2 => construct fuel (VRef C) args h = Throw e h2
  | Abort r => construct fuel (VRef C) args h = Abort r
  end.
Proof.
  intros Hc Hr. set (h1 := h ++ _).
  assert (construct fuel (VRef C) args h
          = match call fuel (VRef C) (VRef (length h)) args h1 with
            | Ret r h2 => Ret (match r with
                               | VRef _ => r
                               | _ => VRef (length h)
                               end) h2
            | Throw e h2 => Throw e h2
            | Abort r => Abort r
            end) as ->.
  { unfold construct, bind.
    by rewrite (js_get_read (call fuel) h (VRef C) PROTOTYPE pv Hr). }
  destruct (call fuel (VRef C) (VRef (length h)) args h1) as [r h2|e h2|r] eqn:E;
    [|done..].
  destruct fuel as [|n]; [done|].
  rewrite (call_Class n C ini inc) in E.
  - by apply Class_constructor_returns_undefined in E as ->.
  - unfold h1. rewrite closure_app; [done|].
    unfold closure in Hc. destruct (h !! C) eqn:E'; [|done].
    by eapply lookup_lt_Some.
Qed.

Lemma each_app {A} (f : A → M unit) l1 l2 a :
  each f (l1 ++ l2) a = (each f l1 ;;; each f l2) a.
Proof.
  revert a. induction l1 as [|x r IH]; intros a; [done|].
  simpl. unfold bind. destruct (f x a) as [[] a1| |]; [|done..].
  apply IH.
Qed.


(** ** [create] without a definition *)

Lemma wf_heap_snoc h o :
  wf_heap h → (∀ l, o_proto o = Some l → l < length h) → wf_heap (h ++ [o]).
Proof.
  intros Hwf Ho l o' l' Hl Hp.
  destruct (decide (l < length h)) as [Hlt|Hge].
  - rewrite lookup_app_l in Hl by done. by eapply Hwf.
  - pose proof (lookup_lt_Some _ _ _ Hl) as Hlen.
    rewrite length_app in Hlen. simpl in Hlen.
    assert (l = length h) as -> by lia.
    rewrite lookup_app_r, Nat.sub_diag in Hl by done.
    injection Hl as <-. by apply Ho.
Qed.

Lemma each_define_empty call cl base d a keys :
  a !! d = Some empty_object →
  each (define call cl base (VRef d)) keys a = Ret tt a.
Proof.
  intros Hd. induction keys as [|k r IH]; [done|].
  cbn [each]. unfold bind at 1. unfold define at 1. unfold bind at 1.
  by rewrite (hasOwnProperty_obj _ _ _ _ Hd).
Qed.

(** X15.  [create()] with no definition is [create({})]: it always
    returns, for every fuel, a class whose prototype holds nothing but
    [constructor], linked to [Object.prototype], with no initializer and
    no include, so that its constructor does nothing.  The names that
    [Object.prototype] makes enumerable are visited and skipped.  (What
    it reads through the empty definition, [extend] and [include], must
    not have been put on [Object.prototype].) *)
Theorem create_without_a_definition fuel h :
  wf_heap h →
  read h (VRef ObjectPrototype) EXTEND = Some VUndef →
  read h (VRef ObjectPrototype) INCLUDE = Some VUndef →
  Clazzy_create fuel VUndef h
  = Ret (VRef (S (length h)))
        (h ++ [empty_object;
               function_object (FClass VUndef VUndef) "Class"
                 (S (S (length h)));
               prototype_object (S (length h))]) ∧
  ∀ n this args hh,
    closure hh (S (length h)) = Some (FClass VUndef VUndef) →
    call (S n) (VRef (S (length h))) this args hh = Ret VUndef hh.
Proof.
  intros Hwf He Hi. split.
  2: { intros n this args hh Hc. by rewrite (call_Class n _ _ _ _ _ _ Hc). }
  assert (ObjectPrototype < length h) as H0.
  { unfold read in He. destruct (h !! ObjectPrototype) eqn:E; [|done].
    by eapply lookup_lt_Some. }
  unfold Clazzy_create, create.
  unfold bind at 1. unfold bind at 1, alloc at 1, ret at 1.
  set (d := length h). set (ha := h ++ [empty_object]).
  assert (length ha = S d) as Hla
    by (unfold ha; rewrite length_app; simpl; unfold d; lia).
  assert (wf_heap ha) as Hwfa.
  { apply wf_heap_snoc; [done|]. by intros l [= <-]. }
  assert (∀ k, read ha (VRef d) k = read h (VRef ObjectPrototype) k) as Hra.
  { intros k. unfold read.
    assert (ha !! d = Some empty_object) as Hd.
    { unfold ha. rewrite lookup_app_r by (unfold d; lia).
      by rewrite Nat.sub_diag. }
    rewrite Hd. unfold ha, empty_object, d. rewrite (fresh_lookup h _ k Hwf H0).
    by destruct (lookup_lt_is_Some_2 h _ H0) as [o0 ->]. }
  unfold bind at 1.
  change (make_function (FClass VUndef VUndef) "Class" ha)
    with (Ret (length ha)
              (ha ++ [function_object (FClass VUndef VUndef) "Class"
                        (S (length ha));
                      prototype_object (length ha)])).
  rewrite Hla. set (cl := S d). set (h1 := ha ++ _).
  assert (d < length ha) as Hdlt by lia.
  assert (h1 !! d = Some empty_object) as Hd1.
  { unfold h1. rewrite lookup_app_l by done.
    unfold ha. rewrite lookup_app_r by (unfold d; lia).
    by rewrite Nat.sub_diag. }
  assert (h1 !! cl = Some (function_object (FClass VUndef VUndef) "Class" (S cl)))
    as Hc1.
  { unfold h1. rewrite lookup_app_r by (unfold cl; lia).
    by replace (cl - length ha) with 0 by (unfold cl; lia). }
  assert (h1 !! S cl = Some (prototype_object cl)) as Hp1.
  { unfold h1. rewrite lookup_app_r by (unfold cl; lia).
    by replace (S cl - length ha) with 1 by (unfold cl; lia). }
  assert (∀ k, read h1 (VRef d) k = read h (VRef ObjectPrototype) k) as Hr1.
  { intros k. unfold h1. by rewrite read_app. }
  unfold bind at 1.
  rewrite (js_get_read (call fuel) h1 (VRef d) EXTEND VUndef)
    by (by rewrite Hr1).
  unfold bind at 1, ret at 1. unfold bind at 1.
  rewrite (js_get_read (call fuel) h1 (VRef d) INCLUDE VUndef)
    by (by rewrite Hr1).
  assert (assign_includes cl VUndef h1 = Ret tt h1) as Ea.
  { unfold assign_includes. rewrite Hc1. cbn [o_call function_object].
    f_equal. by apply list_insert_id. }
  unfold bind at 1. rewrite Ea.
  unfold bind at 1, ret at 1. unfold bind at 1.
  rewrite (for_in_obj _ _ _ Hd1).
  unfold bind at 1. rewrite (each_define_empty _ _ _ _ _ _ Hd1).
  unfold bind at 1.
  rewrite (js_get_read (call fuel) h1 (VRef cl) PROTOTYPE (VRef (S cl)))
    by (by eapply read_own).
  assert (js_set (call fuel) (VRef (S cl)) CONSTRUCTOR (VRef cl) h1
          = Ret tt h1) as Es.
  { unfold js_set. rewrite Hp1.
    erewrite lookup_prop_own by done.
    cbn [prototype_object o_array o_props andb hidden own p_enum p_conf].
    change (String.eqb CONSTRUCTOR CONSTRUCTOR) with true.
    cbn [p_enum p_conf]. f_equal. unfold write_prop. rewrite Hp1.
    by apply list_insert_id. }
  unfold bind at 1. rewrite Es. unfold ret. f_equal.
  unfold h1, ha. by rewrite <- app_assoc.
Qed.

(** * The helpers and [create] at work *)

Module MoreExamples.

Import Examples.
Local Open Scope string_scope.

(** Objects of the small hierarchy: the prototype of [B] (it owns [m]
    and [constructor]), the prototype of [M] (made by [Object.create]
    from the prototype of [A]) and the [static] block of the
    definition. *)
Definition B_prototype : loc := 31.
Definition M_prototype : loc := 39.
Definition static_block_ : loc := 45.

Definition B_prototype_object : obj :=
  Eval vm_compute in default empty_object (world !! B_prototype).
Definition M_prototype_object : obj :=
  Eval vm_compute in default empty_object (world !! M_prototype).
Definition static_block_object : obj :=
  Eval vm_compute in default empty_object (world !! static_block_).

(** ** An included class whose constructor raises

<<
  var M = Clazzy.create({ initialize: function () { throw 'no'; } });
  var definition = { include: [M],
                     initialize: function () { this.made = true; } };
>> *)
Definition failing_include : M value :=
  f <- function_expr (SThrow (EConst (VStr "no"))) ;;
  dM <- object_literal [("initialize", f)] ;;
  M <- Clazzy_create 0 dM ;;
  arr <- array_literal [M] ;;
  g <- function_expr (SSet EThis "made" (EConst (VBool true))) ;;
  object_literal [("include", arr); ("initialize", g)].

Definition failing_world : heap :=
  Eval vm_compute in heap_of (failing_include realm).
Definition failing_definition : loc := 26.
Definition failing_definition_object : obj :=
  Eval vm_compute in default empty_object (failing_world !! failing_definition).
Definition failing_world' : heap :=
  Eval vm_compute in
    heap_of (Clazzy_create 0 (VRef failing_definition) failing_world).
Definition failing_world'' : heap :=
  Eval vm_compute in
    heap_of (call 3 (VRef 19) (VRef failing_definition) [] failing_world').

End MoreExamples.

Import Examples MoreExamples.

Lemma getPropertyDescriptor_lookup_witness :
  getPropertyDescriptor (VRef B_prototype) "m" true world
  = match lookup_prop world B_prototype "m" with
    | Some p => Ret (Some p) world
    | None => Throw TypeError world
    end ∧
  getPropertyDescriptor (VRef B_prototype) "m" false world
  = Ret (own (o_props B_prototype_object) "m") world.
Proof.
  apply (getPropertyDescriptor_lookup world B_prototype B_prototype_object "m").
  - apply ordinary_wf. vm_compute. reflexivity.
  - vm_compute. reflexivity.
Defined.

Lemma copyProperty_installs_the_descriptor_witness :
  ∃ h', copyProperty (VRef B_prototype) (VRef static_block_) "m" false world
        = Ret tt h' ∧
        getPropertyDescriptor (VRef static_block_) "m" false h'
        = Ret (Some (plain (VRef 32))) h' ∧
        (∀ k', k' ≠ "m"%string →
               own_prop h' static_block_ k' = own_prop world static_block_ k') ∧
        (∀ l, l ≠ static_block_ → h' !! l = world !! l) ∧
        shape h' static_block_ = shape world static_block_.
Proof.
  apply (copyProperty_installs_the_descriptor world (VRef B_prototype)
           static_block_ static_block_object "m" false (plain (VRef 32)));
    try (vm_compute; reflexivity).
  intros cur. vm_compute. discriminate.
Defined.

Lemma copyProperties_copies_own_enumerable_witness :
  ∃ h', copyProperties (VRef B_prototype) (VRef static_block_) false world
        = Ret tt h' ∧
    (∀ k, own_prop h' static_block_ k
          = match enum_own world (VRef B_prototype) k with
            | Some p => Some p
            | None => own_prop world static_block_ k
            end) ∧
    (∀ l, l ≠ static_block_ → h' !! l = world !! l) ∧
    shape h' static_block_ = shape world static_block_.
Proof.
  apply (copyProperties_copies_own_enumerable world B_prototype static_block_
           B_prototype_object static_block_object);
    try (vm_compute; reflexivity).
  - discriminate.
  - intros k cur H%own_In. vm_compute in H.
    destruct H as [[= <- <-]|[]]. reflexivity.
Defined.

Lemma copyProperties_copies_inherited_enumerable_witness :
  ∃ h', copyProperties (VRef M_prototype) (VRef static_block_) true world
        = Ret tt h' ∧
    (∀ k, own_prop h' static_block_ k
          = match enum_chain world M_prototype k with
            | Some p => Some p
            | None => own_prop world static_block_ k
            end) ∧
    (∀ l, l ≠ static_block_ → h' !! l = world !! l) ∧
    shape h' static_block_ = shape world static_block_.
Proof.
  apply (copyProperties_copies_inherited_enumerable world M_prototype
           static_block_ M_prototype_object static_block_object);
    try (vm_compute; reflexivity).
  - apply ordinary_wf. vm_compute. reflexivity.
  - discriminate.
  - intros k cur H%own_In. vm_compute in H.
    destruct H as [[= <- <-]|[]]. reflexivity.
Defined.

Lemma unconstructed_instance_mirrors_the_prototype_witness :
  createAnUnconstructedInstanceOfClass (call 0) (VRef B_) world
  = Ret (VRef (length world))
        (world ++ [Obj (Some B_prototype) [] None false]) ∧
  (∀ k, lookup_prop (world ++ [Obj (Some B_prototype) [] None false])
                    (length world) k
        = lookup_prop world B_prototype k) ∧
  forin_keys (world ++ [Obj (Some B_prototype) [] None false]) (length world)
  = forin_keys world B_prototype.
Proof.
  apply (unconstructed_instance_mirrors_the_prototype (call 0) world (VRef B_)
           (VRef B_prototype)).
  - apply ordinary_wf. vm_compute. reflexivity.
  - vm_compute. reflexivity.
  - intros p [= <-]. vm_compute. lia.
Defined.

Lemma surrogate_instance_assigns_the_constructor_witness :
  ∃ h',
    createAnUnconstructedInstanceOfClass_on (Host false true) 1 (VRef B_) world
    = Ret (VRef (length world + 2)) h' ∧
    h' !! (length world + 2) = Some (Obj (Some B_prototype) [] None false) ∧
    read h' (VRef B_prototype) CONSTRUCTOR = Some (VRef B_) ∧
    (∀ l, l < length world → l ≠ B_prototype → h' !! l = world !! l) ∧
    (∀ k, k ≠ CONSTRUCTOR →
          own_prop h' B_prototype k = own_prop world B_prototype k).
Proof.
  apply (surrogate_instance_assigns_the_constructor 0 world (VRef B_)
           B_prototype).
  - apply ordinary_wf. vm_compute. reflexivity.
  - vm_compute. reflexivity.
  - vm_compute. reflexivity.
Defined.

Lemma copyProperty_assign_copies_the_value_witness :
  copyProperty_on (Host true false) 0 (VRef B_prototype) (VRef static_block_)
                  "m" false world
  = Ret tt (write_prop world static_block_ "m" (plain (VRef 32))) ∧
  (∀ d, getPropertyDescriptor (VRef B_prototype) "m" false world
        = Ret (Some d) world →
        (copyProperty_on (Host true true) 0 (VRef B_prototype)
                         (VRef static_block_) "m" false world
         = copyProperty_on (Host true false) 0 (VRef B_prototype)
                           (VRef static_block_) "m" false world
         ↔ d = plain (VRef 32))) ∧
  (getPropertyDescriptor (VRef B_prototype) "m" false world = Ret None world →
   copyProperty_on (Host true true) 0 (VRef B_prototype) (VRef static_block_)
                   "m" false world
   = Ret tt world).
Proof.
  apply (copyProperty_assign_copies_the_value 0 world (VRef B_prototype)
           static_block_ static_block_object "m" (VRef 32) false);
    vm_compute; reflexivity.
Defined.

Lemma create_leaves_existing_objects_witness :
  match Clazzy_create 0 (VRef definition_) world with
  | Ret v h' => v = VRef (length world) ∧ old_same world h'
  | Throw e h' => (e = TypeError ∨ e = reserved_error) ∧ old_same world h'
  | Abort r =>
      r = Unmodelled ∧ leaves_model world definition_ world_definition = true
  end.
Proof.
  apply (create_leaves_existing_objects 0 world definition_ world_definition);
    vm_compute; reflexivity.
Defined.

Lemma create_calls_no_function_witness :
  create (call 0) (VRef definition_) world
  = create (call 7) (VRef definition_) world ∧
  ∀ fuel, Clazzy_create fuel (VRef definition_) world
          = Clazzy_create 0 (VRef definition_) world.
Proof.
  apply (create_calls_no_function (call 0) (call 7) (VRef definition_) world).
  apply ordinary_data. vm_compute. reflexivity.
Defined.

Lemma keywords_are_not_members_witness :
  ∃ P, read world' (VRef C_) PROTOTYPE = Some (VRef P) ∧
       own_prop world' P INITIALIZE = included world [VRef M_] INITIALIZE ∧
       ([VRef M_] = [] → own_prop world' P INITIALIZE = None).
Proof.
  apply (keywords_are_not_members 0 world definition_ world_definition
           [VRef M_] C_ world' INITIALIZE);
    try (vm_compute; reflexivity).
  by left.
Defined.

Lemma prototype_is_linked_to_the_base_witness :
  ∃ P, read world' (VRef C_) PROTOTYPE = Some (VRef P) ∧
       length world ≤ P ∧
       shape world' P
       = Some (match extend_of world definition_ with
               | VUndef => Some ObjectPrototype
               | B => match read world B PROTOTYPE with
                      | Some (VRef bp) => Some bp
                      | _ => None
                      end
               end, false) ∧
       (∀ B bp, extend_of world definition_ = VRef B →
                read world (VRef B) PROTOTYPE = Some (VRef bp) →
                world' !! bp = world !! bp ∧
                ∀ k, own_prop world' P k = None →
                     lookup_prop world' P k = lookup_prop world bp k).
Proof.
  apply (prototype_is_linked_to_the_base 0 world definition_ world_definition
           [VRef M_] C_ world');
    vm_compute; reflexivity.
Defined.

Lemma new_returns_the_instance_witness :
  match call 5 (VRef C_) (VRef (length world')) []
             (world' ++ [Obj (Some 51) [] None false]) with
  | Ret _ h2 => construct 5 (VRef C_) [] world' = Ret (VRef (length world')) h2
  | Throw e h2 => construct 5 (VRef C_) [] world' = Throw e h2
  | Abort r => construct 5 (VRef C_) [] world' = Abort r
  end.
Proof.
  apply (new_returns_the_instance 5 C_ (VRef B_) (VRef 42) [] world' (VRef 51));
    vm_compute; reflexivity.
Defined.


Lemma create_without_a_definition_witness :
  Clazzy_create 0 VUndef world
  = Ret (VRef (S (length world)))
        (world ++ [empty_object;
                   function_object (FClass VUndef VUndef) "Class"
                     (S (S (length world)));
                   prototype_object (S (length world))]) ∧
  ∀ n this args hh,
    closure hh (S (length world)) = Some (FClass VUndef VUndef) →
    call (S n) (VRef (S (length world))) this args hh = Ret VUndef hh.
Proof.
  apply (create_without_a_definition 0 world).
  - apply ordinary_wf. vm_compute. reflexivity.
  - vm_compute. reflexivity.
  - vm_compute. reflexivity.
Defined.
